(** * Storage tables of the sync API and the room server

    A shallow embedding of four storage tables of the repository and of one
    handler of the client API:

    - [syncapi/storage/mysql/stream_id_table.go]: the global stream
      position counter ([nextStreamID]);
    - [syncapi/storage/mysql/output_room_events_table.go]: the output log
      ([InsertEvent], [SelectRecentEvents], [SelectEarlyEvents],
      [SelectEvents], [SelectStateInRange]);
    - [roomserver/storage/mysql/rooms_table.go]: the rooms table
      ([InsertRoomNID], [SelectRoomNID], [UpdateLatestEventNIDs]);
    - the state snapshot table ([insertState], [bulkSelectStateBlockNIDs]);
    - [clientapi/routing/getevent.go]: [GetEvent].

    A table is the list of its rows in insertion order, together with the
    counters the schema declares.  Every SQL statement of the source is a
    function on that state, named after the Go constant that holds its text;
    every Go function is a function that threads the state through the
    statements it executes, in the order the source executes them.

    A statement is embedded as its text reads and as the Go call executes
    it:
    - the arguments of a call go to the parameters of the statement in the
      order in which the parameters first appear in the text;
    - a parameter takes the one value it is given, of whatever type: a whole
      slice bound to one parameter is one value;
    - a text prepared as one statement is executed up to its first
      semicolon;
    - LIMIT with a negative value bounds nothing;
    - a counter (AUTO_INCREMENT, AUTOINCREMENT) gives its next value to
      every insert that leaves the key to it, also to one that then finds
      a conflict and stores nothing; the insert fails when the counter has
      no next value.

    A failed statement aborts the call ([Err]).  The functions that take a
    transaction leave it to the caller to roll back, so no state is
    returned with an error; [insertState], which takes none, returns the
    table it leaves beside its result.

    The first part of the file holds the definitions, one module per table;
    the second part holds the properties, one module of facts per table. *)

From Stdlib Require Import ZArith Lia.
From stdpp Require Import base option list strings gmap sorting pretty.

Local Open Scope Z_scope.

(** ** Errors and results *)

(** The error values the modelled functions can return. *)
Inductive error : Type :=
| ErrNoRows            (* sql.ErrNoRows: QueryRow().Scan on an empty result *)
| ErrOutOfRange        (* a BIGINT column or counter would leave 64 bits *)
| ErrUniqueViolation   (* a unique constraint no ON CONFLICT clause covers *)
| ErrScanNull          (* rows.Scan of SQL NULL into a non-pointer Go value *)
| ErrParameterType     (* a parameter that is not of the type the statement
                          asks for *)
| ErrSyntax            (* strconv, encoding/json: a text that does not
                          parse *)
| ErrStateNIDsMissing (found wanted : nat)
                       (* fmt.Errorf("storage: state NIDs missing ...") *)
| PanicIndexOutOfRange (* Go run-time panic on results[i] *).

Inductive result (A : Type) : Type :=
| Ok (a : A)
| Err (e : error).
Arguments Ok {A} a.
Arguments Err {A} e.

#[global] Instance result_ret : MRet result := λ A a, Ok a.
#[global] Instance result_bind : MBind result := λ A B f r,
  match r with
  | Ok a => f a
  | Err e => Err e
  end.

Definition is_Ok {A} (r : result A) : Prop := ∃ a, r = Ok a.
Definition is_Err {A} (r : result A) : Prop := ∃ e, r = Err e.

(** Signed 64-bit range of BIGINT columns and of Go's int64. *)
Definition max_int64 : Z := 2 ^ 63 - 1.

(** ** Stable sorting: sort.SliceStable and ORDER BY *)

(** [x] is put in front of the first element that is not less than [x]:
    an element that came first stays first among equals. *)
Fixpoint stable_insert {A : Type} (less : A → A → bool) (x : A) (l : list A)
    : list A :=
  match l with
  | [] => [x]
  | y :: l' => if less y x then y :: stable_insert less x l' else x :: l
  end.

(** sort.SliceStable(l, less): the stable sort is determined by [less], so
    it is modelled by a stable insertion sort. *)
Fixpoint SliceStable {A : Type} (less : A → A → bool) (l : list A) : list A :=
  match l with
  | [] => []
  | x :: l' => stable_insert less x (SliceStable less l')
  end.

(** ** The stream position counter (stream_id_table.go) *)

Module StreamID.

(** [syncapi_stream_id]: stream_name is the primary key, so the table is a
    finite map from stream_name to stream_id. *)
Abbreviation table := (gmap string Z).

(** streamIDTableSchema: the table is created with the row ("global", 0),
    and [ON CONFLICT DO NOTHING] keeps a row that is already there. *)
Definition streamIDTableSchema (t : table) : table :=
  match t !! "global"%string with
  | Some _ => t
  | None => <["global"%string := 0]> t
  end.

(** increaseStreamIDStmt:
    UPDATE syncapi_stream_id SET stream_id = stream_id + 1
    WHERE stream_name = $1.
    No matching row is not an error (zero rows updated); a value that
    leaves BIGINT is. *)
Definition increaseStreamIDStmt (name : string) (t : table) : result table :=
  match t !! name with
  | None => Ok t
  | Some v =>
      if decide (v + 1 ≤ max_int64) then Ok (<[name := v + 1]> t)
      else Err ErrOutOfRange
  end.

(** selectStreamIDStmt:
    SELECT stream_id FROM syncapi_stream_id WHERE stream_name = $1,
    read with QueryRowContext(...).Scan(&pos). *)
Definition selectStreamIDStmt (name : string) (t : table) : result Z :=
  match t !! name with
  | Some v => Ok v
  | None => Err ErrNoRows
  end.

(** func (s *streamIDStatements) nextStreamID *)
Definition nextStreamID (t : table) : result (Z * table) :=
  t' ← increaseStreamIDStmt "global" t;
  pos ← selectStreamIDStmt "global" t';
  Ok (pos, t').

(** [n] calls one after the other, each in its own turn on the counter
    row; the trace holds, for every call, the position it returned and the
    table it left. *)
Fixpoint nextStreamID_run (n : nat) (t : table) : result (list (Z * table)) :=
  match n with
  | O => Ok []
  | S n' =>
      r ← nextStreamID t;
      tr ← nextStreamID_run n' r.2;
      Ok (r :: tr)
  end.

(** func (s *streamIDStatements) prepare: the schema is executed, then the
    two statements are prepared. *)
Definition prepare (t : table) : result table :=
  Ok (streamIDTableSchema t).

End StreamID.

(** ** The output log (output_room_events_table.go) *)

Module OutputRoomEvents.

(** gomatrixserverlib.HeaderedEvent, as far as the table reads it: the
    accessors EventID(), RoomID(), Type(), Sender() and Content(). *)
Record HeaderedEvent : Type := {
  EventID : string;
  RoomID : string;
  Type_ : string;
  Sender : string;
  Content : string
}.

(** api.TransactionID *)
Record api_TransactionID : Type := {
  SessionID : Z;
  TransactionID : string
}.

(** types.StreamEvent *)
Record StreamEvent : Type := {
  SE_HeaderedEvent : HeaderedEvent;
  StreamPosition : Z;
  SE_TransactionID : option api_TransactionID;
  ExcludeFromSync : bool
}.

(** Modelled from the spec: types.Range and its methods Low() and High()
    are declared outside the files at hand.  A range is "a pair (low, high)
    of StreamPosition" whose "Low()/High() resolve direction-dependent
    bounds for forward vs backward queries": a backward range runs from its
    upper bound down to its lower bound. *)
Record Range : Type := {
  From : Z;
  To : Z;
  Backwards : bool
}.

Definition Low (r : Range) : Z := if Backwards r then To r else From r.
Definition High (r : Range) : Z := if Backwards r then From r else To r.

(** A row of syncapi_output_room_events.  Columns that may be NULL are
    options.  headered_event_json holds json.Marshal of the event, and
    add_state_ids and remove_state_ids hold json.Marshal of a []string; the
    embedding keeps the value that was encoded, so that decoding what
    InsertEvent stored returns it and does not fail. *)
Record Row : Type := {
  id : Z;
  event_id : string;
  room_id : string;
  headered_event_json : HeaderedEvent;
  type : string;
  sender : string;
  contains_url : bool;
  add_state_ids : option (list string);
  remove_state_ids : option (list string);
  session_id : option Z;
  transaction_id : option string;
  exclude_from_sync : bool
}.

Definition set_exclude_from_sync (b : bool) (r : Row) : Row :=
  {| id := id r; event_id := event_id r; room_id := room_id r;
     headered_event_json := headered_event_json r; type := type r;
     sender := sender r; contains_url := contains_url r;
     add_state_ids := add_state_ids r;
     remove_state_ids := remove_state_ids r;
     session_id := session_id r; transaction_id := transaction_id r;
     exclude_from_sync := b |}.

(** The two tables the output log works on: the stream position counter
    and the log itself, rows in insertion order. *)
Record DB : Type := {
  stream_ids : StreamID.table;
  output_room_events : list Row
}.

(** The database after both schemas have been executed on an empty store. *)
Definition init_db : DB :=
  {| stream_ids := StreamID.streamIDTableSchema ∅; output_room_events := [] |}.

(** insertEventSQL:
    INSERT INTO syncapi_output_room_events (id, ..., exclude_from_sync)
    VALUES ($1, ..., $12)
    ON CONFLICT ON CONSTRAINT syncapi_event_id_idx
    DO UPDATE SET exclude_from_sync = $13.
    A row with the same event_id turns the insert into an update of that
    row's exclude_from_sync; a clash on the primary key [id] alone is not
    covered by the clause and fails. *)
Definition insertEventSQL (r : Row) (arg13 : bool) (tbl : list Row)
    : result (list Row) :=
  if decide (event_id r ∈ event_id <$> tbl) then
    Ok ((λ r', if decide (event_id r' = event_id r)
               then set_exclude_from_sync arg13 r' else r') <$> tbl)
  else if decide (id r ∈ id <$> tbl) then Err ErrUniqueViolation
  else Ok (tbl ++ [r]).

(** LIMIT $n: the first n rows.  The Go functions hand their limit to the
    statement unchecked, and a negative limit is no limit: every row is
    returned. *)
Definition sql_limit {A} (limit : Z) (rows : list A) : result (list A) :=
  Ok (if decide (limit < 0) then rows else take (Z.to_nat limit) rows).

Definition order_by_id_asc (rows : list Row) : list Row :=
  SliceStable (λ a b, id a <? id b) rows.
Definition order_by_id_desc (rows : list Row) : list Row :=
  SliceStable (λ a b, id b <? id a) rows.

(** WHERE room_id = $1 AND id > $2 AND id <= $3 *)
Definition in_room_range (room : string) (lo hi : Z) (r : Row) : Prop :=
  room_id r = room ∧ lo < id r ∧ id r ≤ hi.

#[global] Instance in_room_range_dec room lo hi r :
  Decision (in_room_range room lo hi r).
Proof. unfold in_room_range. apply _. Defined.

(** selectRecentEventsSQL: ... ORDER BY id DESC LIMIT $4 *)
Definition selectRecentEventsSQL (room : string) (lo hi limit : Z)
    (tbl : list Row) : result (list Row) :=
  sql_limit limit (order_by_id_desc (filter (in_room_range room lo hi) tbl)).

(** selectRecentEventsForSyncSQL: ... AND exclude_from_sync = FALSE
    ORDER BY id DESC LIMIT $4 *)
Definition selectRecentEventsForSyncSQL (room : string) (lo hi limit : Z)
    (tbl : list Row) : result (list Row) :=
  sql_limit limit
    (order_by_id_desc
       (filter (λ r, in_room_range room lo hi r ∧ exclude_from_sync r = false)
               tbl)).

(** selectEarlyEventsSQL: ... ORDER BY id ASC LIMIT $4 *)
Definition selectEarlyEventsSQL (room : string) (lo hi limit : Z)
    (tbl : list Row) : result (list Row) :=
  sql_limit limit (order_by_id_asc (filter (in_room_range room lo hi) tbl)).

(** WHERE (id > $1 AND id <= $2)
    AND (add_state_ids IS NOT NULL OR remove_state_ids IS NOT NULL) *)
Definition in_state_range (lo hi : Z) (r : Row) : Prop :=
  (lo < id r ∧ id r ≤ hi) ∧
  (add_state_ids r ≠ None ∨ remove_state_ids r ≠ None).

#[global] Instance in_state_range_dec lo hi r : Decision (in_state_range lo hi r).
Proof. unfold in_state_range. apply _. Defined.

(** selectStateInRangeSQL: ... ORDER BY id ASC LIMIT <the state filter's
    limit> *)
Definition selectStateInRangeSQL (lo hi limit : Z) (tbl : list Row)
    : result (list Row) :=
  sql_limit limit (order_by_id_asc (filter (in_state_range lo hi) tbl)).

(** func rowsToStreamEvents: one StreamEvent per row; the transaction ID is
    set only when both session_id and transaction_id are. *)
Definition rowToStreamEvent (r : Row) : StreamEvent :=
  {| SE_HeaderedEvent := headered_event_json r;
     StreamPosition := id r;
     SE_TransactionID :=
       match session_id r, transaction_id r with
       | Some s, Some t => Some {| SessionID := s; TransactionID := t |}
       | _, _ => None
       end;
     ExcludeFromSync := exclude_from_sync r |}.

Definition rowsToStreamEvents (rows : list Row) : list StreamEvent :=
  rowToStreamEvent <$> rows.

(** The comparison handed to sort.SliceStable in both select functions. *)
Definition lessStreamPosition (a b : StreamEvent) : bool :=
  StreamPosition a <? StreamPosition b.

(** func (s *outputRoomEventsStatements) InsertEvent.
    containsURL is only assigned when json.Unmarshal of the content fails,
    and then from a map that is still nil: it is always false. *)
Definition InsertEvent (db : DB) (event : HeaderedEvent)
    (addState removeState : list string)
    (transactionID : option api_TransactionID) (excludeFromSync : bool)
    : result (Z * DB) :=
  let txnID := TransactionID <$> transactionID in
  let sessionID := SessionID <$> transactionID in
  let containsURL := false in
  '(streamPos, ids) ← StreamID.nextStreamID (stream_ids db);
  tbl ← insertEventSQL
           {| id := streamPos; room_id := RoomID event;
              event_id := EventID event; headered_event_json := event;
              type := Type_ event; sender := Sender event;
              contains_url := containsURL;
              add_state_ids := Some addState;
              remove_state_ids := Some removeState;
              session_id := sessionID; transaction_id := txnID;
              exclude_from_sync := excludeFromSync |}
           excludeFromSync (output_room_events db);
  Ok (streamPos, {| stream_ids := ids; output_room_events := tbl |}).

(** func (s *outputRoomEventsStatements) SelectRecentEvents *)
Definition SelectRecentEvents (db : DB) (roomID : string) (r : Range)
    (limit : Z) (chronologicalOrder onlySyncEvents : bool)
    : result (list StreamEvent) :=
  rows ← (if onlySyncEvents
          then selectRecentEventsForSyncSQL roomID (Low r) (High r) limit
                 (output_room_events db)
          else selectRecentEventsSQL roomID (Low r) (High r) limit
                 (output_room_events db));
  let events := rowsToStreamEvents rows in
  Ok (if chronologicalOrder then SliceStable lessStreamPosition events
      else events).

(** func (s *outputRoomEventsStatements) SelectEarlyEvents *)
Definition SelectEarlyEvents (db : DB) (roomID : string) (r : Range)
    (limit : Z) : result (list StreamEvent) :=
  rows ← selectEarlyEventsSQL roomID (Low r) (High r) limit
           (output_room_events db);
  let events := rowsToStreamEvents rows in
  Ok (SliceStable lessStreamPosition events).

(** The two maps SelectStateInRange builds: stateNeeded (room ID to a set
    of state event IDs, a Go map[string]bool) and eventIDToEvent. *)
Abbreviation StateNeeded := (gmap string (gmap string bool)).
Abbreviation EventIDToEvent := (gmap string StreamEvent).

(** rows.Scan(&streamPos, &eventBytes, &excludeFromSync, &addIDsJSON,
    &delIDsJSON) followed by unmarshalStateIDs: both ID columns are scanned
    into Go strings, which a NULL does not fit. *)
Definition scanStateIDs (r : Row) : result (list string * list string) :=
  match add_state_ids r, remove_state_ids r with
  | Some addIDs, Some delIDs => Ok (addIDs, delIDs)
  | _, _ => Err ErrScanNull
  end.

(** for _, id := range ids { needSet[id] = b } *)
Definition markAll (b : bool) (ids : list string) (needSet : gmap string bool)
    : gmap string bool :=
  foldl (λ m i, <[i := b]> m) needSet ids.

(** The body of the loop over the rows: removed IDs are marked first, added
    IDs second. *)
Definition stateInRangeRow (acc : StateNeeded * EventIDToEvent) (r : Row)
    : result (StateNeeded * EventIDToEvent) :=
  '(addIDs, delIDs) ← scanStateIDs r;
  let ev := headered_event_json r in
  let needSet := default ∅ (acc.1 !! RoomID ev) in
  let needSet := markAll false delIDs needSet in
  let needSet := markAll true addIDs needSet in
  Ok (<[RoomID ev := needSet]> acc.1,
      <[EventID ev := {| SE_HeaderedEvent := ev; StreamPosition := id r;
                         SE_TransactionID := None;
                         ExcludeFromSync := exclude_from_sync r |}]> acc.2).

(** for rows.Next() { ... } *)
Fixpoint stateInRangeRows (rows : list Row)
    (acc : StateNeeded * EventIDToEvent)
    : result (StateNeeded * EventIDToEvent) :=
  match rows with
  | [] => Ok acc
  | r :: rows' => acc' ← stateInRangeRow acc r; stateInRangeRows rows' acc'
  end.

(** func (s *outputRoomEventsStatements) SelectStateInRange; [limit] is
    stateFilter.Limit. *)
Definition SelectStateInRange (db : DB) (r : Range) (limit : Z)
    : result (StateNeeded * EventIDToEvent) :=
  rows ← selectStateInRangeSQL (Low r) (High r) limit (output_room_events db);
  stateInRangeRows rows (∅, ∅).

(** What the result says about state event [x] in room [room]: [Some true]
    is needed, [Some false] is marked as not needed, [None] is not
    mentioned. *)
Definition neededFlag (need : StateNeeded) (room x : string) : option bool :=
  need !! room ≫= (.!! x).

(** The logs InsertEvent can build, starting from the empty one. *)
Inductive reachable : DB → Prop :=
| reachable_init : reachable init_db
| reachable_InsertEvent db event addState removeState transactionID
    excludeFromSync streamPos db' :
    reachable db →
    InsertEvent db event addState removeState transactionID excludeFromSync
      = Ok (streamPos, db') →
    reachable db'.

(** *** Notions used to state the properties *)

(** Oldest first, and newest first. *)
Definition ascending (evs : list StreamEvent) : Prop :=
  StronglySorted (λ a b, StreamPosition a ≤ StreamPosition b) evs.
Definition descending (evs : list StreamEvent) : Prop :=
  StronglySorted (λ a b, StreamPosition b ≤ StreamPosition a) evs.

(** The rows SelectRecentEvents scans, by the statement it picks. *)
Definition recentRows (db : DB) (roomID : string) (r : Range) (limit : Z)
    (onlySyncEvents : bool) : result (list Row) :=
  if onlySyncEvents
  then selectRecentEventsForSyncSQL roomID (Low r) (High r) limit
         (output_room_events db)
  else selectRecentEventsSQL roomID (Low r) (High r) limit
         (output_room_events db).

(** The row InsertEvent hands to the insert statement. *)
Definition newRow (streamPos : Z) (event : HeaderedEvent)
    (addState removeState : list string)
    (transactionID : option api_TransactionID) (excludeFromSync : bool) : Row :=
  {| id := streamPos; room_id := RoomID event;
     event_id := EventID event; headered_event_json := event;
     type := Type_ event; sender := Sender event;
     contains_url := false;
     add_state_ids := Some addState;
     remove_state_ids := Some removeState;
     session_id := SessionID <$> transactionID;
     transaction_id := TransactionID <$> transactionID;
     exclude_from_sync := excludeFromSync |}.

(** What the upsert does to a row that is already there. *)
Definition upsertRow (eventID : string) (excludeFromSync : bool) (r : Row)
    : Row :=
  if decide (event_id r = eventID)
  then set_exclude_from_sync excludeFromSync r else r.

(** The columns of a row agree with the event it stores, and its state ID
    columns are not NULL. *)
Definition row_ok (r : Row) : Prop :=
  room_id r = RoomID (headered_event_json r) ∧
  event_id r = EventID (headered_event_json r) ∧
  is_Some (add_state_ids r) ∧ is_Some (remove_state_ids r).

(** The invariant of the logs InsertEvent builds: the counter row exists and
    bounds every position in the log; positions grow strictly in insertion
    order; no event ID occurs twice. *)
Definition log_wf (db : DB) : Prop :=
  (∃ c, stream_ids db !! "global"%string = Some c ∧
        Forall (λ r, id r ≤ c) (output_room_events db)) ∧
  StronglySorted Z.lt (id <$> output_room_events db) ∧
  NoDup (event_id <$> output_room_events db) ∧
  Forall row_ok (output_room_events db).

(** The log entries of a room with position in (lo, hi], in insertion
    order, as stream events. *)
Definition roomEntries (db : DB) (roomID : string) (lo hi : Z)
    : list StreamEvent :=
  rowsToStreamEvents
    (filter (in_room_range roomID lo hi) (output_room_events db)).

(** Entry [r] lists state event [x] as added, respectively as removed. *)
Definition addsState (r : Row) (x : string) : Prop :=
  ∃ ids, add_state_ids r = Some ids ∧ x ∈ ids.
Definition removesState (r : Row) (x : string) : Prop :=
  ∃ ids, remove_state_ids r = Some ids ∧ x ∈ ids.

(** What one scanned entry says about [x]: added IDs are marked last, so
    they win over removed ones. *)
Definition rowFlag (x : string) (r : Row) : option bool :=
  match add_state_ids r, remove_state_ids r with
  | Some addIDs, Some delIDs =>
      if decide (x ∈ addIDs) then Some true
      else if decide (x ∈ delIDs) then Some false
      else None
  | _, _ => None
  end.

(** C2 as it is worded, for one log, range and limit: whenever the range
    holds an entry adding [x] and a later entry of the same room removing
    [x], the result does not mark [x] as needed in that room. *)
Definition net_removal_wins (db : DB) (r : Range) (limit : Z) : Prop :=
  ∀ (room x : string) (eAdd eRem : Row),
    eAdd ∈ output_room_events db → eRem ∈ output_room_events db →
    Low r < id eAdd → id eAdd < id eRem → id eRem ≤ High r →
    RoomID (headered_event_json eAdd) = room →
    RoomID (headered_event_json eRem) = room →
    addsState eAdd x → removesState eRem x →
    ∀ need evs, SelectStateInRange db r limit = Ok (need, evs) →
                neededFlag need room x ≠ Some true.

(** *** Concrete logs *)

(** A membership event of "@alice:hs". *)
Definition exampleEvent (eventID roomID : string) : HeaderedEvent :=
  {| EventID := eventID; RoomID := roomID; Type_ := "m.room.member";
     Sender := "@alice:hs"; Content := "{}" |}.

(** One InsertEvent call per element, in order, without transaction ID and
    visible to sync. *)
Fixpoint insertEvents
    (calls : list (HeaderedEvent * list string * list string)) (db : DB)
    : result DB :=
  match calls with
  | [] => Ok db
  | (event, addState, removeState) :: calls' =>
      r ← InsertEvent db event addState removeState None false;
      insertEvents calls' r.2
  end.

(** The log those calls build from the empty one. *)
Definition exampleLog
    (calls : list (HeaderedEvent * list string * list string)) : DB :=
  match insertEvents calls init_db with
  | Ok db => db
  | Err _ => init_db
  end.

(** Room "!r:hs": position 1 adds "$x", position 2 removes it. *)
Definition logAddRemove : DB :=
  exampleLog [(exampleEvent "$1" "!r:hs", ["$x"], []);
              (exampleEvent "$2" "!r:hs", [], ["$x"])]%string.

(** The same, and position 3 adds "$x" again. *)
Definition logAddRemoveAdd : DB :=
  exampleLog [(exampleEvent "$1" "!r:hs", ["$x"], []);
              (exampleEvent "$2" "!r:hs", [], ["$x"]);
              (exampleEvent "$3" "!r:hs", ["$x"], [])]%string.

(** Two rooms interleaved over positions 1 to 5. *)
Definition logTwoRooms : DB :=
  exampleLog [(exampleEvent "$1" "!r:hs", [], []);
              (exampleEvent "$2" "!s:hs", [], []);
              (exampleEvent "$3" "!r:hs", [], []);
              (exampleEvent "$4" "!r:hs", [], []);
              (exampleEvent "$5" "!s:hs", [], [])]%string.

(** The row InsertEvent stores for [exampleEvent] in room "!r:hs". *)
Definition exampleRow (pos : Z) (eventID : string)
    (addState removeState : list string) : Row :=
  newRow pos (exampleEvent eventID "!r:hs") addState removeState None false.

(** The log after [exampleEvent "$1" "!r:hs"] has been inserted [c] times:
    one entry, at position 1, and the counter at [c]. *)
Definition repeatedLog (c : Z) : DB :=
  {| stream_ids := {["global"%string := c]};
     output_room_events := [exampleRow 1 "$1" [] []] |}.

(** The forward range (lo, hi]. *)
Definition fromTo (lo hi : Z) : Range :=
  {| From := lo; To := hi; Backwards := false |}.

(** One entry that lists "$x" both as added and as removed. *)
Definition logBoth : DB :=
  exampleLog [(exampleEvent "$1" "!r:hs", ["$x"], ["$x"])]%string.

(** *** The remaining functions of the table *)

(** selectMaxEventIDSQL: SELECT MAX(id) FROM syncapi_output_room_events,
    NULL on an empty table. *)
Definition selectMaxEventIDSQL (tbl : list Row) : option Z :=
  match tbl with
  | [] => None
  | r :: tbl' => Some (foldr Z.max (id r) (id <$> tbl'))
  end.

(** func (s *outputRoomEventsStatements) SelectMaxEventID: the NULL of an
    empty table leaves the result at 0. *)
Definition SelectMaxEventID (db : DB) : result Z :=
  let nullableID := selectMaxEventIDSQL (output_room_events db) in
  Ok (match nullableID with
      | Some v => v
      | None => 0
      end).




(** The rows SelectRecentEvents looks for: those of the room with a
    position in (lo, hi], without the ones excluded from sync when only
    sync events are asked for. *)
Definition recentMatch (room : string) (lo hi : Z) (onlySyncEvents : bool)
    (r : Row) : Prop :=
  in_room_range room lo hi r ∧
  (onlySyncEvents = true → exclude_from_sync r = false).

(** The stream event rowsToStreamEvents builds from what InsertEvent
    stored. *)
Definition storedStreamEvent (streamPos : Z) (event : HeaderedEvent)
    (transactionID : option api_TransactionID) (excludeFromSync : bool)
    : StreamEvent :=
  {| SE_HeaderedEvent := event; StreamPosition := streamPos;
     SE_TransactionID := transactionID;
     ExcludeFromSync := excludeFromSync |}.

(** The stream event SelectStateInRange records for a scanned row: the
    transaction ID is not read. *)
Definition stateStreamEvent (r : Row) : StreamEvent :=
  {| SE_HeaderedEvent := headered_event_json r; StreamPosition := id r;
     SE_TransactionID := None; ExcludeFromSync := exclude_from_sync r |}.

(** The rows SelectStateInRange reads. *)
Definition stateRows (db : DB) (r : Range) (limit : Z) : result (list Row) :=
  selectStateInRangeSQL (Low r) (High r) limit (output_room_events db).

End OutputRoomEvents.

(** ** The rooms table (rooms_table.go) *)

Module Rooms.

(** What a statement is given for a parameter and what a column holds: an
    integer or a text.  A column keeps the value the statement was given
    for it, also when the schema declares the column with the other
    type. *)
Inductive driver_Value : Type :=
| Int64 (n : Z)
| Text (s : string).

#[global] Instance driver_Value_eq_dec : EqDecision driver_Value.
Proof. solve_decision. Defined.

(** A row of roomserver_rooms.  room_nid, room_id and room_version are
    only ever written by the insert, with values of their types; the three
    columns the update writes hold what the update was given. *)
Record Row : Type := {
  room_nid : Z;
  room_id : string;
  latest_event_nids : driver_Value;
  last_event_sent_nid : driver_Value;
  state_snapshot_nid : driver_Value;
  room_version : string
}.

(** The table: its rows in insertion order and the last value the
    AUTO_INCREMENT counter of room_nid handed out. *)
Record table : Type := {
  rooms : list Row;
  room_nid_seq : Z
}.

(** roomsSchema on an empty store. *)
Definition roomsSchema : table := {| rooms := []; room_nid_seq := 0 |}.

(** insertRoomNIDSQL:
    INSERT INTO roomserver_rooms (room_id, room_version) VALUES ($1, $2)
    ON CONFLICT DO NOTHING.
    The insert takes the next value of the room_nid counter before it
    looks for a conflict: with the counter exhausted the statement fails,
    and an insert that finds a conflict has used its value up.  A clash on
    room_id (or on the primary key) stores nothing; otherwise the row is
    appended, the other columns at their defaults. *)
Definition insertRoomNIDSQL (roomID roomVersion : string) (t : table)
    : result table :=
  let nid := room_nid_seq t + 1 in
  if decide (max_int64 < nid) then Err ErrOutOfRange
  else if decide (roomID ∈ room_id <$> rooms t)
  then Ok {| rooms := rooms t; room_nid_seq := nid |}
  else if decide (nid ∈ room_nid <$> rooms t)
  then Ok {| rooms := rooms t; room_nid_seq := nid |}
  else Ok {| rooms := rooms t ++
               [{| room_nid := nid; room_id := roomID;
                   latest_event_nids := Text "[]";
                   last_event_sent_nid := Int64 0;
                   state_snapshot_nid := Int64 0;
                   room_version := roomVersion |}];
             room_nid_seq := nid |}.

(** The first row with the given room_id, as QueryRowContext reads it. *)
Fixpoint queryRowByRoomID (roomID : string) (rows : list Row) : result Row :=
  match rows with
  | [] => Err ErrNoRows
  | r :: rows' =>
      if decide (room_id r = roomID) then Ok r
      else queryRowByRoomID roomID rows'
  end.

(** selectRoomNIDSQL:
    SELECT room_nid FROM roomserver_rooms WHERE room_id = $1 *)
Definition selectRoomNIDSQL (roomID : string) (t : table) : result Z :=
  r ← queryRowByRoomID roomID (rooms t); Ok (room_nid r).

(** selectRoomVersionForRoomIDSQL:
    SELECT room_version FROM roomserver_rooms WHERE room_id = $1 *)
Definition selectRoomVersionForRoomIDSQL (roomID : string) (t : table)
    : result string :=
  r ← queryRowByRoomID roomID (rooms t); Ok (room_version r).

(** updateLatestEventNIDsSQL:
    UPDATE roomserver_rooms SET latest_event_nids = $2,
    last_event_sent_nid = $3, state_snapshot_nid = $4 WHERE room_nid = $1.
    The arguments of a call go to the parameters of the statement in the
    order in which the parameters first appear in its text (as for LIMIT $8
    in selectStateInRangeSQL, which takes the third of three arguments).
    Here $2 appears first, then $3, $4 and $1: the first argument is
    written to latest_event_nids, the second to last_event_sent_nid, the
    third to state_snapshot_nid, and the fourth is compared with
    room_nid. *)
Definition updateLatestEventNIDsSQL (arg1 arg2 arg3 arg4 : driver_Value)
    (t : table) : table :=
  {| rooms :=
       (λ r, if decide (Int64 (room_nid r) = arg4)
             then {| room_nid := room_nid r; room_id := room_id r;
                     latest_event_nids := arg1;
                     last_event_sent_nid := arg2;
                     state_snapshot_nid := arg3;
                     room_version := room_version r |}
             else r) <$> rooms t;
     room_nid_seq := room_nid_seq t |}.

Section functions.

(** eventNIDsAsArray is defined in another file of the package: it encodes
    the event NIDs for the latest_event_nids column.  The table functions
    are taken over any such encoding. *)
Variable eventNIDsAsArray : list Z → string.

(** func (s *roomStatements) SelectRoomNID *)
Definition SelectRoomNID (t : table) (roomID : string) : result Z :=
  selectRoomNIDSQL roomID t.

(** func (s *roomStatements) InsertRoomNID *)
Definition InsertRoomNID (t : table) (roomID roomVersion : string)
    : result (Z * table) :=
  t' ← insertRoomNIDSQL roomID roomVersion t;
  nid ← SelectRoomNID t' roomID;
  Ok (nid, t').

(** func (s *roomStatements) SelectRoomVersionForRoomID *)
Definition SelectRoomVersionForRoomID (t : table) (roomID : string)
    : result string :=
  selectRoomVersionForRoomIDSQL roomID t.

(** func (s *roomStatements) UpdateLatestEventNIDs: ExecContext(ctx,
    roomNID, eventNIDsAsArray(eventNIDs), int64(lastEventSentNID),
    int64(stateSnapshotNID)). *)
Definition UpdateLatestEventNIDs (t : table) (roomNID : Z)
    (eventNIDs : list Z) (lastEventSentNID stateSnapshotNID : Z)
    : result table :=
  Ok (updateLatestEventNIDsSQL (Int64 roomNID)
        (Text (eventNIDsAsArray eventNIDs)) (Int64 lastEventSentNID)
        (Int64 stateSnapshotNID) t).

(** What other callers may do to the table between two statements of one
    call: the writing statements of the table, with any arguments. *)
Inductive statement : Type :=
| StmtInsertRoomNID (roomID roomVersion : string)
| StmtUpdateLatestEventNIDs (roomNID : Z) (eventNIDs : list Z)
    (lastEventSentNID stateSnapshotNID : Z).

Definition exec (s : statement) (t : table) : result table :=
  match s with
  | StmtInsertRoomNID roomID roomVersion =>
      insertRoomNIDSQL roomID roomVersion t
  | StmtUpdateLatestEventNIDs roomNID eventNIDs last snapshot =>
      UpdateLatestEventNIDs t roomNID eventNIDs last snapshot
  end.

Fixpoint execAll (ss : list statement) (t : table) : result table :=
  match ss with
  | [] => Ok t
  | s :: ss' => t' ← exec s t; execAll ss' t'
  end.

(** A call of InsertRoomNID with the statements of other callers running
    before its insert, between its insert and its select, and after.  With
    no such statements it is InsertRoomNID. *)
Definition InsertRoomNID_among (before between : list statement)
    (t : table) (roomID roomVersion : string) : result (Z * table) :=
  t0 ← execAll before t;
  t1 ← insertRoomNIDSQL roomID roomVersion t0;
  t2 ← execAll between t1;
  nid ← SelectRoomNID t2 roomID;
  Ok (nid, t2).

End functions.

(** Any encoding will do for a concrete run. *)
Definition exampleEncoding (eventNIDs : list Z) : string :=
  if decide (eventNIDs = []) then "[]" else "[...]".

(** Two rooms, as their inserts leave them, and a counter at 3: a third
    insert found the second room stored. *)
Definition exampleRooms : table :=
  {| rooms :=
       [{| room_nid := 1; room_id := "!other:hs";
           latest_event_nids := Text "[]"; last_event_sent_nid := Int64 0;
           state_snapshot_nid := Int64 0; room_version := "1" |};
        {| room_nid := 2; room_id := "!r:hs";
           latest_event_nids := Text "[]"; last_event_sent_nid := Int64 0;
           state_snapshot_nid := Int64 0; room_version := "1" |}];
     room_nid_seq := 3 |}.

(** *** The remaining functions of the table *)

(** The first row with the given room_nid, as QueryRowContext reads it. *)
Fixpoint queryRowByRoomNID (roomNID : Z) (rows : list Row) : result Row :=
  match rows with
  | [] => Err ErrNoRows
  | r :: rows' =>
      if decide (room_nid r = roomNID) then Ok r
      else queryRowByRoomNID roomNID rows'
  end.

(** selectLatestEventNIDsSQL:
    SELECT latest_event_nids, state_snapshot_nid
    FROM roomserver_rooms WHERE room_nid = $1 *)
Definition selectLatestEventNIDsSQL (roomNID : Z) (t : table)
    : result (driver_Value * driver_Value) :=
  r ← queryRowByRoomNID roomNID (rooms t);
  Ok (latest_event_nids r, state_snapshot_nid r).

(** selectLatestEventNIDsForUpdateSQL:
    SELECT latest_event_nids, last_event_sent_nid, state_snapshot_nid
    FROM roomserver_rooms WHERE room_nid = $1 FOR UPDATE *)
Definition selectLatestEventNIDsForUpdateSQL (roomNID : Z) (t : table)
    : result (driver_Value * driver_Value * driver_Value) :=
  r ← queryRowByRoomNID roomNID (rooms t);
  Ok (latest_event_nids r, last_event_sent_nid r, state_snapshot_nid r).

(** selectRoomVersionForRoomNIDSQL:
    SELECT room_version FROM roomserver_rooms WHERE room_nid = $1 *)
Definition selectRoomVersionForRoomNIDSQL (roomNID : Z) (t : table)
    : result string :=
  r ← queryRowByRoomNID roomNID (rooms t); Ok (room_version r).

Section reads.

(** json.Unmarshal of the latest_event_nids column into a slice of event
    NIDs, from Go's encoding/json: the functions are taken over any
    decoder. *)
Variable json_Unmarshal : string → result (list Z).

(** strconv.ParseInt(s, 10, 64), from Go's library, which Scan uses to
    read a text into an int64: the functions are taken over any parser. *)
Variable strconv_ParseInt : string → result Z.

(** rows.Scan into a Go string: a text as it is, an integer in decimal. *)
Definition scanString (v : driver_Value) : string :=
  match v with
  | Text s => s
  | Int64 n => pretty n
  end.

(** rows.Scan into a Go int64: an integer as it is, a text parsed. *)
Definition scanInt64 (v : driver_Value) : result Z :=
  match v with
  | Int64 n => Ok n
  | Text s => strconv_ParseInt s
  end.

(** func (s *roomStatements) SelectLatestEventNIDs *)
Definition SelectLatestEventNIDs (t : table) (roomNID : Z)
    : result (list Z * Z) :=
  '(c1, c2) ← selectLatestEventNIDsSQL roomNID t;
  let nidsJSON := scanString c1 in
  stateSnapshotNID ← scanInt64 c2;
  eventNIDs ← json_Unmarshal nidsJSON;
  Ok (eventNIDs, stateSnapshotNID).

(** func (s *roomStatements) SelectLatestEventsNIDsForUpdate *)
Definition SelectLatestEventsNIDsForUpdate (t : table) (roomNID : Z)
    : result (list Z * Z * Z) :=
  '(c1, c2, c3) ← selectLatestEventNIDsForUpdateSQL roomNID t;
  let nidsJSON := scanString c1 in
  lastEventSentNID ← scanInt64 c2;
  stateSnapshotNID ← scanInt64 c3;
  eventNIDs ← json_Unmarshal nidsJSON;
  Ok (eventNIDs, lastEventSentNID, stateSnapshotNID).

End reads.

(** What SelectRoomVersionForRoomNID returns: a version, the error
    errors.New("room not found"), or the error of the query. *)
Inductive roomVersionResult : Type :=
| RoomVersion (roomVersion : string)
| ErrRoomNotFound
| ErrQuery (e : error).

(** func (s *roomStatements) SelectRoomVersionForRoomNID *)
Definition SelectRoomVersionForRoomNID (t : table) (roomNID : Z)
    : roomVersionResult :=
  match selectRoomVersionForRoomNIDSQL roomNID t with
  | Ok roomVersion => RoomVersion roomVersion
  | Err ErrNoRows => ErrRoomNotFound
  | Err e => ErrQuery e
  end.

(** *** Notions used to state further properties *)

(** The constraints of the schema: room_nid is the primary key, room_id is
    unique; and no stored room_nid is ahead of the counter. *)
Definition rooms_wf (t : table) : Prop :=
  NoDup (room_nid <$> rooms t) ∧ NoDup (room_id <$> rooms t) ∧
  Forall (λ r, room_nid r ≤ room_nid_seq t) (rooms t).

(** A decoder for [exampleEncoding], as far as it can be decoded, and a
    parser that reads the decimal texts of 0 to 9. *)
Definition exampleDecoding (nidsJSON : string) : result (list Z) :=
  if decide (nidsJSON = "[]"%string) then Ok [] else Err ErrSyntax.
Definition exampleParseInt (s : string) : result Z :=
  match list_find (λ n, pretty n = s) (Z.of_nat <$> seq 0 10) with
  | Some (_, n) => Ok n
  | None => Err ErrSyntax
  end.

End Rooms.

(** ** The state snapshot table *)

Module StateSnapshots.

(** A row of roomserver_state_snapshots.  state_block_nids holds the
    encoded array of block NIDs; the embedding keeps the array. *)
Record Row : Type := {
  state_snapshot_nid : Z;
  room_nid : Z;
  state_block_nids : list Z
}.

(** The table: its rows in insertion order and the largest
    state_snapshot_nid AUTOINCREMENT has handed out so far. *)
Record table : Type := {
  rows : list Row;
  sequence : Z
}.

(** stateSnapshotSchema on an empty store. *)
Definition stateSnapshotSchema : table := {| rows := []; sequence := 0 |}.

(** types.StateBlockNIDList *)
Record StateBlockNIDList : Type := {
  StateSnapshotNID : Z;
  StateBlockNIDs : list Z
}.

(** What the functions of the table bind to a statement parameter: an
    int64, or a pq.Int64Array, which goes to the statement as one value,
    its text "{n1,n2,...}"; the embedding keeps the array. *)
Inductive driver_Value : Type :=
| Int64 (n : Z)
| Int64Array (ns : list Z).

#[global] Instance driver_Value_eq_dec : EqDecision driver_Value.
Proof. solve_decision. Defined.

(** The largest of [n] and the elements of [ns]. *)
Definition largest (ns : list Z) (n : Z) : Z := foldr Z.max n ns.

(** INTEGER PRIMARY KEY AUTOINCREMENT: the new key is one more than the
    largest key the table has ever held; when that was the largest 64-bit
    integer the insert fails. *)
Definition autoincrement (t : table) : result Z :=
  let last := largest (state_snapshot_nid <$> rows t) (sequence t) in
  if decide (max_int64 ≤ last) then Err ErrOutOfRange else Ok (last + 1).

(** insertStateSQL:
    INSERT INTO roomserver_state_snapshots (room_nid, state_block_nids)
    VALUES ($1, $2);
    SELECT state_snapshot_nid FROM roomserver_state_snapshots
    WHERE rowid = last_insert_rowid().
    The text is prepared as one statement, and a prepared statement is the
    first statement of its text: the INSERT.  What follows the semicolon is
    never executed.  So the statement stores the row and its result has no
    rows; the embedding returns that result (the state_snapshot_nid column
    of each row of it) and the table. *)
Definition insertStateSQL (roomNID : Z) (nids : list Z) (t : table)
    : result (list Z * table) :=
  nid ← autoincrement t;
  Ok ([],
      {| rows := rows t ++ [{| state_snapshot_nid := nid; room_nid := roomNID;
                               state_block_nids := nids |}];
         sequence := nid |}).

(** QueryRowContext(...).Scan(&dest): the first row of the result,
    sql.ErrNoRows when the result has no rows. *)
Definition QueryRow_Scan {A} (returned : list A) : result A :=
  match returned with
  | [] => Err ErrNoRows
  | a :: _ => Ok a
  end.

(** bulkSelectStateBlockNIDsSQL:
    SELECT state_snapshot_nid, state_block_nids
    FROM roomserver_state_snapshots
    WHERE state_snapshot_nid IN ($1) ORDER BY state_snapshot_nid ASC.
    The list after IN has one element, $1: a row is selected when its
    state_snapshot_nid equals the one value bound to $1.  A NID, an
    integer, equals no array. *)
Definition bulkSelectStateBlockNIDsSQL (arg1 : driver_Value) (t : table)
    : list Row :=
  SliceStable (λ a b, state_snapshot_nid a <? state_snapshot_nid b)
    (filter (λ r, Int64 (state_snapshot_nid r) = arg1) (rows t)).

(** func (s *stateSnapshotStatements) insertState.  The function runs
    outside any transaction: the row the statement has stored stays stored
    when Scan reports an error, so the table the call leaves is returned
    beside its result. *)
Definition insertState (t : table) (roomNID : Z) (stateBlockNIDs : list Z)
    : result Z * table :=
  let nids := stateBlockNIDs in
  match insertStateSQL roomNID nids t with
  | Ok (returned, t') => (QueryRow_Scan returned, t')
  | Err e => (Err e, t)
  end.

(** The loop of bulkSelectStateBlockNIDs: row number [i] is written to
    results[i], which panics past the end of the slice. *)
Fixpoint scanResults (scanned : list Row) (i : nat)
    (results : list StateBlockNIDList)
    : result (nat * list StateBlockNIDList) :=
  match scanned with
  | [] => Ok (i, results)
  | r :: scanned' =>
      if decide (i < length results)%nat then
        scanResults scanned' (S i)
          (<[i := {| StateSnapshotNID := state_snapshot_nid r;
                     StateBlockNIDs := state_block_nids r |}]> results)
      else Err PanicIndexOutOfRange
  end.

(** func (s *stateSnapshotStatements) bulkSelectStateBlockNIDs: the whole
    request is bound to $1 as one pq.Int64Array. *)
Definition bulkSelectStateBlockNIDs (t : table) (stateNIDs : list Z)
    : result (list StateBlockNIDList) :=
  let nids := stateNIDs in
  let scanned := bulkSelectStateBlockNIDsSQL (Int64Array nids) t in
  let results :=
    replicate (length stateNIDs)
      {| StateSnapshotNID := 0; StateBlockNIDs := [] |} in
  '(i, results) ← scanResults scanned 0 results;
  if decide (i ≠ length stateNIDs)
  then Err (ErrStateNIDsMissing i (length stateNIDs))
  else Ok results.

(** One insertState call per element, in order: what each call returned,
    and the table the last call left. *)
Fixpoint insertState_run (calls : list (Z * list Z)) (t : table)
    : list (result Z) * table :=
  match calls with
  | [] => ([], t)
  | (roomNID, stateBlockNIDs) :: calls' =>
      let r := insertState t roomNID stateBlockNIDs in
      let rs := insertState_run calls' r.2 in
      (r.1 :: rs.1, rs.2)
  end.

(** *** Notions used to state the properties *)

(** The largest state_snapshot_nid the table has held. *)
Definition last_nid (t : table) : Z :=
  largest (state_snapshot_nid <$> rows t) (sequence t).

(** The row call number [i] (from 0) of a run stores when the run starts
    with the largest NID at [last]. *)
Definition storedRow (last : Z) (i : nat) (call : Z * list Z) : Row :=
  {| state_snapshot_nid := last + 1 + Z.of_nat i; room_nid := call.1;
     state_block_nids := call.2 |}.

(** C7 as it is worded, for one table and one request: the call fails
    exactly when some requested NID has no stored snapshot. *)
Definition fails_iff_missing (t : table) (stateNIDs : list Z) : Prop :=
  is_Err (bulkSelectStateBlockNIDs t stateNIDs) ↔
  ∃ n, n ∈ stateNIDs ∧ n ∉ state_snapshot_nid <$> rows t.

(** The table three insertState calls leave on the empty table: snapshots
    1, 2 and 3. *)
Definition exampleSnapshots : table :=
  (insertState_run [(1, [4; 5]); (1, [4; 5; 6]); (2, [9])]
     stateSnapshotSchema).2.

End StateSnapshots.
(** ** The event endpoint of the client API (clientapi/routing/getevent.go) *)

Module GetEventHandler.

(** gomatrixserverlib.Event, as far as the handler reads it: the accessors
    EventID(), RoomID() and PrevEventIDs(), the state key behind
    StateKeyEquals (nil for an event that is no state event), and what
    Membership() returns, which is an error when the content does not hold
    a membership. *)
Record Event : Type := {
  EventID : string;
  RoomID : string;
  PrevEventIDs : list string;
  StateKey : option string;
  Membership : result string
}.

(** func (e Event) StateKeyEquals *)
Definition StateKeyEquals (e : Event) (stateKey : string) : bool :=
  match StateKey e with
  | Some k => bool_decide (k = stateKey)
  | None => false
  end.

(** authtypes.Device, as far as the handler reads it. *)
Record Device : Type := { UserID : string }.

(** api.QueryEventsByIDRequest and its response. *)
Record QueryEventsByIDRequest : Type := { EventIDs : list string }.
Record QueryEventsByIDResponse : Type := { Events : list Event }.

(** gomatrixserverlib.StateKeyTuple *)
Record StateKeyTuple : Type := {
  EventType : string;
  TupleStateKey : string
}.

(** api.QueryStateAfterEventsRequest and its response. *)
Record QueryStateAfterEventsRequest : Type := {
  Req_RoomID : string;
  Req_PrevEventIDs : list string;
  StateToFetch : list StateKeyTuple
}.
Record QueryStateAfterEventsResponse : Type := {
  RoomExists : bool;
  PrevEventsExist : bool;
  StateEvents : list Event
}.

(** api.RoomserverInternalAPI, the two queries the handler makes: each
    fills in a response or returns an error. *)
Record RoomserverInternalAPI : Type := {
  QueryEventsByID :
    QueryEventsByIDRequest → result QueryEventsByIDResponse;
  QueryStateAfterEvents :
    QueryStateAfterEventsRequest → result QueryStateAfterEventsResponse
}.

(** The bodies the handler answers with: the event in client format
    (gomatrixserverlib.ToClientEvent with FormatAll) or the error of
    jsonerror.NotFound with its message. *)
Inductive JSON : Type :=
| ToClientEvent (e : Event)
| NotFound (message : string).

(** util.JSONResponse with its status code and body; the response
    jsonerror.InternalServerError() builds is kept as it is called. *)
Inductive JSONResponse : Type :=
| Response (code : Z) (json : JSON)
| InternalServerError.

(** http.StatusOK and http.StatusNotFound *)
Definition StatusOK : Z := 200.
Definition StatusNotFound : Z := 404.

(** gomatrixserverlib.MRoomMember and gomatrixserverlib.Join *)
Definition MRoomMember : string := "m.room.member".
Definition Join : string := "join".

(** The answer for an event that is unknown or may not be read. *)
Definition notFoundResponse : JSONResponse :=
  Response StatusNotFound
    (NotFound
       "The event was not found or you do not have permission to read this event").

(** for _, stateEvent := range stateResp.StateEvents { ... }, and the
    answer after the loop. *)
Fixpoint membershipLoop (userID : string) (requestedEvent : Event)
    (stateEvents : list Event) : JSONResponse :=
  match stateEvents with
  | [] => notFoundResponse
  | stateEvent :: rest =>
      if StateKeyEquals stateEvent userID then
        match Membership stateEvent with
        | Err _ => InternalServerError
        | Ok membership =>
            if decide (membership = Join)
            then Response StatusOK (ToClientEvent requestedEvent)
            else membershipLoop userID requestedEvent rest
        end
      else membershipLoop userID requestedEvent rest
  end.

(** func GetEvent.  The request, the configuration, the federation client
    and the key ring take no part in the answer (the request only lends its
    context to the queries and the log), and are left out. *)
Definition GetEvent (device : Device) (roomID eventID : string)
    (rsAPI : RoomserverInternalAPI) : JSONResponse :=
  let eventsReq := {| EventIDs := [eventID] |} in
  match QueryEventsByID rsAPI eventsReq with
  | Err _ => InternalServerError
  | Ok eventsResp =>
      match Events eventsResp with
      | [] => notFoundResponse
      | requestedEvent :: _ =>
          let stateReq :=
            {| Req_RoomID := RoomID requestedEvent;
               Req_PrevEventIDs := PrevEventIDs requestedEvent;
               StateToFetch :=
                 [{| EventType := MRoomMember;
                     TupleStateKey := UserID device |}] |} in
          match QueryStateAfterEvents rsAPI stateReq with
          | Err _ => InternalServerError
          | Ok stateResp =>
              if negb (RoomExists stateResp) then InternalServerError
              else if negb (PrevEventsExist stateResp) then notFoundResponse
              else membershipLoop (UserID device) requestedEvent
                     (StateEvents stateResp)
          end
      end
  end.

(** *** Notions used to state the properties *)

(** The state query the handler makes for an event on behalf of a user. *)
Definition stateRequestFor (device : Device) (e : Event)
    : QueryStateAfterEventsRequest :=
  {| Req_RoomID := RoomID e; Req_PrevEventIDs := PrevEventIDs e;
     StateToFetch :=
       [{| EventType := MRoomMember; TupleStateKey := UserID device |}] |}.

(** A state event of the user whose membership can be read and is not
    "join", or a state event of somebody or something else: the loop passes
    over it. *)
Definition passedOver (userID : string) (stateEvent : Event) : Prop :=
  StateKeyEquals stateEvent userID = true →
  ∃ membership, Membership stateEvent = Ok membership ∧ membership ≠ Join.

(** The first state event of the user that the loop does not pass over
    is a join. *)
Definition joinedIn (userID : string) (stateEvents : list Event) : Prop :=
  ∃ before stateEvent after,
    stateEvents = before ++ stateEvent :: after ∧
    Forall (passedOver userID) before ∧
    StateKeyEquals stateEvent userID = true ∧
    Membership stateEvent = Ok Join.

(** The first state event of the user that the loop does not pass over
    has a membership that cannot be read. *)
Definition unreadableIn (userID : string) (stateEvents : list Event) : Prop :=
  ∃ before stateEvent after e,
    stateEvents = before ++ stateEvent :: after ∧
    Forall (passedOver userID) before ∧
    StateKeyEquals stateEvent userID = true ∧
    Membership stateEvent = Err e.

(** A room server that knows one event and answers the state query with
    the given state events. *)
Definition exampleAPI (known : Event) (stateEvents : list Event)
    : RoomserverInternalAPI :=
  {| QueryEventsByID := λ req,
       Ok {| Events := if decide (EventIDs req = [EventID known])
                       then [known] else [] |};
     QueryStateAfterEvents := λ _,
       Ok {| RoomExists := true; PrevEventsExist := true;
             StateEvents := stateEvents |} |}.

(** A message, and membership events of given users. *)
Definition exampleMessage : Event :=
  {| EventID := "$m"; RoomID := "!r:hs"; PrevEventIDs := ["$p"%string];
     StateKey := None; Membership := Err ErrNoRows |}.
Definition memberEvent (userID membership : string) : Event :=
  {| EventID := "$s"; RoomID := "!r:hs"; PrevEventIDs := [];
     StateKey := Some userID; Membership := Ok membership |}.

End GetEventHandler.


(** * Properties *)

(** ** Results and sorting *)

Lemma bind_Ok {A B} (f : A → result B) (r : result A) (b : B) :
  r ≫= f = Ok b ↔ ∃ a, r = Ok a ∧ f a = Ok b.
Proof.
  destruct r as [a|e]; simpl; split.
  - eauto.
  - intros (a' & [= <-] & ?); done.
  - discriminate.
  - intros (a' & ? & _); discriminate.
Qed.

Section stable_sort.
Context {A : Type} (less : A → A → bool).

Lemma stable_insert_Permutation x l : stable_insert less x l ≡ₚ x :: l.
Proof.
  induction l as [|y l IH]; simpl; [done|].
  destruct (less y x); [|done].
  rewrite IH. apply Permutation_swap.
Qed.

Lemma SliceStable_Permutation l : SliceStable less l ≡ₚ l.
Proof.
  induction l as [|x l IH]; simpl; [done|].
  by rewrite stable_insert_Permutation, IH.
Qed.

Lemma SliceStable_length l : length (SliceStable less l) = length l.
Proof. by rewrite SliceStable_Permutation. Qed.

(** [less] is a strict weak order as far as sorting needs it. *)
Hypothesis less_asym : ∀ a b, less a b = true → less b a = false.
Hypothesis not_less_trans :
  ∀ a b c, less b a = false → less c b = false → less c a = false.

Lemma stable_insert_sorted x l :
  StronglySorted (λ a b, less b a = false) l →
  StronglySorted (λ a b, less b a = false) (stable_insert less x l).
Proof.
  induction 1 as [|y l Hl IH Hy]; simpl.
  - repeat constructor.
  - destruct (less y x) eqn:Hyx.
    + constructor; [done|].
      rewrite stable_insert_Permutation. constructor; [|done].
      by apply less_asym.
    + constructor; [by constructor|].
      constructor; [done|].
      eapply Forall_impl; [exact Hy|]. simpl. intros z Hz.
      by apply not_less_trans with y.
Qed.

Lemma SliceStable_sorted l :
  StronglySorted (λ a b, less b a = false) (SliceStable less l).
Proof.
  induction l as [|x l IH]; simpl; [constructor|].
  by apply stable_insert_sorted.
Qed.

End stable_sort.

(** Sorting on an integer key, ascending and descending. *)
Section sort_by_key.
Context {A : Type} (key : A → Z).

Lemma StronglySorted_impl (R R' : A → A → Prop) (l : list A) :
  (∀ a b, R a b → R' a b) → StronglySorted R l → StronglySorted R' l.
Proof.
  intros HR. induction 1 as [|x l _ IH Hx]; constructor; [done|].
  eapply Forall_impl; [exact Hx|]. simpl. auto.
Qed.

Lemma SliceStable_asc_sorted l :
  StronglySorted (λ a b, key a ≤ key b)
    (SliceStable (λ a b, key a <? key b) l).
Proof.
  eapply StronglySorted_impl; [|apply SliceStable_sorted].
  - simpl. intros a b. lia.
  - intros a b. lia.
  - intros a b c. lia.
Qed.

Lemma SliceStable_desc_sorted l :
  StronglySorted (λ a b, key b ≤ key a)
    (SliceStable (λ a b, key b <? key a) l).
Proof.
  eapply StronglySorted_impl; [|apply SliceStable_sorted].
  - simpl. intros a b. lia.
  - intros a b. lia.
  - intros a b c. lia.
Qed.

Lemma strictly_sorted_key_inj l :
  StronglySorted (λ a b, key a < key b) l →
  ∀ x y, x ∈ l → y ∈ l → key x = key y → x = y.
Proof.
  induction 1 as [|z l _ IH Hz]; intros x y Hx Hy Hxy.
  - by apply elem_of_nil in Hx.
  - rewrite Forall_forall in Hz.
    apply elem_of_cons in Hx as [->|Hx]; apply elem_of_cons in Hy as [->|Hy].
    + done.
    + specialize (Hz _ Hy). lia.
    + specialize (Hz _ Hx). lia.
    + by apply IH.
Qed.

(** Sorting a list whose keys are pairwise distinct has one possible
    outcome: the strictly sorted arrangement. *)
Lemma SliceStable_asc_unique l l' :
  l ≡ₚ l' → StronglySorted (λ a b, key a < key b) l' →
  SliceStable (λ a b, key a <? key b) l = l'.
Proof.
  intros Hperm Hsorted.
  apply (StronglySorted_unique_strong (λ a b, key a ≤ key b)).
  - intros x1 x2 H1 H2 Hle1 Hle2.
    rewrite SliceStable_Permutation, Hperm in H1.
    apply (strictly_sorted_key_inj l'); [done..|lia].
  - apply SliceStable_asc_sorted.
  - eapply StronglySorted_impl; [|exact Hsorted]. simpl. intros a b. lia.
  - by rewrite SliceStable_Permutation.
Qed.

Lemma StronglySorted_key l :
  StronglySorted Z.lt (key <$> l) ↔ StronglySorted (λ a b, key a < key b) l.
Proof.
  induction l as [|x l IH]; simpl; split; intros H; try constructor;
    inversion H as [|? ? Hl Hx]; subst.
  - by apply IH.
  - by rewrite Forall_fmap in Hx.
  - by apply IH.
  - by rewrite Forall_fmap.
Qed.

End sort_by_key.

Lemma StronglySorted_lt_NoDup (l : list Z) : StronglySorted Z.lt l → NoDup l.
Proof.
  induction 1 as [|x l _ IH Hx]; constructor; [|done].
  intros Hin. rewrite Forall_forall in Hx. specialize (Hx _ Hin). lia.
Qed.

(** ** The stream position counter *)

Module StreamIDFacts.
Import StreamID.

Lemma nextStreamID_Ok t pos t' :
  nextStreamID t = Ok (pos, t') →
  ∃ c, t !! "global"%string = Some c ∧ c + 1 ≤ max_int64 ∧
       t' = <["global"%string := c + 1]> t ∧ pos = c + 1.
Proof.
  unfold nextStreamID, increaseStreamIDStmt, selectStreamIDStmt.
  destruct (t !! "global"%string) as [c|] eqn:Hc; simpl.
  - destruct (decide (c + 1 ≤ max_int64)) as [Hle|]; simpl; [|discriminate].
    rewrite lookup_insert_eq. simpl. intros [= <- <-]. by exists c.
  - rewrite Hc. discriminate.
Qed.

Lemma nextStreamID_total t c :
  t !! "global"%string = Some c → c + 1 ≤ max_int64 →
  nextStreamID t = Ok (c + 1, <["global"%string := c + 1]> t).
Proof.
  intros Hc Hle. unfold nextStreamID, increaseStreamIDStmt, selectStreamIDStmt.
  rewrite Hc. simpl. rewrite decide_True by done. simpl.
  by rewrite lookup_insert_eq.
Qed.

(** Positions handed out by a run, given the counter it started from. *)
Lemma nextStreamID_run_positions n : ∀ t tr c,
  nextStreamID_run n t = Ok tr →
  t !! "global"%string = Some c →
  length tr = n ∧ Forall (λ p, c < p) (tr.*1) ∧ StronglySorted Z.lt (tr.*1).
Proof.
  induction n as [|n IH]; intros t tr c Hrun Hc; simpl in Hrun.
  - injection Hrun as <-. repeat split; constructor.
  - apply bind_Ok in Hrun as ([pos t1] & Hnext & Hrun).
    apply bind_Ok in Hrun as (tr' & Hrun & [= <-]).
    apply nextStreamID_Ok in Hnext as (c' & Hc' & _ & -> & ->).
    assert (c' = c) as -> by congruence.
    destruct (IH _ _ (c + 1) Hrun) as (Hlen & Hgt & Hsorted).
    { simpl. by rewrite lookup_insert_eq. }
    simpl. repeat split.
    + by rewrite Hlen.
    + constructor; [lia|]. eapply Forall_impl; [exact Hgt|]. simpl; lia.
    + constructor; [done|]. eapply Forall_impl; [exact Hgt|]. simpl; lia.
Qed.

Lemma nextStreamID_run_steps n : ∀ t tr (i : nat) tb p ta,
  nextStreamID_run n t = Ok tr →
  (t :: tr.*2) !! i = Some tb → tr !! i = Some (p, ta) →
  ∃ c, tb !! "global"%string = Some c ∧
       ta = <["global"%string := c + 1]> tb ∧ p = c + 1.
Proof.
  induction n as [|n IH]; intros t tr i tb p ta Hrun Hb Ha; simpl in Hrun.
  - injection Hrun as <-. done.
  - apply bind_Ok in Hrun as ([pos t1] & Hnext & Hrun).
    apply bind_Ok in Hrun as (tr' & Hrun & [= <-]).
    destruct i as [|i]; simpl in *.
    + injection Hb as <-. injection Ha as <- <-.
      apply nextStreamID_Ok in Hnext as (c & ? & _ & ? & ?). by exists c.
    + eapply IH; eauto.
Qed.

(** A run succeeds as long as the counter row exists and stays in range. *)
Lemma nextStreamID_run_total n : ∀ t c,
  t !! "global"%string = Some c → c + Z.of_nat n ≤ max_int64 →
  is_Ok (nextStreamID_run n t).
Proof.
  induction n as [|n IH]; intros t c Hc Hle; simpl.
  - by eexists.
  - rewrite (nextStreamID_total t c) by (done || lia). simpl.
    destruct (IH (<["global"%string := c + 1]> t) (c + 1)) as [tr ->].
    + by rewrite lookup_insert_eq.
    + lia.
    + by eexists.
Qed.

(** C3. In every sequence of successful calls to [nextStreamID], taken one
    after the other on the counter row, the returned stream positions are
    strictly increasing and no position is returned twice; each call finds
    a counter value [c], leaves the counter at [c + 1] (every other row
    unchanged) and returns [c + 1]. *)
Theorem nextStreamID_strictly_increasing (n : nat) (t : table)
    (tr : list (Z * table)) :
  nextStreamID_run n t = Ok tr →
  length tr = n ∧
  StronglySorted Z.lt (tr.*1) ∧
  NoDup (tr.*1) ∧
  ∀ (i : nat) (tb : table) (p : Z) (ta : table),
    (t :: tr.*2) !! i = Some tb → tr !! i = Some (p, ta) →
    ∃ c, tb !! "global"%string = Some c ∧
         ta = <["global"%string := c + 1]> tb ∧ p = c + 1.
Proof.
  intros Hrun.
  assert (length tr = n ∧ StronglySorted Z.lt (tr.*1)) as [Hlen Hsorted].
  { destruct n as [|n].
    - injection Hrun as <-. split; [done | constructor].
    - pose proof Hrun as Hrun'. simpl in Hrun'.
      apply bind_Ok in Hrun' as ([pos t1] & Hnext & _).
      apply nextStreamID_Ok in Hnext as (c & Hc & _).
      destruct (nextStreamID_run_positions _ _ _ _ Hrun Hc) as (? & _ & ?).
      done. }
  repeat split; [done | done | by apply StronglySorted_lt_NoDup |].
  intros i tb p ta. by apply nextStreamID_run_steps with (n := n).
Qed.

(** Three calls on the freshly created table return 1, 2, 3. *)
Lemma nextStreamID_strictly_increasing_witness :
  ∃ tr, nextStreamID_run 3 (streamIDTableSchema ∅) = Ok tr ∧
        tr.*1 = [1; 2; 3] ∧ StronglySorted Z.lt (tr.*1) ∧ NoDup (tr.*1).
Proof.
  eexists. split; [vm_compute; reflexivity|]. split; [reflexivity|].
  split;
    eapply (nextStreamID_strictly_increasing 3 (streamIDTableSchema ∅));
    vm_compute; reflexivity.
Defined.

(** X1. nextStreamID fails in two cases only: with no "global" row the
    update changes nothing and the select finds no row (sql.ErrNoRows); with
    the counter at the largest BIGINT (or beyond) the update is out of
    range.  When it
    succeeds, the rows of all other streams are as before. *)
Theorem nextStreamID_failure (t : table) :
  (∀ e, nextStreamID t = Err e ↔
        (t !! "global"%string = None ∧ e = ErrNoRows) ∨
        (∃ c, t !! "global"%string = Some c ∧ max_int64 ≤ c ∧
              e = ErrOutOfRange)) ∧
  (∀ pos t' name, nextStreamID t = Ok (pos, t') → name ≠ "global"%string →
                  t' !! name = t !! name).
Proof.
  split.
  - intros e.
    unfold nextStreamID, increaseStreamIDStmt, selectStreamIDStmt.
    destruct (t !! "global"%string) as [c|] eqn:Hc; simpl.
    + destruct (decide (c + 1 ≤ max_int64)) as [Hle|Hgt]; simpl.
      * rewrite lookup_insert_eq. simpl. split; [discriminate|].
        intros [[? _]|(c' & [= <-] & ? & _)]; [discriminate | lia].
      * split.
        -- intros [= <-]. right. exists c. split; [done|]. split; [lia|done].
        -- intros [[? _]|(c' & _ & _ & ->)]; [discriminate | done].
    + rewrite Hc. split.
      * intros [= <-]. by left.
      * intros [[_ ->]|(c' & ? & _)]; [done | discriminate].
  - intros pos t' name (c & _ & _ & -> & _)%nextStreamID_Ok Hname.
    by rewrite lookup_insert_ne.
Qed.

Lemma nextStreamID_failure_witness :
  nextStreamID ∅ = Err ErrNoRows ∧
  nextStreamID {["global"%string := max_int64]} = Err ErrOutOfRange ∧
  ∃ t', nextStreamID {["global"%string := 4; "other"%string := 9]}
          = Ok (5, t') ∧
        t' !! "other"%string = Some 9.
Proof.
  split; [by apply (nextStreamID_failure ∅); left|].
  split.
  { apply (nextStreamID_failure {["global"%string := max_int64]}).
    right. exists max_int64. split; [vm_compute; reflexivity|].
    split; [lia | done]. }
  eexists. split; [vm_compute; reflexivity|].
  pose proof (nextStreamID_failure
                {["global"%string := 4; "other"%string := 9]}) as [_ Hframe].
  erewrite (Hframe 5 _ "other"%string); [vm_compute; reflexivity| |done].
  vm_compute. reflexivity.
Defined.

(** X2. prepare can be run on a store that already holds a counter: it
    always succeeds and leaves a "global" row; a row that is there keeps its
    value, so nextStreamID continues where it was and no position is handed
    out again; on a store without the row the first position is 1. *)
Theorem prepare_keeps_counter (t : table) :
  ∃ t0, prepare t = Ok t0 ∧
        (∀ c, t !! "global"%string = Some c →
              t0 = t ∧ nextStreamID t0 = nextStreamID t) ∧
        (t !! "global"%string = None →
         ∃ t1, nextStreamID t0 = Ok (1, t1)) ∧
        (∀ name, name ≠ "global"%string → t0 !! name = t !! name).
Proof.
  exists (streamIDTableSchema t). split; [done|].
  unfold streamIDTableSchema.
  destruct (t !! "global"%string) as [c|] eqn:Hc.
  - split; [|split]; [by intros c' _ | done | done].
  - split; [done|]. split.
    + intros _. eexists.
      apply (nextStreamID_total _ 0); [by rewrite lookup_insert_eq|].
      unfold max_int64. lia.
    + intros name Hname. by rewrite lookup_insert_ne.
Qed.

Lemma prepare_keeps_counter_witness :
  prepare {["global"%string := 41]} = Ok {["global"%string := 41]} ∧
  ∃ t1, (t0 ← prepare ∅; nextStreamID t0) = Ok (1, t1).
Proof.
  destruct (prepare_keeps_counter {["global"%string := 41]})
    as (t0 & Hprep & Hkeep & _).
  destruct (Hkeep 41) as [-> _]; [vm_compute; reflexivity|].
  split; [exact Hprep|].
  destruct (prepare_keeps_counter ∅) as (t0 & Hprep0 & _ & Hfresh & _).
  destruct Hfresh as [t1 Hnext]; [vm_compute; reflexivity|].
  exists t1. rewrite Hprep0. exact Hnext.
Defined.

End StreamIDFacts.

(** ** The output log *)

Module OutputRoomEventsFacts.
Import OutputRoomEvents.

(** *** Facts about the statements *)

Lemma sql_limit_Ok {A} (limit : Z) (rows out : list A) :
  sql_limit limit rows = Ok out ↔
  out = if decide (limit < 0) then rows else take (Z.to_nat limit) rows.
Proof. unfold sql_limit. split; [by intros [= <-] | by intros ->]. Qed.

(** Whatever the limit, the rows returned are a prefix of the rows found;
    with a limit that is not negative, the prefix of that length. *)
Lemma sql_limit_take {A} (limit : Z) (rows out : list A) :
  sql_limit limit rows = Ok out →
  ∃ n : nat, out = take n rows ∧
             (0 ≤ limit → n = Z.to_nat limit) ∧
             (limit < 0 → out = rows).
Proof.
  intros ->%sql_limit_Ok. destruct (decide (limit < 0)).
  - exists (length rows). rewrite firstn_all. split; [done|]. split; [lia | done].
  - exists (Z.to_nat limit). split; [done|]. split; [done | lia].
Qed.

Lemma sql_limit_total {A} (limit : Z) (rows : list A) :
  is_Ok (sql_limit limit rows).
Proof. by eexists. Qed.

Lemma sql_limit_all {A} (limit : Z) (rows : list A) :
  Z.of_nat (length rows) ≤ limit → sql_limit limit rows = Ok rows.
Proof.
  intros Hle. apply sql_limit_Ok. rewrite decide_False by lia.
  rewrite take_ge; [done | lia].
Qed.

Lemma StronglySorted_take {A} (R : A → A → Prop) (n : nat) (l : list A) :
  StronglySorted R l → StronglySorted R (take n l).
Proof.
  intros Hl. rewrite <- (take_drop n l) in Hl.
  by apply StronglySorted_app_1_l in Hl.
Qed.

Lemma StronglySorted_filter {A} (R : A → A → Prop) (P : A → Prop)
    `{!∀ x, Decision (P x)} (l : list A) :
  StronglySorted R l → StronglySorted R (filter P l).
Proof.
  induction 1 as [|x l _ IH Hx]; [constructor|].
  rewrite filter_cons. destruct (decide (P x)); [|done].
  constructor; [done|].
  apply Forall_forall. intros y [_ Hy]%list_elem_of_filter.
  rewrite Forall_forall in Hx. by apply Hx.
Qed.

Lemma events_strictly_sorted (rows : list Row) :
  StronglySorted (λ a b, id a < id b) rows →
  StronglySorted (λ a b, StreamPosition a < StreamPosition b)
    (rowsToStreamEvents rows).
Proof.
  intros H. unfold rowsToStreamEvents.
  by apply (StronglySorted_fmap _ (λ a b, id a < id b)
              (λ a b, StreamPosition a < StreamPosition b)).
Qed.

Lemma SliceStable_ascending (evs : list StreamEvent) :
  ascending (SliceStable lessStreamPosition evs).
Proof. apply (SliceStable_asc_sorted StreamPosition). Qed.

Lemma scanned_desc_descending (n : nat) (rows : list Row) :
  descending (rowsToStreamEvents (take n (order_by_id_desc rows))).
Proof.
  unfold descending, rowsToStreamEvents.
  apply (StronglySorted_fmap _ (λ a b, id b ≤ id a)); [done|].
  apply StronglySorted_take, (SliceStable_desc_sorted id).
Qed.

Lemma SelectRecentEvents_Ok db roomID r limit chrono onlySync evs :
  SelectRecentEvents db roomID r limit chrono onlySync = Ok evs ↔
  ∃ rows, recentRows db roomID r limit onlySync = Ok rows ∧
          evs = if chrono
                then SliceStable lessStreamPosition (rowsToStreamEvents rows)
                else rowsToStreamEvents rows.
Proof.
  unfold SelectRecentEvents, recentRows. rewrite bind_Ok.
  split; intros (rows & Hrows & Hevs); exists rows; split; try done.
  - by injection Hevs as <-.
  - by rewrite Hevs.
Qed.

Lemma recentRows_Ok db roomID r limit onlySync rows :
  recentRows db roomID r limit onlySync = Ok rows →
  ∃ (n : nat) l, rows = take n (order_by_id_desc l).
Proof.
  unfold recentRows, selectRecentEventsForSyncSQL, selectRecentEventsSQL.
  destruct onlySync; intros (n & -> & _)%sql_limit_take; eauto.
Qed.

Lemma recentRows_total db roomID r limit onlySync :
  is_Ok (recentRows db roomID r limit onlySync).
Proof.
  unfold recentRows, selectRecentEventsForSyncSQL, selectRecentEventsSQL.
  destruct onlySync; apply sql_limit_total.
Qed.

Lemma SelectEarlyEvents_Ok db roomID r limit evs :
  SelectEarlyEvents db roomID r limit = Ok evs ↔
  ∃ rows, selectEarlyEventsSQL roomID (Low r) (High r) limit
            (output_room_events db) = Ok rows ∧
          evs = SliceStable lessStreamPosition (rowsToStreamEvents rows).
Proof.
  unfold SelectEarlyEvents. rewrite bind_Ok.
  split; intros (rows & Hrows & Hevs); exists rows; split; try done.
  - by injection Hevs as <-.
  - by rewrite Hevs.
Qed.

(** C5. For every room, range and limit: whenever they return events,
    SelectRecentEvents with chronologicalOrder = true and SelectEarlyEvents
    return them in ascending stream-position order (oldest first), and
    SelectRecentEvents with chronologicalOrder = false returns the events as
    scanned, newest first; the chronological result is the stable sort of
    the scanned one.  With a limit that is not negative all three calls
    return events. *)
Theorem select_events_order (db : DB) (roomID : string) (r : Range)
    (limit : Z) (onlySyncEvents : bool) :
  (∀ evs, SelectRecentEvents db roomID r limit true onlySyncEvents = Ok evs →
          ascending evs) ∧
  (∀ evs, SelectEarlyEvents db roomID r limit = Ok evs → ascending evs) ∧
  (∀ evs, SelectRecentEvents db roomID r limit false onlySyncEvents = Ok evs →
          descending evs ∧
          (∃ rows, recentRows db roomID r limit onlySyncEvents = Ok rows ∧
                   evs = rowsToStreamEvents rows) ∧
          SelectRecentEvents db roomID r limit true onlySyncEvents
            = Ok (SliceStable lessStreamPosition evs)) ∧
  (0 ≤ limit →
   is_Ok (SelectRecentEvents db roomID r limit true onlySyncEvents) ∧
   is_Ok (SelectRecentEvents db roomID r limit false onlySyncEvents) ∧
   is_Ok (SelectEarlyEvents db roomID r limit)).
Proof.
  split; [|split; [|split]].
  - intros evs (rows & _ & ->)%SelectRecentEvents_Ok.
    apply SliceStable_ascending.
  - intros evs (rows & _ & ->)%SelectEarlyEvents_Ok.
    apply SliceStable_ascending.
  - intros evs (rows & Hrows & ->)%SelectRecentEvents_Ok.
    split; [|split].
    + apply recentRows_Ok in Hrows as (n & l & ->).
      apply scanned_desc_descending.
    + eauto.
    + apply SelectRecentEvents_Ok. eauto.
  - intros Hlimit.
    destruct (recentRows_total db roomID r limit onlySyncEvents)
      as [rows Hrows].
    split; [|split].
    + eexists. apply SelectRecentEvents_Ok. eauto.
    + eexists. apply SelectRecentEvents_Ok. eauto.
    + eexists. apply SelectEarlyEvents_Ok. eexists. split; [|done].
      reflexivity.
Qed.

(** The two ways InsertEvent succeeds: the event ID is already in the log
    and only flags change, or it is not and one row is appended.  Either way
    the position returned is the counter's new value. *)
Lemma InsertEvent_Ok db event addState removeState transactionID
    excludeFromSync streamPos db' :
  InsertEvent db event addState removeState transactionID excludeFromSync
    = Ok (streamPos, db') ↔
  ∃ c, stream_ids db !! "global"%string = Some c ∧ c + 1 ≤ max_int64 ∧
       streamPos = c + 1 ∧
       stream_ids db' = <["global"%string := c + 1]> (stream_ids db) ∧
       ((EventID event ∈ (event_id <$> output_room_events db) ∧
         output_room_events db' =
           (upsertRow (EventID event) excludeFromSync
              <$> output_room_events db)) ∨
        ((EventID event ∉ event_id <$> output_room_events db) ∧
         (c + 1 ∉ id <$> output_room_events db) ∧
         output_room_events db' =
           (output_room_events db ++
              [newRow (c + 1) event addState removeState transactionID
                 excludeFromSync]))).
Proof.
  unfold InsertEvent. rewrite bind_Ok. split.
  - intros ([pos ids] & Hnext & Hins).
    apply StreamIDFacts.nextStreamID_Ok in Hnext as (c & Hc & Hle & -> & ->).
    apply bind_Ok in Hins as (tbl & Hins & [= <- <-]).
    exists c. do 4 (split; [done|]). simpl.
    unfold insertEventSQL in Hins. simpl in Hins.
    destruct (decide (EventID event ∈ _)) as [Hin|Hin]; [left|right].
    + by injection Hins as <-.
    + destruct (decide (c + 1 ∈ _)); [discriminate|]. by injection Hins as <-.
  - intros (c & Hc & Hle & -> & Hids & Hrows).
    exists (c + 1, <["global"%string := c + 1]> (stream_ids db)).
    split; [by apply StreamIDFacts.nextStreamID_total|].
    apply bind_Ok. exists (output_room_events db'). split.
    + unfold insertEventSQL. simpl.
      destruct Hrows as [[Hin ->]|(Hin & Hid & ->)].
      * by rewrite decide_True.
      * rewrite decide_False by done. by rewrite decide_False.
    + rewrite <- Hids. by destruct db'.
Qed.

Lemma upsertRow_id e b r : id (upsertRow e b r) = id r.
Proof. unfold upsertRow. by destruct (decide _). Qed.
Lemma upsertRow_event_id e b r : event_id (upsertRow e b r) = event_id r.
Proof. unfold upsertRow. by destruct (decide _). Qed.
Lemma upsertRow_room_id e b r : room_id (upsertRow e b r) = room_id r.
Proof. unfold upsertRow. by destruct (decide _). Qed.
Lemma upsertRow_event e b r :
  headered_event_json (upsertRow e b r) = headered_event_json r.
Proof. unfold upsertRow. by destruct (decide _). Qed.
Lemma upsertRow_add e b r : add_state_ids (upsertRow e b r) = add_state_ids r.
Proof. unfold upsertRow. by destruct (decide _). Qed.
Lemma upsertRow_remove e b r :
  remove_state_ids (upsertRow e b r) = remove_state_ids r.
Proof. unfold upsertRow. by destruct (decide _). Qed.

Lemma fmap_upsertRow {B} (f : Row → B) e b (rows : list Row) :
  (∀ r, f (upsertRow e b r) = f r) →
  f <$> (upsertRow e b <$> rows) = f <$> rows.
Proof.
  intros Hf. rewrite <- list_fmap_compose. apply list_fmap_ext.
  intros _ r _. apply Hf.
Qed.

Lemma init_db_wf : log_wf init_db.
Proof.
  repeat split; try constructor.
  exists 0. split; [done | constructor].
Qed.

Lemma InsertEvent_wf db event addState removeState transactionID
    excludeFromSync streamPos db' :
  log_wf db →
  InsertEvent db event addState removeState transactionID excludeFromSync
    = Ok (streamPos, db') →
  log_wf db'.
Proof.
  intros ((c & Hc & Hbound) & Hsorted & Hnodup & Hok) Hins.
  apply InsertEvent_Ok in Hins as (c' & Hc' & Hle & -> & Hids & Hrows).
  assert (c' = c) as -> by congruence.
  unfold log_wf.
  destruct Hrows as [[Hin ->]|(Hin & Hid & ->)].
  - split; [|split; [|split]].
    + exists (c + 1). rewrite Hids, lookup_insert_eq. split; [done|].
      apply Forall_fmap. eapply Forall_impl; [exact Hbound|].
      simpl. intros r Hr. rewrite upsertRow_id. lia.
    + by rewrite fmap_upsertRow by apply upsertRow_id.
    + by rewrite fmap_upsertRow by apply upsertRow_event_id.
    + apply Forall_fmap. eapply Forall_impl; [exact Hok|].
      intros r. unfold row_ok. simpl.
      by rewrite upsertRow_room_id, upsertRow_event_id, upsertRow_event,
        upsertRow_add, upsertRow_remove.
  - split; [|split; [|split]].
    + exists (c + 1). rewrite Hids, lookup_insert_eq. split; [done|].
      apply Forall_app. split.
      * eapply Forall_impl; [exact Hbound|]. simpl. lia.
      * repeat constructor. simpl. lia.
    + rewrite fmap_app. apply StronglySorted_app_2; [|done|repeat constructor].
      intros x1 x2 (r & -> & Hr)%list_elem_of_fmap Hx2.
      apply list_elem_of_singleton in Hx2 as ->. simpl.
      rewrite Forall_forall in Hbound. specialize (Hbound _ Hr). lia.
    + rewrite fmap_app. apply NoDup_app. split; [done|].
      split; [|apply NoDup_singleton].
      intros x Hx Hx'. apply list_elem_of_singleton in Hx' as ->. done.
    + apply Forall_app. split; [done|].
      repeat constructor; simpl; eauto.
Qed.

Lemma reachable_wf db : reachable db → log_wf db.
Proof.
  induction 1 as [|db ev a d t x p db' _ IH Hins]; [apply init_db_wf|].
  by eapply InsertEvent_wf.
Qed.

(** On a log built by InsertEvent the call succeeds, whatever the event,
    as long as the counter stays within BIGINT. *)
Lemma InsertEvent_total db event addState removeState transactionID
    excludeFromSync c :
  log_wf db → stream_ids db !! "global"%string = Some c →
  c + 1 ≤ max_int64 →
  is_Ok (InsertEvent db event addState removeState transactionID
           excludeFromSync).
Proof.
  intros ((c' & Hc' & Hbound) & _) Hc Hle.
  assert (c' = c) as -> by congruence.
  destruct (decide (EventID event ∈ event_id <$> output_room_events db))
    as [Hin|Hnin].
  - exists (c + 1,
            {| stream_ids := <["global"%string := c + 1]> (stream_ids db);
               output_room_events :=
                 upsertRow (EventID event) excludeFromSync
                   <$> output_room_events db |}).
    apply InsertEvent_Ok. exists c. do 4 (split; [done|]). by left.
  - exists (c + 1,
            {| stream_ids := <["global"%string := c + 1]> (stream_ids db);
               output_room_events :=
                 output_room_events db ++
                   [newRow (c + 1) event addState removeState transactionID
                      excludeFromSync] |}).
    apply InsertEvent_Ok. exists c. do 4 (split; [done|]). right.
    split; [done|]. split; [|done].
    intros (r & Hid & Hr)%list_elem_of_fmap.
    rewrite Forall_forall in Hbound. specialize (Hbound _ Hr). lia.
Qed.

(** *** Range scans over a log in insertion order *)

Lemma filter_nil_Forall {A} (P : A → Prop) `{!∀ x, Decision (P x)}
    (l : list A) :
  Forall (λ x, ¬ P x) l → filter P l = [].
Proof.
  induction 1 as [|x l Hx _ IH]; [done|].
  by rewrite filter_cons, decide_False.
Qed.

Lemma filter_ext_Forall {A} (P Q : A → Prop) `{!∀ x, Decision (P x)}
    `{!∀ x, Decision (Q x)} (l : list A) :
  Forall (λ x, P x ↔ Q x) l → filter P l = filter Q l.
Proof.
  induction 1 as [|x l Hx _ IH]; [done|].
  rewrite !filter_cons, IH.
  destruct (decide (P x)), (decide (Q x)); tauto.
Qed.

(** In a log whose positions grow with the rows, the rows of (lo, m] come
    before the rows of (m, hi], and together they are the rows of
    (lo, hi]. *)
Lemma in_room_range_split (room : string) (lo m hi : Z) (rows : list Row) :
  StronglySorted (λ a b, id a < id b) rows → lo ≤ m → m ≤ hi →
  filter (in_room_range room lo m) rows ++
    filter (in_room_range room m hi) rows
  = filter (in_room_range room lo hi) rows.
Proof.
  intros Hsorted Hlo Hhi.
  induction Hsorted as [|x l _ IH Hx]; [done|].
  destruct (decide (id x ≤ m)) as [Hle|Hgt].
  - rewrite (filter_cons (in_room_range room m hi)), decide_False
      by (unfold in_room_range; lia).
    rewrite !filter_cons.
    destruct (decide (in_room_range room lo m x)) as [Hin|Hout].
    + rewrite decide_True by (unfold in_room_range in *; intuition lia).
      simpl. by rewrite IH.
    + rewrite decide_False by (unfold in_room_range in *; intuition lia).
      done.
  - rewrite (filter_nil_Forall (in_room_range room lo m)); simpl.
    + apply filter_ext_Forall. constructor.
      * unfold in_room_range. intuition lia.
      * eapply Forall_impl; [exact Hx|]. simpl. unfold in_room_range.
        intros y Hy. intuition lia.
    + constructor.
      * unfold in_room_range. lia.
      * eapply Forall_impl; [exact Hx|]. simpl. unfold in_room_range.
        intros y Hy. lia.
Qed.

Lemma rowsToStreamEvents_positions (rows : list Row) :
  StreamPosition <$> rowsToStreamEvents rows = id <$> rows.
Proof.
  unfold rowsToStreamEvents. rewrite <- list_fmap_compose.
  by apply list_fmap_ext.
Qed.

(** On such a log the ascending scan of a range is the range itself, in
    insertion order, as soon as the limit admits all of it. *)
Lemma SelectEarlyEvents_sorted_log db roomID r limit :
  StronglySorted (λ a b, id a < id b) (output_room_events db) →
  Z.of_nat (length (filter (in_room_range roomID (Low r) (High r))
                      (output_room_events db))) ≤ limit →
  SelectEarlyEvents db roomID r limit
  = Ok (rowsToStreamEvents
          (filter (in_room_range roomID (Low r) (High r))
             (output_room_events db))).
Proof.
  intros Hsorted Hlimit. apply SelectEarlyEvents_Ok.
  eexists. split.
  - unfold selectEarlyEventsSQL, order_by_id_asc.
    rewrite (SliceStable_asc_unique id _ _ (reflexivity _))
      by by apply StronglySorted_filter.
    by apply sql_limit_all.
  - symmetry. apply (SliceStable_asc_unique StreamPosition); [done|].
    by apply events_strictly_sorted, StronglySorted_filter.
Qed.

(** The descending scan returns the same rows; sorted back, they are again
    the range in insertion order. *)
Lemma SelectRecentEvents_sorted_log db roomID r limit chrono :
  StronglySorted (λ a b, id a < id b) (output_room_events db) →
  Z.of_nat (length (filter (in_room_range roomID (Low r) (High r))
                      (output_room_events db))) ≤ limit →
  ∃ evs, SelectRecentEvents db roomID r limit chrono false = Ok evs ∧
         evs ≡ₚ rowsToStreamEvents
                  (filter (in_room_range roomID (Low r) (High r))
                     (output_room_events db)) ∧
         (chrono = true →
          evs = rowsToStreamEvents
                  (filter (in_room_range roomID (Low r) (High r))
                     (output_room_events db))).
Proof.
  intros Hsorted Hlimit.
  set (rows := filter _ _) in *.
  assert (rowsToStreamEvents (order_by_id_desc rows)
            ≡ₚ rowsToStreamEvents rows) as Hperm.
  { unfold rowsToStreamEvents, order_by_id_desc.
    by rewrite SliceStable_Permutation. }
  assert (recentRows db roomID r limit false = Ok (order_by_id_desc rows))
    as Hrows.
  { unfold recentRows, selectRecentEventsSQL. apply sql_limit_all.
    unfold order_by_id_desc. by rewrite SliceStable_length. }
  assert (SliceStable lessStreamPosition
            (rowsToStreamEvents (order_by_id_desc rows))
          = rowsToStreamEvents rows) as Hsort.
  { apply (SliceStable_asc_unique StreamPosition); [done|].
    by apply events_strictly_sorted, StronglySorted_filter. }
  eexists. split; [apply SelectRecentEvents_Ok; eauto|].
  destruct chrono; split; try done.
  by rewrite Hsort.
Qed.

Lemma roomEntries_split db roomID lo m hi :
  log_wf db → lo ≤ m → m ≤ hi →
  roomEntries db roomID lo m ++ roomEntries db roomID m hi
  = roomEntries db roomID lo hi.
Proof.
  intros (_ & Hsorted & _) Hlo Hhi. unfold roomEntries, rowsToStreamEvents.
  rewrite <- fmap_app. f_equal.
  apply in_room_range_split; [|done..]. by apply StronglySorted_key.
Qed.

Lemma roomEntries_sorted db roomID lo hi :
  log_wf db →
  StronglySorted Z.lt (StreamPosition <$> roomEntries db roomID lo hi).
Proof.
  intros (_ & Hsorted & _). unfold roomEntries.
  rewrite rowsToStreamEvents_positions.
  apply StronglySorted_key, StronglySorted_filter.
  by apply StronglySorted_key.
Qed.

(** C4. In a log built by InsertEvent the stream positions are strictly
    increasing in insertion order, and for every room, SelectEarlyEvents
    over (low, m] and SelectRecentEvents over the complementary range
    (m, high], with limits at least the number of matching entries, return
    between them the entries of that room with position in (low, high]:
    the two results joined are a rearrangement of exactly those entries, no
    position occurs twice, and with chronologicalOrder = true the join is
    those entries in insertion order, positions strictly increasing. *)
Theorem recent_early_partition (db : DB) (roomID : string)
    (rEarly rRecent : Range) (limitEarly limitRecent : Z)
    (chronologicalOrder : bool) :
  reachable db →
  Low rEarly ≤ High rEarly → High rEarly = Low rRecent →
  Low rRecent ≤ High rRecent →
  Z.of_nat (length (roomEntries db roomID (Low rEarly) (High rEarly)))
    ≤ limitEarly →
  Z.of_nat (length (roomEntries db roomID (Low rRecent) (High rRecent)))
    ≤ limitRecent →
  StronglySorted Z.lt (id <$> output_room_events db) ∧
  StronglySorted Z.lt
    (StreamPosition <$> roomEntries db roomID (Low rEarly) (High rRecent)) ∧
  ∃ early recent,
    SelectEarlyEvents db roomID rEarly limitEarly = Ok early ∧
    SelectRecentEvents db roomID rRecent limitRecent chronologicalOrder false
      = Ok recent ∧
    early ++ recent ≡ₚ roomEntries db roomID (Low rEarly) (High rRecent) ∧
    NoDup (StreamPosition <$> (early ++ recent)) ∧
    (chronologicalOrder = true →
     early ++ recent = roomEntries db roomID (Low rEarly) (High rRecent)).
Proof.
  intros Hwf%reachable_wf HE Hm HR HlimE HlimR.
  pose proof Hwf as (_ & Hsorted & _).
  pose proof (roomEntries_sorted db roomID (Low rEarly) (High rRecent) Hwf)
    as Hentries.
  split; [done|]. split; [done|].
  unfold roomEntries, rowsToStreamEvents in HlimE, HlimR.
  rewrite length_fmap in HlimE, HlimR.
  apply (proj1 (StronglySorted_key id _)) in Hsorted.
  destruct (SelectRecentEvents_sorted_log db roomID rRecent limitRecent
              chronologicalOrder Hsorted HlimR) as (recent & Hrec & Hperm & Heq).
  exists (roomEntries db roomID (Low rEarly) (High rEarly)), recent.
  assert (roomEntries db roomID (Low rEarly) (High rEarly) ++ recent
            ≡ₚ roomEntries db roomID (Low rEarly) (High rRecent)) as Hjoin.
  { rewrite Hperm. fold (roomEntries db roomID (Low rRecent) (High rRecent)).
    rewrite <- Hm. rewrite roomEntries_split; [done..|lia]. }
  split; [by apply SelectEarlyEvents_sorted_log|].
  split; [done|]. split; [done|]. split.
  - rewrite Hjoin. by apply StronglySorted_lt_NoDup.
  - intros Hchrono. rewrite (Heq Hchrono).
    fold (roomEntries db roomID (Low rRecent) (High rRecent)).
    rewrite <- Hm. apply roomEntries_split; [done..|lia].
Qed.

Lemma markAll_lookup (b : bool) (ids : list string) (m : gmap string bool)
    (x : string) :
  markAll b ids m !! x = if decide (x ∈ ids) then Some b else m !! x.
Proof.
  unfold markAll. revert m.
  induction ids as [|i ids IH]; intros m; simpl.
  - destruct (decide (x ∈ [])) as [Hin|_]; [|done].
    by apply elem_of_nil in Hin.
  - rewrite IH. destruct (decide (x ∈ ids)) as [Hin|Hnin].
    + rewrite decide_True; [done | by right].
    + destruct (decide (x = i)) as [->|Hne].
      * rewrite lookup_insert_eq. rewrite decide_True; [done | by left].
      * rewrite lookup_insert_ne by done.
        rewrite decide_False; [done|].
        intros [?|?]%elem_of_cons; done.
Qed.

Lemma default_empty_lookup (o : option (gmap string bool)) (x : string) :
  default ∅ o !! x = o ≫= (.!! x).
Proof. destruct o; simpl; [done | apply lookup_empty]. Qed.

(** The flag of [x] in [room] after one more entry. *)
Lemma stateInRangeRow_flag acc r acc' room x :
  stateInRangeRow acc r = Ok acc' →
  neededFlag acc'.1 room x =
    if decide (RoomID (headered_event_json r) = room)
    then match rowFlag x r with
         | Some b => Some b
         | None => neededFlag acc.1 room x
         end
    else neededFlag acc.1 room x.
Proof.
  unfold stateInRangeRow, scanStateIDs, rowFlag, neededFlag.
  destruct (add_state_ids r) as [addIDs|]; [|discriminate].
  destruct (remove_state_ids r) as [delIDs|]; [|discriminate].
  simpl. intros [= <-]. simpl.
  destruct (decide (RoomID (headered_event_json r) = room)) as [->|Hne].
  - rewrite lookup_insert_eq. simpl.
    rewrite !markAll_lookup, default_empty_lookup.
    by repeat destruct (decide _).
  - by rewrite lookup_insert_ne.
Qed.

Lemma stateInRangeRow_total acc r :
  is_Some (add_state_ids r) → is_Some (remove_state_ids r) →
  is_Ok (stateInRangeRow acc r).
Proof.
  intros [addIDs Ha] [delIDs Hd].
  unfold stateInRangeRow, scanStateIDs. rewrite Ha, Hd. simpl. by eexists.
Qed.

Lemma stateInRangeRows_app rows1 rows2 acc :
  stateInRangeRows (rows1 ++ rows2) acc
  = stateInRangeRows rows1 acc ≫= stateInRangeRows rows2.
Proof.
  revert acc. induction rows1 as [|r rows1 IH]; intros acc; simpl; [done|].
  destruct (stateInRangeRow acc r) as [acc'|e]; simpl; [apply IH | done].
Qed.

Lemma stateInRangeRows_total rows acc :
  Forall row_ok rows → is_Ok (stateInRangeRows rows acc).
Proof.
  intros Hok. revert acc.
  induction Hok as [|r rows (_ & _ & Ha & Hd) _ IH]; intros acc; simpl.
  - by eexists.
  - destruct (stateInRangeRow_total acc r Ha Hd) as [acc' ->]. simpl.
    apply IH.
Qed.

(** A flag survives the entries that do not contradict it. *)
Lemma stateInRangeRows_keep rows room x b : ∀ acc acc',
  Forall (λ r, RoomID (headered_event_json r) = room →
               rowFlag x r = None ∨ rowFlag x r = Some b) rows →
  neededFlag acc.1 room x = Some b →
  stateInRangeRows rows acc = Ok acc' →
  neededFlag acc'.1 room x = Some b.
Proof.
  induction rows as [|r rows IH]; intros acc acc' Hrows Hflag Hrun;
    simpl in Hrun.
  - by injection Hrun as <-.
  - apply bind_Ok in Hrun as (acc1 & Hstep & Hrun).
    apply Forall_cons in Hrows as [Hr Hrows].
    eapply IH; [done| |done].
    rewrite (stateInRangeRow_flag _ _ _ room x Hstep).
    destruct (decide _) as [Hroom|]; [|done].
    destruct (Hr Hroom) as [-> | ->]; done.
Qed.

(** On a log in insertion order the state scan reads the rows of the range
    as they lie in the table, as soon as the limit admits all of them. *)
Lemma selectStateInRangeSQL_sorted_log (lo hi limit : Z) (rows : list Row) :
  StronglySorted (λ a b, id a < id b) rows →
  Z.of_nat (length (filter (in_state_range lo hi) rows)) ≤ limit →
  selectStateInRangeSQL lo hi limit rows
  = Ok (filter (in_state_range lo hi) rows).
Proof.
  intros Hsorted Hlimit. unfold selectStateInRangeSQL, order_by_id_asc.
  rewrite (SliceStable_asc_unique id _ _ (reflexivity _))
    by by apply StronglySorted_filter.
  by apply sql_limit_all.
Qed.

(** The last scanned entry of a room that mentions [x] decides the flag of
    [x] in that room. *)
Lemma SelectStateInRange_last_word db r limit room x e b :
  log_wf db →
  e ∈ output_room_events db → Low r < id e → id e ≤ High r →
  RoomID (headered_event_json e) = room →
  rowFlag x e = Some b →
  (∀ e', e' ∈ output_room_events db → id e < id e' → id e' ≤ High r →
         RoomID (headered_event_json e') = room →
         rowFlag x e' = None ∨ rowFlag x e' = Some b) →
  Z.of_nat (length (filter (in_state_range (Low r) (High r))
                      (output_room_events db))) ≤ limit →
  ∃ need evs, SelectStateInRange db r limit = Ok (need, evs) ∧
              neededFlag need room x = Some b.
Proof.
  intros (_ & Hsorted & _ & Hok) He Hlo Hhi Hroom Hflag Hlater Hlimit.
  apply (proj1 (StronglySorted_key id _)) in Hsorted.
  unfold SelectStateInRange.
  rewrite selectStateInRangeSQL_sorted_log by done. simpl.
  set (S := filter _ _) in *.
  assert (e ∈ S) as HeS.
  { apply list_elem_of_filter. split; [|done].
    split; [done|]. left. unfold rowFlag in Hflag.
    destruct (add_state_ids e); [done | discriminate]. }
  assert (StronglySorted (λ a b, id a < id b) S) as HS
    by by apply StronglySorted_filter.
  assert (Forall row_ok S) as HokS.
  { apply Forall_forall. intros r' [_ Hr']%list_elem_of_filter.
    rewrite Forall_forall in Hok. by apply Hok. }
  assert (∀ r', r' ∈ S → r' ∈ output_room_events db ∧ id r' ≤ High r)
    as HinS.
  { intros r' [[[_ ?] _] ?]%list_elem_of_filter. done. }
  clearbody S.
  apply list_elem_of_split in HeS as (l1 & l3 & ->).
  apply Forall_app in HokS as [Hok1 Hok3].
  apply Forall_cons in Hok3 as [(_ & _ & Ha & Hd) Hok3].
  apply StronglySorted_app_1_r, StronglySorted_cons in HS as [Hgt _].
  rewrite stateInRangeRows_app.
  destruct (stateInRangeRows_total l1 (∅, ∅) Hok1) as [acc1 ->].
  simpl.
  destruct (stateInRangeRow_total acc1 e Ha Hd) as [acc2 Hstep].
  rewrite Hstep. simpl.
  destruct (stateInRangeRows_total l3 acc2 Hok3) as [[need evs] Hrun].
  exists need, evs. split; [done|].
  apply (stateInRangeRows_keep l3 room x b acc2 (need, evs)); [| |done].
  - apply Forall_forall. intros e' He'.
    rewrite Forall_forall in Hgt.
    destruct (HinS e') as [? ?].
    { apply elem_of_app. right. by right. }
    intros ?. apply Hlater; auto.
  - rewrite (stateInRangeRow_flag _ _ _ room x Hstep).
    rewrite decide_True by done. by rewrite Hflag.
Qed.

Lemma rowFlag_removed x r :
  is_Some (add_state_ids r) → removesState r x → ¬ addsState r x →
  rowFlag x r = Some false.
Proof.
  intros [addIDs Ha] (delIDs & Hd & Hin) Hnot. unfold rowFlag.
  rewrite Ha, Hd. rewrite decide_False, decide_True; [done..|].
  intros ?. apply Hnot. by exists addIDs.
Qed.

Lemma rowFlag_added x r :
  is_Some (remove_state_ids r) → addsState r x → rowFlag x r = Some true.
Proof.
  intros [delIDs Hd] (addIDs & Ha & Hin). unfold rowFlag.
  rewrite Ha, Hd. by rewrite decide_True.
Qed.

Lemma rowFlag_not_added x r :
  ¬ addsState r x → rowFlag x r = None ∨ rowFlag x r = Some false.
Proof.
  intros Hnot. unfold rowFlag.
  destruct (add_state_ids r) as [addIDs|] eqn:Ha; [|by left].
  destruct (remove_state_ids r) as [delIDs|]; [|by left].
  rewrite decide_False.
  - destruct (decide _); [by right | by left].
  - intros ?. apply Hnot. by exists addIDs.
Qed.

Lemma rowFlag_not_only_removed x r :
  (removesState r x → addsState r x) →
  rowFlag x r = None ∨ rowFlag x r = Some true.
Proof.
  intros Himp. unfold rowFlag.
  destruct (add_state_ids r) as [addIDs|] eqn:Ha; [|by left].
  destruct (remove_state_ids r) as [delIDs|] eqn:Hd; [|by left].
  destruct (decide (x ∈ addIDs)) as [|Hnin]; [by right|].
  destruct (decide (x ∈ delIDs)) as [Hin|]; [|by left].
  destruct Himp as (ids & Hids & ?); [by exists delIDs|].
  congruence.
Qed.

(** C2, as amended.  Take a log built by InsertEvent and a range whose
    entries include, for the same room, an entry adding state event [x] and
    a later entry (higher stream position) removing [x].  If no entry of
    that room from the removing one up to the end of the range adds [x]
    (again), and the limit admits every state entry of the range, then
    SelectStateInRange returns, and reports [x] as not needed in that room:
    its flag in the room's set is false. *)
Theorem state_in_range_net_removal (db : DB) (r : Range) (limit : Z)
    (room x : string) (eAdd eRem : Row) :
  reachable db →
  eAdd ∈ output_room_events db → eRem ∈ output_room_events db →
  Low r < id eAdd → id eAdd < id eRem → id eRem ≤ High r →
  RoomID (headered_event_json eAdd) = room →
  RoomID (headered_event_json eRem) = room →
  addsState eAdd x → removesState eRem x →
  (∀ e, e ∈ output_room_events db → id eRem ≤ id e → id e ≤ High r →
        RoomID (headered_event_json e) = room → ¬ addsState e x) →
  Z.of_nat (length (filter (in_state_range (Low r) (High r))
                      (output_room_events db))) ≤ limit →
  ∃ need evs, SelectStateInRange db r limit = Ok (need, evs) ∧
              neededFlag need room x = Some false.
Proof.
  intros Hwf%reachable_wf _ HeRem Hlo Hlt Hhi _ Hroom _ Hrem Hnoadd Hlimit.
  apply (SelectStateInRange_last_word db r limit room x eRem false);
    try done; [lia| |].
  - apply rowFlag_removed; [|done|].
    + destruct Hwf as (_ & _ & _ & Hok). rewrite Forall_forall in Hok.
      by destruct (Hok _ HeRem) as (_ & _ & ? & _).
    + apply Hnoadd; [done|lia|done..].
  - intros e' He' Hgt Hhi' Hroom'. apply rowFlag_not_added.
    apply Hnoadd; [done|lia|done..].
Qed.

(** C10. Within one entry the removed IDs are marked before the added IDs:
    whatever the loop has accumulated, after an entry that lists [x] both as
    removed and as added, [x] is marked as needed in the entry's room.  So
    in a log built by InsertEvent, if no later entry of that room in the
    range removes [x] without adding it, and the limit admits every state
    entry of the range, SelectStateInRange reports [x] as needed. *)
Theorem state_in_range_add_wins_within_entry (x : string) (e : Row) :
  addsState e x → removesState e x →
  (∀ acc, ∃ acc', stateInRangeRow acc e = Ok acc' ∧
                  neededFlag acc'.1 (RoomID (headered_event_json e)) x
                  = Some true) ∧
  (∀ db r limit,
     reachable db → e ∈ output_room_events db →
     Low r < id e → id e ≤ High r →
     (∀ e', e' ∈ output_room_events db → id e < id e' → id e' ≤ High r →
            RoomID (headered_event_json e') = RoomID (headered_event_json e) →
            removesState e' x → addsState e' x) →
     Z.of_nat (length (filter (in_state_range (Low r) (High r))
                         (output_room_events db))) ≤ limit →
     ∃ need evs, SelectStateInRange db r limit = Ok (need, evs) ∧
                 neededFlag need (RoomID (headered_event_json e)) x
                 = Some true).
Proof.
  intros Hadd Hrem.
  assert (rowFlag x e = Some true) as Hflag.
  { apply rowFlag_added; [|done]. destruct Hrem as (ids & -> & _). by eexists. }
  split.
  - intros acc.
    destruct (stateInRangeRow_total acc e) as [acc' Hstep].
    { destruct Hadd as (ids & -> & _). by eexists. }
    { destruct Hrem as (ids & -> & _). by eexists. }
    exists acc'. split; [done|].
    rewrite (stateInRangeRow_flag _ _ _ _ x Hstep).
    rewrite decide_True by done. by rewrite Hflag.
  - intros db r limit Hwf%reachable_wf He Hlo Hhi Hlater Hlimit.
    apply (SelectStateInRange_last_word db r limit _ x e true); try done.
    intros e' He' Hgt Hhi' Hroom'. apply rowFlag_not_only_removed.
    by apply Hlater.
Qed.

(** Inserting an event whose ID is already in the log: no row is added,
    only exclude_from_sync of the row with that ID changes, and the call
    returns the counter's new value, not the position of that row. *)
Lemma InsertEvent_existing db event addState removeState transactionID
    excludeFromSync streamPos db' :
  log_wf db →
  EventID event ∈ event_id <$> output_room_events db →
  InsertEvent db event addState removeState transactionID excludeFromSync
    = Ok (streamPos, db') →
  output_room_events db'
    = (upsertRow (EventID event) excludeFromSync <$> output_room_events db) ∧
  length (output_room_events db') = length (output_room_events db) ∧
  id <$> output_room_events db' = id <$> output_room_events db ∧
  Forall (λ r, id r < streamPos) (output_room_events db').
Proof.
  intros ((c & Hc & Hbound) & _) Hin Hins.
  apply InsertEvent_Ok in Hins as (c' & Hc' & _ & -> & _ & Hrows).
  assert (c' = c) as -> by congruence.
  destruct Hrows as [[_ ->]|[Hnin _]]; [|done].
  split; [done|]. split; [by rewrite length_fmap|].
  split; [by rewrite fmap_upsertRow by apply upsertRow_id|].
  apply Forall_fmap. eapply Forall_impl; [exact Hbound|].
  simpl. intros r Hr. rewrite upsertRow_id. lia.
Qed.

Lemma insertEvents_reachable calls : ∀ db db',
  reachable db → insertEvents calls db = Ok db' → reachable db'.
Proof.
  induction calls as [|[[ev a] d] calls IH]; intros db db' Hdb Hrun;
    simpl in Hrun.
  - by injection Hrun as <-.
  - apply bind_Ok in Hrun as ([p db1] & Hins & Hrun).
    eapply IH; [|exact Hrun]. by eapply reachable_InsertEvent.
Qed.

Lemma exampleLog_reachable calls : reachable (exampleLog calls).
Proof.
  unfold exampleLog.
  destruct (insertEvents calls init_db) as [db|] eqn:Hrun.
  - by eapply insertEvents_reachable; [apply reachable_init|].
  - apply reachable_init.
Qed.

Lemma select_events_order_witness :
  ∃ asc desc early,
    SelectRecentEvents logTwoRooms "!r:hs" (fromTo 0 5) 2 true false = Ok asc ∧
    SelectRecentEvents logTwoRooms "!r:hs" (fromTo 0 5) 2 false false
      = Ok desc ∧
    SelectEarlyEvents logTwoRooms "!r:hs" (fromTo 0 5) 2 = Ok early ∧
    StreamPosition <$> asc = [3; 4] ∧ StreamPosition <$> desc = [4; 3] ∧
    StreamPosition <$> early = [1; 3] ∧
    ascending asc ∧ ascending early ∧ descending desc.
Proof.
  do 3 eexists.
  split; [vm_compute; reflexivity|].
  split; [vm_compute; reflexivity|].
  split; [vm_compute; reflexivity|].
  do 3 (split; [reflexivity|]).
  pose proof (select_events_order logTwoRooms "!r:hs" (fromTo 0 5) 2 false)
    as (Hasc & Hearly & Hdesc & _).
  split; [apply Hasc; vm_compute; reflexivity|].
  split; [apply Hearly; vm_compute; reflexivity|].
  eapply Hdesc. vm_compute; reflexivity.
Defined.

Lemma recent_early_partition_witness :
  ∃ early recent,
    SelectEarlyEvents logTwoRooms "!r:hs" (fromTo 0 3) 2 = Ok early ∧
    SelectRecentEvents logTwoRooms "!r:hs" (fromTo 3 5) 1 true false
      = Ok recent ∧
    StreamPosition <$> early = [1; 3] ∧ StreamPosition <$> recent = [4] ∧
    early ++ recent = roomEntries logTwoRooms "!r:hs" 0 5.
Proof.
  destruct (recent_early_partition logTwoRooms "!r:hs" (fromTo 0 3)
              (fromTo 3 5) 2 1 true) as (_ & _ & early & recent & HE & HR & _ & _ & Heq).
  - apply exampleLog_reachable.
  - vm_compute. discriminate.
  - reflexivity.
  - vm_compute. discriminate.
  - vm_compute. discriminate.
  - vm_compute. discriminate.
  - exists early, recent. split; [done|]. split; [done|].
    vm_compute in HE. vm_compute in HR.
    injection HE as <-. injection HR as <-.
    split; [reflexivity|]. split; [reflexivity|]. by apply Heq.
Defined.

Lemma example_rows_logAddRemove :
  output_room_events logAddRemove
  = [exampleRow 1 "$1" ["$x"%string] []; exampleRow 2 "$2" [] ["$x"%string]].
Proof. vm_compute. reflexivity. Qed.

Lemma example_rows_logAddRemoveAdd :
  output_room_events logAddRemoveAdd
  = [exampleRow 1 "$1" ["$x"%string] []; exampleRow 2 "$2" [] ["$x"%string];
     exampleRow 3 "$3" ["$x"%string] []].
Proof. vm_compute. reflexivity. Qed.

Lemma state_in_range_net_removal_witness :
  ∃ need evs,
    SelectStateInRange logAddRemove (fromTo 0 2) 10 = Ok (need, evs) ∧
    neededFlag need "!r:hs" "$x" = Some false.
Proof.
  apply (state_in_range_net_removal logAddRemove (fromTo 0 2) 10
           "!r:hs" "$x"
           (exampleRow 1 "$1" ["$x"%string] [])
           (exampleRow 2 "$2" [] ["$x"%string])).
  - apply exampleLog_reachable.
  - rewrite example_rows_logAddRemove. by left.
  - rewrite example_rows_logAddRemove. right. by left.
  - vm_compute. reflexivity.
  - vm_compute. reflexivity.
  - vm_compute. discriminate.
  - reflexivity.
  - reflexivity.
  - exists ["$x"%string]. split; [reflexivity | by left].
  - exists ["$x"%string]. split; [reflexivity | by left].
  - rewrite example_rows_logAddRemove.
    intros e He Hlo _ _ (ids & Hids & Hin).
    apply elem_of_cons in He as [->|He].
    { vm_compute in Hlo. by apply Hlo. }
    apply list_elem_of_singleton in He as ->.
    injection Hids as <-. by apply elem_of_nil in Hin.
  - vm_compute. discriminate.
Defined.

(** C2 as worded fails: in [logAddRemoveAdd] the range (0, 3] holds an
    entry adding "$x" (position 1) and a later entry of the same room
    removing it (position 2), and SelectStateInRange marks "$x" as needed,
    because the entry at position 3 adds it again. *)
Lemma net_removal_wins_counterexample :
  ¬ net_removal_wins logAddRemoveAdd (fromTo 0 3) 10.
Proof.
  intros Hclaim.
  assert (∃ need evs,
            SelectStateInRange logAddRemoveAdd (fromTo 0 3) 10
              = Ok (need, evs) ∧
            neededFlag need "!r:hs" "$x" = Some true)
    as (need & evs & Hsel & Hflag).
  { do 2 eexists. split; vm_compute; reflexivity. }
  eapply (Hclaim "!r:hs" "$x"
            (exampleRow 1 "$1" ["$x"%string] [])
            (exampleRow 2 "$2" [] ["$x"%string]));
    [..|exact Hsel|exact Hflag].
  - rewrite example_rows_logAddRemoveAdd. by left.
  - rewrite example_rows_logAddRemoveAdd. right. by left.
  - vm_compute. reflexivity.
  - vm_compute. reflexivity.
  - vm_compute. discriminate.
  - reflexivity.
  - reflexivity.
  - exists ["$x"%string]. split; [reflexivity | by left].
  - exists ["$x"%string]. split; [reflexivity | by left].
Qed.

Lemma state_in_range_add_wins_within_entry_witness :
  (∃ acc', stateInRangeRow (∅, ∅)
             (exampleRow 1 "$1" ["$x"%string] ["$x"%string]) = Ok acc' ∧
           neededFlag acc'.1 "!r:hs" "$x" = Some true) ∧
  (∃ need evs, SelectStateInRange logBoth (fromTo 0 1) 10 = Ok (need, evs) ∧
               neededFlag need "!r:hs" "$x" = Some true).
Proof.
  destruct (state_in_range_add_wins_within_entry "$x"
              (exampleRow 1 "$1" ["$x"%string] ["$x"%string]))
    as [Hrow Hlog].
  - exists ["$x"%string]. split; [reflexivity | by left].
  - exists ["$x"%string]. split; [reflexivity | by left].
  - split; [apply Hrow|].
    apply (Hlog logBoth (fromTo 0 1) 10).
    + apply exampleLog_reachable.
    + vm_compute. by left.
    + vm_compute. reflexivity.
    + vm_compute. discriminate.
    + intros e' He' Hgt. vm_compute in He'.
      apply list_elem_of_singleton in He' as ->.
      vm_compute in Hgt. discriminate.
    + vm_compute. discriminate.
Defined.

(** The same event inserted twice, in general: the second call returns the
    position after the first one's, and touches nothing in the log but
    exclude_from_sync of the row with that event ID. *)
Lemma InsertEvent_twice db event a1 d1 t1 x1 a2 d2 t2 x2 p1 db1 p2 db2 :
  InsertEvent db event a1 d1 t1 x1 = Ok (p1, db1) →
  InsertEvent db1 event a2 d2 t2 x2 = Ok (p2, db2) →
  p2 = p1 + 1 ∧
  output_room_events db2
    = (upsertRow (EventID event) x2 <$> output_room_events db1).
Proof.
  intros (c & Hc & _ & -> & Hids & Hrows)%InsertEvent_Ok
         (c' & Hc' & _ & -> & _ & Hrows')%InsertEvent_Ok.
  rewrite Hids, lookup_insert_eq in Hc'. injection Hc' as <-.
  split; [done|].
  destruct Hrows' as [[_ ->]|[Hnin _]]; [done|].
  destruct Hnin. destruct Hrows as [[Hin ->]|(_ & _ & ->)].
  - by rewrite fmap_upsertRow by apply upsertRow_event_id.
  - rewrite fmap_app. apply elem_of_app. right. by left.
Qed.

(** C1 at a concrete input: the same event inserted twice into the empty
    log.  The log holds one row after either call, at position 1, and the
    second call changes nothing but the row's exclude_from_sync; the first
    call returns position 1, the second returns position 2, at which the
    log holds no row. *)
Theorem InsertEvent_twice_positions :
  ∃ db1 db2,
    InsertEvent init_db (exampleEvent "$1" "!r:hs") [] [] None false
      = Ok (1, db1) ∧
    InsertEvent db1 (exampleEvent "$1" "!r:hs") [] [] None true
      = Ok (2, db2) ∧
    output_room_events db1 = [exampleRow 1 "$1" [] []] ∧
    output_room_events db2
      = [set_exclude_from_sync true (exampleRow 1 "$1" [] [])] ∧
    2 ∉ id <$> output_room_events db2.
Proof.
  do 2 eexists.
  split; [vm_compute; reflexivity|].
  split; [vm_compute; reflexivity|].
  split; [reflexivity|]. split; [reflexivity|].
  simpl. intros Hin. apply list_elem_of_singleton in Hin. discriminate.
Qed.

(** *** SelectMaxEventID *)

Lemma foldr_max_spec (a : Z) (l : list Z) :
  foldr Z.max a l ∈ a :: l ∧ Forall (λ x, x ≤ foldr Z.max a l) (a :: l).
Proof.
  induction l as [|x l [IHin IHle]]; simpl.
  - split; [by left | repeat constructor; lia].
  - apply Forall_cons in IHle as [Ha Hl].
    destruct (Z.max_spec x (foldr Z.max a l)) as [[? ->]|[? ->]].
    + split.
      * apply elem_of_cons in IHin as [->|?]; [by left | by right; right].
      * constructor; [done|]. constructor; [lia | done].
    + split; [right; by left|].
      constructor; [lia|]. constructor; [lia|].
      eapply Forall_impl; [exact Hl|]. simpl. lia.
Qed.

Lemma SelectMaxEventID_Ok (db : DB) :
  ∃ m, SelectMaxEventID db = Ok m ∧
       (output_room_events db = [] → m = 0) ∧
       (output_room_events db ≠ [] →
        m ∈ id <$> output_room_events db ∧
        Forall (λ r, id r ≤ m) (output_room_events db)).
Proof.
  unfold SelectMaxEventID, selectMaxEventIDSQL.
  destruct (output_room_events db) as [|r tbl]; eexists; split; try done.
  split; [done|]. intros _.
  destruct (foldr_max_spec (id r) (id <$> tbl)) as [Hin Hle].
  split; [done|].
  change (id r :: (id <$> tbl)) with (id <$> r :: tbl) in Hle.
  rewrite Forall_fmap in Hle. exact Hle.
Qed.

(** X3. SelectMaxEventID never fails.  On an empty log it returns 0; on
    any other log it returns the position of a stored entry, and no stored
    entry has a larger one. *)
Theorem SelectMaxEventID_largest (db : DB) :
  ∃ m, SelectMaxEventID db = Ok m ∧
       (output_room_events db = [] → m = 0) ∧
       (output_room_events db ≠ [] →
        m ∈ id <$> output_room_events db ∧
        Forall (λ r, id r ≤ m) (output_room_events db)).
Proof.
  destruct (SelectMaxEventID_Ok db) as (m & Hm & Hempty & Hmax).
  exists m. split_and!; [exact Hm | exact Hempty | exact Hmax].
Qed.

Lemma SelectMaxEventID_largest_witness :
  SelectMaxEventID init_db = Ok 0 ∧ SelectMaxEventID logTwoRooms = Ok 5.
Proof.
  destruct (SelectMaxEventID_largest init_db) as (m0 & H0 & Hempty & _).
  rewrite (Hempty eq_refl) in H0. split; [exact H0|].
  destruct (SelectMaxEventID_largest logTwoRooms) as (m & Hm & _ & Hmax).
  destruct Hmax as [Hin Hle]; [vm_compute; discriminate|].
  rewrite Hm. f_equal.
  eapply (Forall_lookup_1 _ _ 4%nat) in Hle; [|vm_compute; reflexivity].
  simpl in Hle. vm_compute in Hin.
  repeat (apply elem_of_cons in Hin as [->|Hin]; [lia || done|]).
  by apply elem_of_nil in Hin.
Defined.

(** X4. In a log built by InsertEvent, the position a successful
    InsertEvent returns is never below the largest stored position, and it
    is the largest stored position exactly when the event ID was new to the
    log. *)
Theorem InsertEvent_position_and_max (db : DB) (event : HeaderedEvent)
    (addState removeState : list string)
    (transactionID : option api_TransactionID) (excludeFromSync : bool)
    (streamPos : Z) (db' : DB) :
  reachable db →
  InsertEvent db event addState removeState transactionID excludeFromSync
    = Ok (streamPos, db') →
  ∃ m, SelectMaxEventID db' = Ok m ∧ m ≤ streamPos ∧
       (m = streamPos ↔ EventID event ∉ event_id <$> output_room_events db).
Proof.
  intros Hwf%reachable_wf Hins.
  destruct (SelectMaxEventID_Ok db') as (m & Hm & _ & Hmax).
  exists m. split; [done|].
  destruct Hwf as ((c & Hc & Hbound) & _).
  apply InsertEvent_Ok in Hins as (c' & Hc' & _ & -> & _ & Hrows).
  assert (c' = c) as -> by congruence.
  destruct Hrows as [[Hin Hrows]|(Hnin & _ & Hrows)].
  - assert (m ≤ c) as Hle.
    { destruct Hmax as [(r & -> & Hr)%list_elem_of_fmap _].
      - rewrite Hrows. intros Hnil%fmap_nil_inv.
        rewrite Hnil in Hin. by apply elem_of_nil in Hin.
      - rewrite Hrows in Hr.
        apply list_elem_of_fmap in Hr as (r0 & -> & Hr0).
        rewrite upsertRow_id. rewrite Forall_forall in Hbound.
        by apply Hbound. }
    split; [lia|]. split; [lia | done].
  - destruct Hmax as [(r & -> & Hr)%list_elem_of_fmap Hle].
    { rewrite Hrows. by destruct (output_room_events db). }
    rewrite Hrows in Hr, Hle.
    apply Forall_app in Hle as [_ Hnew].
    rewrite Forall_singleton in Hnew. unfold newRow in Hnew. simpl in Hnew.
    apply elem_of_app in Hr as [Hr|Hr].
    + rewrite Forall_forall in Hbound. specialize (Hbound _ Hr).
      lia.
    + apply list_elem_of_singleton in Hr as ->. simpl.
      split; [lia|]. split; done.
Qed.

Lemma InsertEvent_position_and_max_witness :
  ∃ db1 db2,
    InsertEvent logTwoRooms (exampleEvent "$6" "!r:hs") [] [] None false
      = Ok (6, db1) ∧ SelectMaxEventID db1 = Ok 6 ∧
    InsertEvent logTwoRooms (exampleEvent "$2" "!s:hs") [] [] None false
      = Ok (6, db2) ∧ SelectMaxEventID db2 = Ok 5.
Proof.
  do 2 eexists.
  split; [vm_compute; reflexivity|]. split.
  - edestruct (InsertEvent_position_and_max logTwoRooms
                 (exampleEvent "$6" "!r:hs") [] [] None false)
      as (m & Hm & _ & Hiff);
      [apply exampleLog_reachable | vm_compute; reflexivity |].
    rewrite Hm. f_equal. apply Hiff. vm_compute.
    intros Hin.
    repeat (apply elem_of_cons in Hin as [Hin|Hin]; [discriminate|]).
    by apply elem_of_nil in Hin.
  - split; [vm_compute; reflexivity|]. vm_compute. reflexivity.
Defined.

(** X5. InsertEvent only ever appends: after a successful call every
    stored entry is at the index it had, unchanged, or, if it has the
    inserted event's ID, changed in exclude_from_sync alone; at most one
    entry is added. *)
Theorem InsertEvent_append_only (db : DB) (event : HeaderedEvent)
    (addState removeState : list string)
    (transactionID : option api_TransactionID) (excludeFromSync : bool)
    (streamPos : Z) (db' : DB) :
  InsertEvent db event addState removeState transactionID excludeFromSync
    = Ok (streamPos, db') →
  (length (output_room_events db) ≤ length (output_room_events db')
   ≤ S (length (output_room_events db)))%nat ∧
  ∀ (i : nat) (r : Row), output_room_events db !! i = Some r →
    ∃ r', output_room_events db' !! i = Some r' ∧
          (r' = r ∨
           (event_id r = EventID event ∧
            r' = set_exclude_from_sync excludeFromSync r)).
Proof.
  intros (c & _ & _ & _ & _ & Hrows)%InsertEvent_Ok.
  destruct Hrows as [[_ ->]|(_ & _ & ->)].
  - split; [rewrite length_fmap; lia|].
    intros i r Hi. exists (upsertRow (EventID event) excludeFromSync r).
    split; [by rewrite list_lookup_fmap, Hi|].
    unfold upsertRow. destruct (decide _); [by right | by left].
  - split; [rewrite length_app; simpl; lia|].
    intros i r Hi. exists r. split; [|by left].
    by apply lookup_app_l_Some.
Qed.

Lemma InsertEvent_append_only_witness :
  ∃ db',
    InsertEvent logAddRemove (exampleEvent "$2" "!r:hs") [] [] None true
      = Ok (3, db') ∧
    output_room_events db'
    = [exampleRow 1 "$1" ["$x"%string] [];
       set_exclude_from_sync true (exampleRow 2 "$2" [] ["$x"%string])].
Proof.
  eexists. split; [vm_compute; reflexivity|].
  edestruct (InsertEvent_append_only logAddRemove
               (exampleEvent "$2" "!r:hs") [] [] None true)
    as [_ Hrows]; [vm_compute; reflexivity|].
  destruct (Hrows 0%nat (exampleRow 1 "$1" ["$x"%string] []))
    as (r' & Hr' & _); [vm_compute; reflexivity|].
  vm_compute. reflexivity.
Defined.

(** *** SelectEvents *)

Lemma transactionID_round_trip (transactionID : option api_TransactionID) :
  match SessionID <$> transactionID, TransactionID <$> transactionID with
  | Some s, Some t => Some {| SessionID := s; TransactionID := t |}
  | _, _ => None
  end = transactionID.
Proof. by destruct transactionID as [[s t]|]. Qed.



(** X9. In a log built by InsertEvent, InsertEvent fails only when the
    position counter is exhausted; it never fails on a key of the log. *)
Theorem InsertEvent_fails_only_on_overflow (db : DB) (event : HeaderedEvent)
    (addState removeState : list string)
    (transactionID : option api_TransactionID) (excludeFromSync : bool)
    (e : error) :
  reachable db →
  InsertEvent db event addState removeState transactionID excludeFromSync
    = Err e →
  e = ErrOutOfRange ∧
  ∃ c, stream_ids db !! "global"%string = Some c ∧ max_int64 ≤ c.
Proof.
  intros Hwf%reachable_wf Herr.
  pose proof Hwf as ((c & Hc & _) & _).
  destruct (decide (c + 1 ≤ max_int64)) as [Hle|Hgt].
  - destruct (InsertEvent_total db event addState removeState transactionID
                excludeFromSync c Hwf Hc Hle) as [a Ha].
    congruence.
  - unfold InsertEvent in Herr.
    destruct (StreamID.nextStreamID (stream_ids db)) as [[p ids]|e'] eqn:Hnext.
    + apply StreamIDFacts.nextStreamID_Ok in Hnext as (c' & Hc' & ? & _).
      assert (c' = c) by congruence. lia.
    + simpl in Herr. injection Herr as <-.
      unfold StreamID.nextStreamID, StreamID.increaseStreamIDStmt in Hnext.
      rewrite Hc in Hnext. rewrite decide_False in Hnext by done.
      simpl in Hnext. injection Hnext as <-.
      split; [done|]. exists c. split; [done | lia].
Qed.

Lemma repeatedLog_InsertEvent (c : Z) :
  c < max_int64 →
  InsertEvent (repeatedLog c) (exampleEvent "$1" "!r:hs") [] [] None false
  = Ok (c + 1, repeatedLog (c + 1)).
Proof.
  intros Hc.
  unfold InsertEvent, StreamID.nextStreamID, StreamID.increaseStreamIDStmt,
    StreamID.selectStreamIDStmt, repeatedLog.
  cbn [stream_ids output_room_events].
  rewrite lookup_singleton_eq, decide_True by lia.
  rewrite insert_singleton_eq. cbn [mbind result_bind].
  rewrite lookup_singleton_eq. reflexivity.
Qed.

Lemma repeatedLog_reachable (c : Z) :
  1 ≤ c ≤ max_int64 → reachable (repeatedLog c).
Proof.
  intros Hc. replace c with (1 + Z.of_nat (Z.to_nat (c - 1))) in * by lia.
  induction (Z.to_nat (c - 1)) as [|n IH].
  - eapply (reachable_InsertEvent init_db (exampleEvent "$1" "!r:hs") [] []
              None false 1); [apply reachable_init|].
    vm_compute. reflexivity.
  - eapply reachable_InsertEvent; [apply IH; lia|].
    rewrite repeatedLog_InsertEvent by lia.
    do 3 f_equal. lia.
Qed.

Lemma InsertEvent_fails_only_on_overflow_witness :
  reachable (repeatedLog max_int64) ∧
  InsertEvent (repeatedLog max_int64) (exampleEvent "$2" "!r:hs") [] [] None
    false = Err ErrOutOfRange ∧
  ∃ c, stream_ids (repeatedLog max_int64) !! "global"%string = Some c ∧
       max_int64 ≤ c.
Proof.
  assert (reachable (repeatedLog max_int64)) as Hreach.
  { apply repeatedLog_reachable. unfold max_int64. lia. }
  assert (InsertEvent (repeatedLog max_int64) (exampleEvent "$2" "!r:hs")
            [] [] None false = Err ErrOutOfRange) as Hins.
  { vm_compute. reflexivity. }
  split; [exact Hreach|]. split; [exact Hins|].
  exact (proj2 (InsertEvent_fails_only_on_overflow _ _ _ _ _ _ _
                  Hreach Hins)).
Defined.

(** *** Limits *)

Lemma take_sorted_or_before {A} (R : A → A → Prop) (n : nat) (l : list A)
    (x : A) :
  StronglySorted R l → x ∈ l →
  x ∈ take n l ∨ Forall (λ y, R y x) (take n l).
Proof.
  intros Hsorted Hx. rewrite <- (take_drop n l) in Hsorted, Hx.
  apply elem_of_app in Hx as [Hx|Hx]; [by left|]. right.
  apply Forall_forall. intros y Hy.
  by apply (StronglySorted_app_1_elem_of _ _ _ _ _ Hsorted).
Qed.

Lemma recentRows_match db roomID r limit onlySync rows :
  recentRows db roomID r limit onlySync = Ok rows →
  ∃ (n : nat) l,
    (∀ row, row ∈ l ↔
       row ∈ output_room_events db ∧
       recentMatch roomID (Low r) (High r) onlySync row) ∧
    rows = take n (order_by_id_desc l) ∧
    (0 ≤ limit → n = Z.to_nat limit) ∧
    (limit < 0 → rows = order_by_id_desc l).
Proof.
  unfold recentRows, selectRecentEventsForSyncSQL, selectRecentEventsSQL,
    recentMatch.
  destruct onlySync; intros (n & Hrows & Hn & Hall)%sql_limit_take;
    exists n; eexists; (split; [|split; [exact Hrows|by split]]);
    intros row; rewrite list_elem_of_filter; intuition congruence.
Qed.

(** X7. InsertEvent with excludeFromSync = true hides the event from
    sync, also when it was stored before as visible: in a log built by
    InsertEvent, after a successful call with excludeFromSync = true,
    SelectRecentEvents with onlySyncEvents = true returns no event with the
    inserted event's ID, for any room, range, limit and order. *)
Theorem InsertEvent_excluded_hidden_from_sync (db : DB)
    (event : HeaderedEvent) (addState removeState : list string)
    (transactionID : option api_TransactionID) (streamPos : Z) (db' : DB)
    (roomID : string) (r : Range) (limit : Z) (chronologicalOrder : bool)
    (evs : list StreamEvent) :
  reachable db →
  InsertEvent db event addState removeState transactionID true
    = Ok (streamPos, db') →
  SelectRecentEvents db' roomID r limit chronologicalOrder true = Ok evs →
  Forall (λ se, EventID (SE_HeaderedEvent se) ≠ EventID event) evs.
Proof.
  intros Hwf%reachable_wf Hins.
  pose proof (InsertEvent_wf _ _ _ _ _ _ _ _ Hwf Hins) as (_ & _ & _ & Hok).
  assert (Forall (λ row, event_id row = EventID event →
                         exclude_from_sync row = true)
            (output_room_events db')) as Hflag.
  { apply InsertEvent_Ok in Hins as (c & _ & _ & _ & _ & Hrows).
    destruct Hrows as [[_ ->]|(Hnin & _ & ->)].
    - apply Forall_fmap, Forall_forall. intros row _. simpl.
      unfold upsertRow. destruct (decide _); [done|].
      intros Heq. done.
    - apply Forall_app. split.
      + apply Forall_forall. intros row Hrow Heq. destruct Hnin.
        rewrite <- Heq. apply list_elem_of_fmap. by exists row.
      + by repeat constructor. }
  intros (rows & Hrows & ->)%SelectRecentEvents_Ok.
  apply recentRows_match in Hrows as (n & l & Hl & -> & _).
  assert (Forall (λ se, EventID (SE_HeaderedEvent se) ≠ EventID event)
            (rowsToStreamEvents (take n (order_by_id_desc l)))) as Hevs.
  { apply Forall_fmap, Forall_forall. intros row (i & Hi & _)%elem_of_take.
    apply list_elem_of_lookup_2 in Hi. unfold order_by_id_desc in Hi.
    rewrite SliceStable_Permutation in Hi.
    apply Hl in Hi as [Hrow [_ Hsync]]. simpl. intros Heq.
    rewrite Forall_forall in Hok, Hflag.
    destruct (Hok _ Hrow) as (_ & Hid & _).
    rewrite (Hflag _ Hrow) in Hsync; [by specialize (Hsync eq_refl)|].
    congruence. }
  destruct chronologicalOrder; [|done].
  by rewrite SliceStable_Permutation.
Qed.

(** Event "$4" of [logTwoRooms], stored as visible at position 4 of room
    "!r:hs", is inserted again as excluded from sync: the room's sync
    events are then those at positions 1 and 3. *)
Lemma InsertEvent_excluded_hidden_from_sync_witness :
  ∃ db' evs,
    InsertEvent logTwoRooms (exampleEvent "$4" "!r:hs") [] [] None true
      = Ok (6, db') ∧
    SelectRecentEvents db' "!r:hs" (fromTo 0 9) 10 true true = Ok evs ∧
    StreamPosition <$> evs = [1; 3] ∧
    Forall (λ se, EventID (SE_HeaderedEvent se) ≠ "$4"%string) evs.
Proof.
  do 2 eexists.
  split; [vm_compute; reflexivity|].
  split; [vm_compute; reflexivity|].
  split; [reflexivity|].
  eapply (InsertEvent_excluded_hidden_from_sync logTwoRooms
            (exampleEvent "$4" "!r:hs") [] [] None 6 _ "!r:hs" (fromTo 0 9)
            10 true);
    [apply exampleLog_reachable | vm_compute; reflexivity
    | vm_compute; reflexivity].
Defined.

(** X10. SelectRecentEvents returns the most recent events of the room in
    the range, up to the limit.  The call always returns; each event
    returned is the stream event of a stored entry of that room and range
    (and not excluded from sync, when only sync events are asked for), and
    every such entry that is left out is no more recent than any event
    returned.  With a limit that is not negative at most [limit] events are
    returned; a negative limit is handed to the statement as it is and
    bounds nothing: every such entry is returned. *)
Theorem SelectRecentEvents_most_recent (db : DB) (roomID : string)
    (r : Range) (limit : Z) (chronologicalOrder onlySyncEvents : bool) :
  ∃ evs,
    SelectRecentEvents db roomID r limit chronologicalOrder onlySyncEvents
      = Ok evs ∧
    (0 ≤ limit → Z.of_nat (length evs) ≤ limit) ∧
    (∀ se, se ∈ evs →
       ∃ row, row ∈ output_room_events db ∧
              recentMatch roomID (Low r) (High r) onlySyncEvents row ∧
              se = rowToStreamEvent row) ∧
    (∀ row, row ∈ output_room_events db →
       recentMatch roomID (Low r) (High r) onlySyncEvents row →
       rowToStreamEvent row ∈ evs ∨
       Forall (λ se, id row ≤ StreamPosition se) evs) ∧
    (limit < 0 →
     ∀ row, row ∈ output_room_events db →
       recentMatch roomID (Low r) (High r) onlySyncEvents row →
       rowToStreamEvent row ∈ evs).
Proof.
  destruct (recentRows_total db roomID r limit onlySyncEvents)
    as [rows Hrows].
  eexists. split; [apply SelectRecentEvents_Ok; eauto|].
  set (evs := if chronologicalOrder then _ else _).
  assert (evs ≡ₚ rowsToStreamEvents rows) as Hperm.
  { unfold evs. destruct chronologicalOrder; [|done].
    apply SliceStable_Permutation. }
  clearbody evs.
  apply recentRows_match in Hrows as (n & l & Hl & -> & Hn & Hall).
  split; [|split; [|split]].
  - intros Hlimit. rewrite Hperm. unfold rowsToStreamEvents.
    rewrite length_fmap, length_take, (Hn Hlimit). lia.
  - intros se Hse. rewrite Hperm in Hse.
    apply list_elem_of_fmap in Hse as (row & -> & Hrow).
    exists row. split; [|split; [|done]]; apply Hl;
      apply elem_of_take in Hrow as (i & Hi & _);
      apply list_elem_of_lookup_2 in Hi;
      unfold order_by_id_desc in Hi;
      by rewrite SliceStable_Permutation in Hi.
  - intros row Hrow Hmatch.
    assert (row ∈ order_by_id_desc l) as Hin.
    { unfold order_by_id_desc. rewrite SliceStable_Permutation.
      by apply Hl. }
    destruct (take_sorted_or_before (λ a b, id b ≤ id a) n
                _ row (SliceStable_desc_sorted id l) Hin) as [Htake|Hbefore].
    + left. rewrite Hperm. apply list_elem_of_fmap. by exists row.
    + right. rewrite Hperm. by apply Forall_fmap.
  - intros Hneg row Hrow Hmatch. rewrite Hperm, (Hall Hneg).
    apply list_elem_of_fmap. exists row. split; [done|].
    unfold order_by_id_desc. rewrite SliceStable_Permutation. by apply Hl.
Qed.

(** Room "!r:hs" of [logTwoRooms] holds positions 1, 3 and 4: limit 2
    gives the two most recent, limit -1 gives all three. *)
Lemma SelectRecentEvents_most_recent_witness :
  (∃ evs, SelectRecentEvents logTwoRooms "!r:hs" (fromTo 0 5) 2 true false
            = Ok evs ∧
          StreamPosition <$> evs = [3; 4] ∧ Z.of_nat (length evs) ≤ 2) ∧
  (∃ evs, SelectRecentEvents logTwoRooms "!r:hs" (fromTo 0 5) (-1) true false
            = Ok evs ∧
          StreamPosition <$> evs = [1; 3; 4] ∧
          rowToStreamEvent (exampleRow 1 "$1" [] []) ∈ evs).
Proof.
  split.
  - destruct (SelectRecentEvents_most_recent logTwoRooms "!r:hs" (fromTo 0 5)
                2 true false) as (evs & Hevs & Hlen & _).
    exists evs. split; [exact Hevs|].
    split; [|apply Hlen; lia].
    vm_compute in Hevs. by injection Hevs as <-.
  - destruct (SelectRecentEvents_most_recent logTwoRooms "!r:hs" (fromTo 0 5)
                (-1) true false) as (evs & Hevs & _ & _ & _ & Hall).
    exists evs. split; [exact Hevs|]. split.
    + vm_compute in Hevs. by injection Hevs as <-.
    + apply Hall; [lia | vm_compute; left |].
      repeat split; [cbn; lia.. | discriminate].
Defined.

(** X11. SelectEarlyEvents returns the earliest events of the room in the
    range, up to the limit.  The call always returns; each event returned
    is the stream event of a stored entry of that room and range, and every
    such entry that is left out is no earlier than any event returned.
    With a limit that is not negative at most [limit] events are returned;
    a negative limit bounds nothing: every such entry is returned. *)
Theorem SelectEarlyEvents_earliest (db : DB) (roomID : string) (r : Range)
    (limit : Z) :
  ∃ evs,
    SelectEarlyEvents db roomID r limit = Ok evs ∧
    (0 ≤ limit → Z.of_nat (length evs) ≤ limit) ∧
    (∀ se, se ∈ evs →
       ∃ row, row ∈ output_room_events db ∧
              in_room_range roomID (Low r) (High r) row ∧
              se = rowToStreamEvent row) ∧
    (∀ row, row ∈ output_room_events db →
       in_room_range roomID (Low r) (High r) row →
       rowToStreamEvent row ∈ evs ∨
       Forall (λ se, StreamPosition se ≤ id row) evs) ∧
    (limit < 0 →
     ∀ row, row ∈ output_room_events db →
       in_room_range roomID (Low r) (High r) row →
       rowToStreamEvent row ∈ evs).
Proof.
  destruct (sql_limit_total limit
              (order_by_id_asc (filter (in_room_range roomID (Low r) (High r))
                                       (output_room_events db))))
    as [rows Hrows].
  eexists. split; [apply SelectEarlyEvents_Ok; eauto|].
  apply sql_limit_take in Hrows as (n & -> & Hn & Hall).
  set (l := filter _ _) in *.
  split; [|split; [|split]].
  - intros Hlimit. rewrite SliceStable_length. unfold rowsToStreamEvents.
    rewrite length_fmap, length_take, (Hn Hlimit). lia.
  - intros se Hse. rewrite SliceStable_Permutation in Hse.
    apply list_elem_of_fmap in Hse as (row & -> & Hrow).
    apply elem_of_take in Hrow as (i & Hi & _).
    apply list_elem_of_lookup_2 in Hi.
    unfold order_by_id_asc in Hi. rewrite SliceStable_Permutation in Hi.
    apply list_elem_of_filter in Hi as [? ?]. by exists row.
  - intros row Hrow Hmatch.
    assert (row ∈ order_by_id_asc l) as Hin.
    { unfold order_by_id_asc. rewrite SliceStable_Permutation.
      by apply list_elem_of_filter. }
    destruct (take_sorted_or_before (λ a b, id a ≤ id b) n
                _ row (SliceStable_asc_sorted id l) Hin) as [Htake|Hbefore].
    + left. rewrite SliceStable_Permutation.
      apply list_elem_of_fmap. by exists row.
    + right. rewrite SliceStable_Permutation. by apply Forall_fmap.
  - intros Hneg row Hrow Hmatch. rewrite SliceStable_Permutation.
    apply list_elem_of_fmap. exists row. split; [done|].
    rewrite (Hall Hneg). unfold order_by_id_asc.
    rewrite SliceStable_Permutation. by apply list_elem_of_filter.
Qed.

(** Room "!r:hs" of [logTwoRooms] holds positions 1, 3 and 4: limit 2
    gives the two earliest, limit -1 gives all three. *)
Lemma SelectEarlyEvents_earliest_witness :
  (∃ evs, SelectEarlyEvents logTwoRooms "!r:hs" (fromTo 0 5) 2 = Ok evs ∧
          StreamPosition <$> evs = [1; 3] ∧ Z.of_nat (length evs) ≤ 2) ∧
  (∃ evs, SelectEarlyEvents logTwoRooms "!r:hs" (fromTo 0 5) (-1) = Ok evs ∧
          StreamPosition <$> evs = [1; 3; 4] ∧
          rowToStreamEvent (exampleRow 4 "$4" [] []) ∈ evs).
Proof.
  split.
  - destruct (SelectEarlyEvents_earliest logTwoRooms "!r:hs" (fromTo 0 5) 2)
      as (evs & Hevs & Hlen & _).
    exists evs. split; [exact Hevs|].
    split; [|apply Hlen; lia].
    vm_compute in Hevs. by injection Hevs as <-.
  - destruct (SelectEarlyEvents_earliest logTwoRooms "!r:hs" (fromTo 0 5)
                (-1)) as (evs & Hevs & _ & _ & _ & Hall).
    exists evs. split; [exact Hevs|]. split.
    + vm_compute in Hevs. by injection Hevs as <-.
    + apply Hall; [lia | vm_compute; do 3 right; left |].
      repeat split; cbn; lia.
Defined.

Lemma SliceStable_snoc_first {A} (less : A → A → bool) (l : list A) (x : A) :
  Forall (λ y, less x y = true) l →
  SliceStable less (l ++ [x]) = x :: SliceStable less l.
Proof.
  induction 1 as [|y l Hy _ IH]; [done|].
  simpl. rewrite IH. simpl. by rewrite Hy.
Qed.

(** X12. In a log built by InsertEvent, an event whose ID was new is, once
    inserted, the first event SelectRecentEvents returns newest-first for
    its room, for every range that contains the position InsertEvent
    returned and every limit of at least one (unless only sync events are
    asked for and it was inserted as excluded from sync). *)
Theorem InsertEvent_newest_first (db : DB) (event : HeaderedEvent)
    (addState removeState : list string)
    (transactionID : option api_TransactionID) (excludeFromSync : bool)
    (streamPos : Z) (db' : DB) (r : Range) (limit : Z)
    (onlySyncEvents : bool) :
  reachable db →
  EventID event ∉ event_id <$> output_room_events db →
  InsertEvent db event addState removeState transactionID excludeFromSync
    = Ok (streamPos, db') →
  Low r < streamPos → streamPos ≤ High r → 1 ≤ limit →
  (onlySyncEvents = true → excludeFromSync = false) →
  ∃ rest,
    SelectRecentEvents db' (RoomID event) r limit false onlySyncEvents
    = Ok (storedStreamEvent streamPos event transactionID excludeFromSync
            :: rest).
Proof.
  intros ((c & Hc & Hbound) & _)%reachable_wf Hnew Hins Hlo Hhi Hlimit Hsync.
  apply InsertEvent_Ok in Hins as (c' & Hc' & _ & -> & _ & Hrows).
  assert (c' = c) as -> by congruence.
  destruct Hrows as [[Hin _]|(_ & _ & Hrows)]; [done|].
  set (new := newRow (c + 1) event addState removeState transactionID
                excludeFromSync) in *.
  assert (∀ (P : Row → Prop) `{!∀ x, Decision (P x)}, P new →
            ∃ rows', sql_limit limit
                       (order_by_id_desc (filter P (output_room_events db')))
                     = Ok (new :: rows')) as Hscan.
  { intros P HP Hnewrow. rewrite Hrows, filter_app, filter_cons.
    rewrite decide_True by done. rewrite filter_nil.
    unfold order_by_id_desc. rewrite SliceStable_snoc_first.
    - eexists. apply sql_limit_Ok. rewrite decide_False by lia.
      replace (Z.to_nat limit) with (S (Z.to_nat (limit - 1))) by lia.
      reflexivity.
    - apply Forall_forall. intros y [_ Hy]%list_elem_of_filter.
      rewrite Forall_forall in Hbound. specialize (Hbound _ Hy).
      simpl. lia. }
  assert (rowToStreamEvent new
          = storedStreamEvent (c + 1) event transactionID excludeFromSync)
    as Hse.
  { unfold rowToStreamEvent, storedStreamEvent, new. simpl.
    by rewrite transactionID_round_trip. }
  assert (in_room_range (RoomID event) (Low r) (High r) new) as Hrange.
  { unfold in_room_range, new. simpl. done. }
  destruct onlySyncEvents.
  - destruct (Hscan (λ r0, in_room_range (RoomID event) (Low r) (High r) r0 ∧
                           exclude_from_sync r0 = false) _) as [rows' Hrows'].
    { split; [done|]. by apply Hsync. }
    exists (rowsToStreamEvents rows'). apply SelectRecentEvents_Ok.
    exists (new :: rows'). split; [exact Hrows'|]. simpl. by rewrite Hse.
  - destruct (Hscan (in_room_range (RoomID event) (Low r) (High r)) _ Hrange)
      as [rows' Hrows'].
    exists (rowsToStreamEvents rows'). apply SelectRecentEvents_Ok.
    exists (new :: rows'). split; [exact Hrows'|]. simpl. by rewrite Hse.
Qed.

Lemma InsertEvent_newest_first_witness :
  ∃ db' rest,
    InsertEvent logTwoRooms (exampleEvent "$6" "!r:hs") [] [] None false
      = Ok (6, db') ∧
    SelectRecentEvents db' "!r:hs" (fromTo 2 9) 2 false true
    = Ok (storedStreamEvent 6 (exampleEvent "$6" "!r:hs") None false :: rest).
Proof.
  assert (∃ db', InsertEvent logTwoRooms (exampleEvent "$6" "!r:hs") [] []
                   None false = Ok (6, db')) as [db' Hins]
    by (eexists; vm_compute; reflexivity).
  destruct (InsertEvent_newest_first logTwoRooms (exampleEvent "$6" "!r:hs")
              [] [] None false 6 db' (fromTo 2 9) 2 true) as [rest Hrest].
  - apply exampleLog_reachable.
  - vm_compute. intros Hin.
    repeat (apply elem_of_cons in Hin as [Hin|Hin]; [discriminate|]).
    by apply elem_of_nil in Hin.
  - exact Hins.
  - vm_compute. reflexivity.
  - vm_compute. discriminate.
  - lia.
  - done.
  - by exists db', rest.
Defined.

(** *** What SelectStateInRange returns *)

Lemma stateInRangeRow_Ok acc r acc' :
  stateInRangeRow acc r = Ok acc' →
  ∃ needSet,
    acc' = (<[RoomID (headered_event_json r) := needSet]> acc.1,
            <[EventID (headered_event_json r) := stateStreamEvent r]> acc.2).
Proof.
  unfold stateInRangeRow, scanStateIDs.
  destruct (add_state_ids r); [|discriminate].
  destruct (remove_state_ids r); [|discriminate].
  simpl. intros [= <-]. by eexists.
Qed.

Lemma stateInRangeRows_domains rows : ∀ acc acc',
  stateInRangeRows rows acc = Ok acc' →
  (∀ room, is_Some (acc'.1 !! room) ↔
           is_Some (acc.1 !! room) ∨
           ∃ row, row ∈ rows ∧ RoomID (headered_event_json row) = room) ∧
  (∀ e, is_Some (acc'.2 !! e) ↔
        is_Some (acc.2 !! e) ∨
        ∃ row, row ∈ rows ∧ EventID (headered_event_json row) = e) ∧
  (∀ e se, acc'.2 !! e = Some se →
           acc.2 !! e = Some se ∨
           ∃ row, row ∈ rows ∧ EventID (headered_event_json row) = e ∧
                  se = stateStreamEvent row).
Proof.
  induction rows as [|r rows IH]; intros acc acc' Hrun; simpl in Hrun.
  - injection Hrun as <-.
    repeat split; try (intros [?|(? & []%elem_of_nil & _)]; done); auto.
  - apply bind_Ok in Hrun as (acc1 & Hstep & Hrun).
    destruct (IH _ _ Hrun) as (Hneed & Hdom & Hevs).
    apply stateInRangeRow_Ok in Hstep as (needSet & ->). simpl in *.
    split; [|split].
    + intros room. rewrite Hneed, lookup_insert_is_Some.
      split.
      * intros [[<-|[_ ?]]|(row & ? & ?)]; [right|by left|right].
        -- exists r. split; [by left | done].
        -- exists row. split; [by right | done].
      * intros [?|(row & [->|?]%elem_of_cons & <-)].
        -- left. destruct (decide (RoomID (headered_event_json r) = room));
             [by left | by right].
        -- left. by left.
        -- right. by exists row.
    + intros e. rewrite Hdom, lookup_insert_is_Some.
      split.
      * intros [[<-|[_ ?]]|(row & ? & ?)]; [right|by left|right].
        -- exists r. split; [by left | done].
        -- exists row. split; [by right | done].
      * intros [?|(row & [->|?]%elem_of_cons & <-)].
        -- left. destruct (decide (EventID (headered_event_json r) = e));
             [by left | by right].
        -- left. by left.
        -- right. by exists row.
    + intros e se [Hacc|(row & ? & ? & ?)]%Hevs.
      * destruct (decide (EventID (headered_event_json r) = e)) as [<-|Hne].
        -- rewrite lookup_insert_eq in Hacc. injection Hacc as <-.
           right. exists r. split; [by left | done].
        -- rewrite lookup_insert_ne in Hacc by done. by left.
      * right. exists row. split; [by right | done].
Qed.

(** X13. When SelectStateInRange returns, the rooms that have a needed-
    state set are exactly the rooms of the entries it scanned, the keys of
    the event map are exactly the event IDs of those entries, and every
    event in the map is the event of a scanned entry with its position,
    which lies in the range, its exclude-from-sync flag, and no transaction
    ID. *)
Theorem SelectStateInRange_maps (db : DB) (r : Range) (limit : Z)
    (need : StateNeeded) (evs : EventIDToEvent) :
  SelectStateInRange db r limit = Ok (need, evs) →
  ∃ rows,
    stateRows db r limit = Ok rows ∧
    (∀ row, row ∈ rows →
       row ∈ output_room_events db ∧ Low r < id row ∧ id row ≤ High r) ∧
    (∀ room, is_Some (need !! room) ↔
             ∃ row, row ∈ rows ∧ RoomID (headered_event_json row) = room) ∧
    (∀ e, is_Some (evs !! e) ↔
          ∃ row, row ∈ rows ∧ EventID (headered_event_json row) = e) ∧
    (∀ e se, evs !! e = Some se →
             ∃ row, row ∈ rows ∧ EventID (headered_event_json row) = e ∧
                    se = stateStreamEvent row).
Proof.
  unfold SelectStateInRange, stateRows. intros (rows & Hrows & Hrun)%bind_Ok.
  exists rows. split; [done|].
  destruct (stateInRangeRows_domains _ _ _ Hrun) as (Hneed & Hdom & Hevs).
  simpl in *. split; [|split; [|split]].
  - apply sql_limit_take in Hrows as (n & -> & _).
    intros row (i & Hi & _)%elem_of_take.
    apply list_elem_of_lookup_2 in Hi. unfold order_by_id_asc in Hi.
    rewrite SliceStable_Permutation in Hi.
    apply list_elem_of_filter in Hi as [[[? ?] _] ?]. done.
  - intros room. rewrite Hneed, lookup_empty. split; [|by right].
    intros [[? [=]]|?]; done.
  - intros e. rewrite Hdom, lookup_empty. split; [|by right].
    intros [[? [=]]|?]; done.
  - intros e se [Hempty|?]%Hevs; [|done].
    by rewrite lookup_empty in Hempty.
Qed.

Lemma SelectStateInRange_maps_witness :
  ∃ need evs,
    SelectStateInRange logAddRemoveAdd (fromTo 1 3) 10 = Ok (need, evs) ∧
    evs !! "$1"%string = None ∧
    evs !! "$3"%string
    = Some (stateStreamEvent (exampleRow 3 "$3" ["$x"%string] [])) ∧
    is_Some (need !! "!r:hs"%string).
Proof.
  assert (∃ need evs, SelectStateInRange logAddRemoveAdd (fromTo 1 3) 10
                      = Ok (need, evs)) as (need & evs & Hsel)
    by (do 2 eexists; vm_compute; reflexivity).
  destruct (SelectStateInRange_maps _ _ _ _ _ Hsel)
    as (rows & Hrows & _ & Hneed & _ & _).
  exists need, evs. split; [exact Hsel|].
  vm_compute in Hrows. injection Hrows as <-.
  split; [|split].
  - vm_compute in Hsel. injection Hsel as _ <-. vm_compute. reflexivity.
  - vm_compute in Hsel. injection Hsel as _ <-. vm_compute. reflexivity.
  - apply Hneed. eexists. split; [by left | reflexivity].
Defined.

Lemma stateInRangeRows_flag_origin rows room x b : ∀ acc acc',
  stateInRangeRows rows acc = Ok acc' →
  neededFlag acc'.1 room x = Some b →
  neededFlag acc.1 room x = Some b ∨
  ∃ row, row ∈ rows ∧ RoomID (headered_event_json row) = room ∧
         rowFlag x row = Some b.
Proof.
  induction rows as [|r rows IH]; intros acc acc' Hrun Hflag; simpl in Hrun.
  - injection Hrun as <-. by left.
  - apply bind_Ok in Hrun as (acc1 & Hstep & Hrun).
    destruct (IH _ _ Hrun Hflag) as [Hacc1|(row & ? & ? & ?)].
    + rewrite (stateInRangeRow_flag _ _ _ room x Hstep) in Hacc1.
      destruct (decide _) as [Hroom|]; [|by left].
      destruct (rowFlag x r) as [b'|] eqn:Hr; [|by left].
      right. exists r. split; [by left|]. split; [done | congruence].
    + right. exists row. split; [by right | done].
Qed.

Lemma rowFlag_Some x r b :
  rowFlag x r = Some b →
  if b then addsState r x else removesState r x.
Proof.
  unfold rowFlag, addsState, removesState.
  destruct (add_state_ids r) as [addIDs|]; [|discriminate].
  destruct (remove_state_ids r) as [delIDs|]; [|discriminate].
  destruct (decide (x ∈ addIDs)); [intros [= <-]; eauto|].
  destruct (decide (x ∈ delIDs)); [intros [= <-]; eauto | discriminate].
Qed.

(** X14. SelectStateInRange invents no state: an event ID it marks as
    needed in a room was listed as added by a scanned entry of that room,
    and one it marks as not needed was listed as removed by one. *)
Theorem SelectStateInRange_flags_come_from_entries (db : DB) (r : Range)
    (limit : Z) (need : StateNeeded) (evs : EventIDToEvent)
    (room x : string) (b : bool) :
  SelectStateInRange db r limit = Ok (need, evs) →
  neededFlag need room x = Some b →
  ∃ row, row ∈ output_room_events db ∧ Low r < id row ∧ id row ≤ High r ∧
         RoomID (headered_event_json row) = room ∧
         if b then addsState row x else removesState row x.
Proof.
  unfold SelectStateInRange. intros (rows & Hrows & Hrun)%bind_Ok Hflag.
  destruct (stateInRangeRows_flag_origin _ _ _ _ _ _ Hrun Hflag)
    as [Hempty|(row & Hrow & Hroom & Hrowflag)].
  { unfold neededFlag in Hempty. simpl in Hempty.
    by rewrite lookup_empty in Hempty. }
  exists row.
  apply sql_limit_take in Hrows as (n & -> & _).
  apply elem_of_take in Hrow as (i & Hi & _).
  apply list_elem_of_lookup_2 in Hi. unfold order_by_id_asc in Hi.
  rewrite SliceStable_Permutation in Hi.
  apply list_elem_of_filter in Hi as [[[? ?] _] ?].
  repeat (split; [done|]). by apply rowFlag_Some.
Qed.

Lemma SelectStateInRange_flags_come_from_entries_witness :
  ∃ row, row ∈ output_room_events logAddRemove ∧
         RoomID (headered_event_json row) = "!r:hs"%string ∧
         removesState row "$x".
Proof.
  assert (∃ need evs, SelectStateInRange logAddRemove (fromTo 0 2) 10
                      = Ok (need, evs) ∧
                      neededFlag need "!r:hs" "$x" = Some false)
    as (need & evs & Hsel & Hflag)
    by (do 2 eexists; split; vm_compute; reflexivity).
  destruct (SelectStateInRange_flags_come_from_entries _ _ _ _ _ _ _ _
              Hsel Hflag) as (row & ? & _ & _ & ? & ?).
  by exists row.
Defined.

End OutputRoomEventsFacts.

(** ** The rooms table *)

Module RoomsFacts.
Import Rooms.

Section facts.
Variable eventNIDsAsArray : list Z → string.
Local Abbreviation exec := (Rooms.exec eventNIDsAsArray) (only parsing).
Local Abbreviation execAll := (Rooms.execAll eventNIDsAsArray) (only parsing).
Local Abbreviation InsertRoomNID_among :=
  (Rooms.InsertRoomNID_among eventNIDsAsArray) (only parsing).
Local Abbreviation UpdateLatestEventNIDs :=
  (Rooms.UpdateLatestEventNIDs eventNIDsAsArray) (only parsing).

(** *** Facts about the rooms table *)

Lemma queryRowByRoomID_Ok roomID rows r :
  queryRowByRoomID roomID rows = Ok r →
  r ∈ rows ∧ room_id r = roomID.
Proof.
  induction rows as [|r' rows IH]; simpl; [discriminate|].
  destruct (decide (room_id r' = roomID)) as [Heq|Hne].
  - intros [= <-]. split; [by left | done].
  - intros [? ?]%IH. split; [by right | done].
Qed.

Lemma queryRowByRoomID_app roomID rows rows' r :
  queryRowByRoomID roomID rows = Ok r →
  queryRowByRoomID roomID (rows ++ rows') = Ok r.
Proof.
  induction rows as [|r' rows IH]; simpl; [discriminate|].
  by destruct (decide (room_id r' = roomID)).
Qed.

Lemma queryRowByRoomID_app_new roomID rows r :
  roomID ∉ room_id <$> rows → room_id r = roomID →
  queryRowByRoomID roomID (rows ++ [r]) = Ok r.
Proof.
  intros Hnin Hr. induction rows as [|r' rows IH]; simpl.
  - by rewrite decide_True.
  - apply not_elem_of_cons in Hnin as [Hne Hnin].
    rewrite decide_False by done. by apply IH.
Qed.

Lemma queryRowByRoomID_fmap roomID (f : Row → Row) rows r :
  (∀ r', room_id (f r') = room_id r') →
  queryRowByRoomID roomID rows = Ok r →
  queryRowByRoomID roomID (f <$> rows) = Ok (f r).
Proof.
  intros Hf. induction rows as [|r' rows IH]; simpl; [discriminate|].
  rewrite Hf. destruct (decide (room_id r' = roomID)); [|done].
  by intros [= <-].
Qed.

(** The row the insert appends for a new room. *)
Local Abbreviation newRoom nid roomID roomVersion :=
  {| room_nid := nid; room_id := roomID;
     latest_event_nids := Text "[]"; last_event_sent_nid := Int64 0;
     state_snapshot_nid := Int64 0; room_version := roomVersion |}
  (only parsing).

(** The insert succeeds exactly while the counter has a next value, which
    it takes; it stores a row only for a room ID that is new. *)
Lemma insertRoomNIDSQL_Ok roomID roomVersion t t' :
  insertRoomNIDSQL roomID roomVersion t = Ok t' ↔
  room_nid_seq t < max_int64 ∧
  room_nid_seq t' = room_nid_seq t + 1 ∧
  ((((roomID ∈ room_id <$> rooms t) ∨
     (room_nid_seq t + 1 ∈ room_nid <$> rooms t)) ∧ rooms t' = rooms t) ∨
   ((roomID ∉ room_id <$> rooms t) ∧
    (room_nid_seq t + 1 ∉ room_nid <$> rooms t) ∧
    rooms t' = rooms t ++ [newRoom (room_nid_seq t + 1) roomID roomVersion])).
Proof.
  unfold insertRoomNIDSQL. cbv zeta. destruct t' as [rows' seq']. simpl.
  destruct (decide (max_int64 < _)).
  { split; [discriminate|]. intros [? _]. lia. }
  destruct (decide (roomID ∈ _)) as [Hin|Hnin].
  { split.
    - intros [= <- <-]. split; [lia|]. split; [done|]. left. tauto.
    - intros (_ & -> & [[_ ->]|(? & _)]); done. }
  destruct (decide (_ ∈ _)) as [Hpk|Hfresh].
  { split.
    - intros [= <- <-]. split; [lia|]. split; [done|]. left. tauto.
    - intros (_ & -> & [[_ ->]|(_ & ? & _)]); done. }
  split.
  - intros [= <- <-]. split; [lia|]. split; [done|]. right. done.
  - intros (_ & -> & [[[?|?] _]|(_ & _ & ->)]); done.
Qed.

Lemma insertRoomNIDSQL_Err roomID roomVersion t e :
  insertRoomNIDSQL roomID roomVersion t = Err e ↔
  max_int64 ≤ room_nid_seq t ∧ e = ErrOutOfRange.
Proof.
  unfold insertRoomNIDSQL. cbv zeta.
  destruct (decide (max_int64 < _)).
  { split; [intros [= <-]; split; [lia | done]|]. by intros [_ ->]. }
  split; [by repeat destruct (decide _)|]. intros [? _]. lia.
Qed.

(** The row of a room ID, once stored, keeps its place as the row of that
    room ID, and its room_nid, room_id and room_version, whatever statement
    runs. *)
Lemma exec_keeps_room s t t' roomID r :
  queryRowByRoomID roomID (rooms t) = Ok r →
  exec s t = Ok t' →
  ∃ r', queryRowByRoomID roomID (rooms t') = Ok r' ∧
        room_nid r' = room_nid r ∧ room_id r' = room_id r ∧
        room_version r' = room_version r.
Proof.
  intros Hr. destruct s as [roomID' v|roomNID nids last snapshot]; simpl.
  - intros (_ & _ & [[_ ->]|(_ & _ & ->)])%insertRoomNIDSQL_Ok;
      exists r; [done|]. by rewrite (queryRowByRoomID_app _ _ _ r).
  - unfold Rooms.UpdateLatestEventNIDs. intros [= <-]. simpl.
    eexists. split.
    + apply queryRowByRoomID_fmap; [|done].
      intros r'. by destruct (decide _).
    + by destruct (decide _).
Qed.

Lemma execAll_keeps_room ss : ∀ t t' roomID r,
  queryRowByRoomID roomID (rooms t) = Ok r →
  execAll ss t = Ok t' →
  ∃ r', queryRowByRoomID roomID (rooms t') = Ok r' ∧
        room_nid r' = room_nid r ∧ room_id r' = room_id r ∧
        room_version r' = room_version r.
Proof.
  induction ss as [|s ss IH]; intros t t' roomID r Hr Hrun; simpl in Hrun.
  - injection Hrun as <-. by exists r.
  - apply bind_Ok in Hrun as (t1 & Hs & Hrun).
    destruct (exec_keeps_room _ _ _ _ _ Hr Hs) as (r1 & Hr1 & <- & <- & <-).
    by eapply IH.
Qed.

(** The insert for a room ID that is stored: no row changes, and the
    counter moves on, or is exhausted. *)
Lemma insertRoomNIDSQL_existing roomID roomVersion t r :
  queryRowByRoomID roomID (rooms t) = Ok r →
  insertRoomNIDSQL roomID roomVersion t
  = if decide (room_nid_seq t < max_int64)
    then Ok {| rooms := rooms t; room_nid_seq := room_nid_seq t + 1 |}
    else Err ErrOutOfRange.
Proof.
  intros [Hin Hid]%queryRowByRoomID_Ok. unfold insertRoomNIDSQL. cbv zeta.
  destruct (decide (max_int64 < _)).
  { by rewrite decide_False by lia. }
  rewrite (decide_True (P := room_nid_seq t < max_int64)) by lia.
  rewrite decide_True; [done|].
  apply list_elem_of_fmap. by exists r.
Qed.

Lemma InsertRoomNID_among_nil t roomID roomVersion :
  InsertRoomNID_among [] [] t roomID roomVersion
  = InsertRoomNID t roomID roomVersion.
Proof.
  unfold Rooms.InsertRoomNID_among, InsertRoomNID. simpl.
  by destruct (insertRoomNIDSQL roomID roomVersion t).
Qed.

Lemma InsertRoomNID_among_Ok before between t roomID roomVersion nid t' :
  InsertRoomNID_among before between t roomID roomVersion = Ok (nid, t') →
  ∃ r, queryRowByRoomID roomID (rooms t') = Ok r ∧ room_nid r = nid.
Proof.
  unfold Rooms.InsertRoomNID_among, SelectRoomNID, selectRoomNIDSQL.
  intros (t0 & _ & H)%bind_Ok. apply bind_Ok in H as (t1 & _ & H).
  apply bind_Ok in H as (t2 & _ & H). apply bind_Ok in H as (n & H & [= <- <-]).
  apply bind_Ok in H as (r & Hr & [= <-]). by exists r.
Qed.

(** C6. InsertRoomNID is its insert followed by its select, and the
    statements of other callers may run before either.  Take any call for a
    room ID that returns a RoomNID, alone or interleaved in this way.  From
    then on every call of InsertRoomNID with that room ID and any room
    version that returns, repeated or interleaved with other statements,
    returns the same RoomNID, and the stored room version is never
    overwritten.  A repeated call stores nothing and changes no row; its
    insert takes a value of the room NID counter all the same, and the call
    returns the same RoomNID as long as the counter has a value to take. *)
Theorem InsertRoomNID_converges (before between : list statement)
    (t : table) (roomID roomVersion : string) (nid : Z) (t1 : table) :
  InsertRoomNID_among before between t roomID roomVersion = Ok (nid, t1) →
  (∀ before' between' roomVersion' nid' t2,
     InsertRoomNID_among before' between' t1 roomID roomVersion'
       = Ok (nid', t2) →
     nid' = nid ∧
     SelectRoomVersionForRoomID t2 roomID
       = SelectRoomVersionForRoomID t1 roomID) ∧
  is_Ok (SelectRoomVersionForRoomID t1 roomID) ∧
  (∀ roomVersion',
     InsertRoomNID t1 roomID roomVersion'
     = if decide (room_nid_seq t1 < max_int64)
       then Ok (nid, {| rooms := rooms t1;
                        room_nid_seq := room_nid_seq t1 + 1 |})
       else Err ErrOutOfRange) ∧
  (∀ t0 roomID0 roomVersion0,
     InsertRoomNID t0 roomID0 roomVersion0
     = InsertRoomNID_among [] [] t0 roomID0 roomVersion0).
Proof.
  intros (r & Hr & <-)%InsertRoomNID_among_Ok.
  split; [|split; [|split]].
  - intros before' between' v' nid' t2 Hcall.
    pose proof Hcall as (r2 & Hr2 & <-)%InsertRoomNID_among_Ok.
    unfold Rooms.InsertRoomNID_among in Hcall.
    apply bind_Ok in Hcall as (ta & Hbefore & Hcall).
    apply bind_Ok in Hcall as (tb & Hins & Hcall).
    apply bind_Ok in Hcall as (tc & Hbetween & Hcall).
    apply bind_Ok in Hcall as (n & _ & [= _ <-]).
    destruct (execAll_keeps_room _ _ _ _ _ Hr Hbefore)
      as (ra & Hra & Hnid_a & _ & Hver_a).
    destruct (exec_keeps_room (StmtInsertRoomNID roomID v') _ _ _ _ Hra Hins)
      as (rb & Hrb & Hnid_b & _ & Hver_b).
    destruct (execAll_keeps_room _ _ _ _ _ Hrb Hbetween)
      as (rc & Hrc & Hnid_c & _ & Hver_c).
    assert (rc = r2) as -> by congruence.
    split; [congruence|].
    unfold SelectRoomVersionForRoomID, selectRoomVersionForRoomIDSQL.
    rewrite Hr2, Hr. simpl. congruence.
  - unfold SelectRoomVersionForRoomID, selectRoomVersionForRoomIDSQL.
    rewrite Hr. by eexists.
  - intros v'. unfold InsertRoomNID.
    rewrite (insertRoomNIDSQL_existing _ _ _ r Hr).
    destruct (decide _); [|done]. simpl.
    unfold SelectRoomNID, selectRoomNIDSQL. simpl. by rewrite Hr.
  - intros t0 roomID0 v0. symmetry. apply InsertRoomNID_among_nil.
Qed.


End facts.

(** [exampleRooms] is built by these statements: the third finds "!r:hs"
    stored and uses up the counter value 3. *)
Lemma exampleRooms_built :
  Rooms.execAll exampleEncoding
    [StmtInsertRoomNID "!other:hs" "1"; StmtInsertRoomNID "!r:hs" "1";
     StmtInsertRoomNID "!r:hs" "2"] roomsSchema
  = Ok exampleRooms.
Proof. vm_compute. reflexivity. Qed.

(** A call for "!r:hs" among the statements of other callers, one of
    them an insert for the same room with another version, builds
    [exampleRooms]; a call repeated on it returns NID 2 again and moves the
    counter to 4. *)
Lemma InsertRoomNID_converges_witness :
  Rooms.InsertRoomNID_among exampleEncoding
    [StmtInsertRoomNID "!other:hs" "1"]
    [StmtInsertRoomNID "!r:hs" "2"]
    roomsSchema "!r:hs" "1"
  = Ok (2, exampleRooms) ∧
  (∀ roomVersion',
     InsertRoomNID exampleRooms "!r:hs" roomVersion'
     = Ok (2, {| rooms := rooms exampleRooms; room_nid_seq := 4 |})) ∧
  SelectRoomVersionForRoomID exampleRooms "!r:hs" = Ok "1"%string.
Proof.
  assert (Rooms.InsertRoomNID_among exampleEncoding
            [StmtInsertRoomNID "!other:hs" "1"]
            [StmtInsertRoomNID "!r:hs" "2"]
            roomsSchema "!r:hs" "1"
          = Ok (2, exampleRooms)) as Hcall
    by (vm_compute; reflexivity).
  destruct (InsertRoomNID_converges exampleEncoding _ _ _ _ _ _ _ Hcall)
    as (_ & _ & Hrepeat & _).
  split; [exact Hcall|]. split; [|vm_compute; reflexivity].
  intros v'. rewrite Hrepeat. reflexivity.
Defined.


(** *** Keys, reads and updates *)

Section more_facts.
Variable eventNIDsAsArray : list Z → string.
Variable json_Unmarshal : string → result (list Z).
Variable strconv_ParseInt : string → result Z.
Local Abbreviation exec := (Rooms.exec eventNIDsAsArray).
Local Abbreviation execAll := (Rooms.execAll eventNIDsAsArray).
Local Abbreviation UpdateLatestEventNIDs :=
  (Rooms.UpdateLatestEventNIDs eventNIDsAsArray).
Local Abbreviation SelectLatestEventNIDs :=
  (Rooms.SelectLatestEventNIDs json_Unmarshal strconv_ParseInt).
Local Abbreviation SelectLatestEventsNIDsForUpdate :=
  (Rooms.SelectLatestEventsNIDsForUpdate json_Unmarshal strconv_ParseInt).

Lemma roomsSchema_wf : rooms_wf roomsSchema.
Proof. repeat split; constructor. Qed.

Lemma update_keeps_columns {B} (f : Row → B) arg1 arg2 arg3 arg4
    (t : table) :
  (∀ r latest' last' snapshot',
     f {| room_nid := room_nid r; room_id := room_id r;
          latest_event_nids := latest'; last_event_sent_nid := last';
          state_snapshot_nid := snapshot';
          room_version := room_version r |} = f r) →
  f <$> rooms (updateLatestEventNIDsSQL arg1 arg2 arg3 arg4 t)
  = f <$> rooms t.
Proof.
  intros Hf. unfold updateLatestEventNIDsSQL. simpl.
  rewrite <- list_fmap_compose. apply list_fmap_ext.
  intros _ r _. simpl. destruct (decide _); [apply Hf | done].
Qed.

Lemma exec_wf s t t' : rooms_wf t → exec s t = Ok t' → rooms_wf t'.
Proof.
  intros (Hnid & Hid & Hseq).
  destruct s as [roomID v|roomNID nids last snapshot]; simpl.
  - intros (_ & Hseq' & Hrows)%insertRoomNIDSQL_Ok. unfold rooms_wf.
    rewrite Hseq'. destruct Hrows as [[_ ->]|(Hroom & Hfresh & ->)].
    + split; [done|]. split; [done|].
      eapply Forall_impl; [exact Hseq|]. simpl. lia.
    + rewrite !fmap_app. simpl. split; [|split].
      * apply NoDup_app. split; [done|]. split; [|apply NoDup_singleton].
        intros x Hx ->%list_elem_of_singleton. done.
      * apply NoDup_app. split; [done|]. split; [|apply NoDup_singleton].
        intros x Hx ->%list_elem_of_singleton. done.
      * apply Forall_app. split.
        -- eapply Forall_impl; [exact Hseq|]. simpl. lia.
        -- repeat constructor. simpl. lia.
  - unfold Rooms.UpdateLatestEventNIDs. intros [= <-]. unfold rooms_wf.
    rewrite !update_keeps_columns by done.
    split; [done|]. split; [done|].
    simpl. apply Forall_fmap. eapply Forall_impl; [exact Hseq|].
    intros r Hr. simpl. by destruct (decide _).
Qed.

Lemma execAll_wf ss : ∀ t t',
  rooms_wf t → execAll ss t = Ok t' → rooms_wf t'.
Proof.
  induction ss as [|s ss IH]; intros t t' Hwf Hrun; simpl in Hrun.
  - by injection Hrun as <-.
  - apply bind_Ok in Hrun as (t1 & Hs & Hrun).
    eapply IH; [|exact Hrun]. by eapply exec_wf.
Qed.

Lemma NoDup_fmap_inj {A B} (f : A → B) (l : list A) (x y : A) :
  NoDup (f <$> l) → x ∈ l → y ∈ l → f x = f y → x = y.
Proof.
  induction l as [|z l IH]; simpl; intros Hnodup Hx Hy Hxy.
  - by apply elem_of_nil in Hx.
  - apply NoDup_cons in Hnodup as [Hz Hnodup].
    apply elem_of_cons in Hx as [->|Hx]; apply elem_of_cons in Hy as [->|Hy].
    + done.
    + destruct Hz. rewrite Hxy. apply list_elem_of_fmap. by exists y.
    + destruct Hz. rewrite <- Hxy. apply list_elem_of_fmap. by exists x.
    + by apply IH.
Qed.

(** X15. In every table built from the empty one by the writing statements
    of the rooms table, a room NID belongs to one room ID only: two room IDs
    for which SelectRoomNID returns the same NID are the same. *)
Theorem room_nids_are_distinct (ss : list statement) (t : table)
    (roomID1 roomID2 : string) (nid : Z) :
  execAll ss roomsSchema = Ok t →
  SelectRoomNID t roomID1 = Ok nid → SelectRoomNID t roomID2 = Ok nid →
  roomID1 = roomID2.
Proof.
  intros (Hnid & _)%(execAll_wf _ _ _ roomsSchema_wf).
  unfold SelectRoomNID, selectRoomNIDSQL.
  intros (r1 & [Hr1 <-]%queryRowByRoomID_Ok & [= <-])%bind_Ok
         (r2 & [Hr2 <-]%queryRowByRoomID_Ok & [= Heq])%bind_Ok.
  f_equal. symmetry. by apply (NoDup_fmap_inj room_nid (rooms t)).
Qed.

Lemma queryRowByRoomNID_Ok roomNID rows r :
  queryRowByRoomNID roomNID rows = Ok r → r ∈ rows ∧ room_nid r = roomNID.
Proof.
  induction rows as [|r' rows IH]; simpl; [discriminate|].
  destruct (decide (room_nid r' = roomNID)) as [Heq|Hne].
  - intros [= <-]. split; [by left | done].
  - intros [? ?]%IH. split; [by right | done].
Qed.

Lemma queryRowByRoomNID_Err roomNID rows e :
  queryRowByRoomNID roomNID rows = Err e ↔
  (roomNID ∉ room_nid <$> rows) ∧ e = ErrNoRows.
Proof.
  induction rows as [|r' rows IH]; simpl.
  - split; [intros [= <-]; split; [apply not_elem_of_nil | done]|].
    by intros [_ ->].
  - destruct (decide (room_nid r' = roomNID)) as [Heq|Hne].
    + split; [discriminate|]. intros [Hnin _]. destruct Hnin.
      rewrite <- Heq. by left.
    + rewrite IH, not_elem_of_cons. intuition congruence.
Qed.

Lemma queryRowByRoomNID_app roomNID rows rows' r :
  queryRowByRoomNID roomNID rows = Ok r →
  queryRowByRoomNID roomNID (rows ++ rows') = Ok r.
Proof.
  induction rows as [|r' rows IH]; simpl; [discriminate|].
  by destruct (decide (room_nid r' = roomNID)).
Qed.

Lemma queryRowByRoomNID_app_new roomNID rows r :
  roomNID ∉ room_nid <$> rows → room_nid r = roomNID →
  queryRowByRoomNID roomNID (rows ++ [r]) = Ok r.
Proof.
  intros Hnin Hr. induction rows as [|r' rows IH]; simpl.
  - by rewrite decide_True.
  - apply not_elem_of_cons in Hnin as [Hne Hnin].
    rewrite decide_False by done. by apply IH.
Qed.

Lemma queryRowByRoomNID_fmap roomNID (f : Row → Row) rows :
  (∀ r, room_nid (f r) = room_nid r) →
  queryRowByRoomNID roomNID (f <$> rows)
  = (r ← queryRowByRoomNID roomNID rows; Ok (f r)).
Proof.
  intros Hf. induction rows as [|r' rows IH]; simpl; [done|].
  rewrite Hf. by destruct (decide (room_nid r' = roomNID)).
Qed.

(** A new room ID on a table built from the empty one: the insert appends
    its row under the counter's next value. *)
Lemma InsertRoomNID_new ss t roomID roomVersion nid t' :
  execAll ss roomsSchema = Ok t →
  roomID ∉ room_id <$> rooms t →
  InsertRoomNID t roomID roomVersion = Ok (nid, t') →
  nid = room_nid_seq t + 1 ∧
  (nid ∉ room_nid <$> rooms t) ∧
  Forall (λ r, room_nid r < nid) (rooms t) ∧
  t' = {| rooms := rooms t ++
                     [{| room_nid := nid; room_id := roomID;
                         latest_event_nids := Text "[]";
                         last_event_sent_nid := Int64 0;
                         state_snapshot_nid := Int64 0;
                         room_version := roomVersion |}];
          room_nid_seq := nid |}.
Proof.
  intros (_ & _ & Hseq)%(execAll_wf _ _ _ roomsSchema_wf) Hnew.
  unfold InsertRoomNID.
  intros (t1 & Hins & Hsel)%bind_Ok.
  apply bind_Ok in Hsel as (n & Hn & [= <- <-]).
  apply insertRoomNIDSQL_Ok in Hins as (_ & Hseq' & Hrows).
  assert (Forall (λ r, room_nid r < room_nid_seq t + 1) (rooms t)) as Hlt.
  { eapply Forall_impl; [exact Hseq|]. simpl. lia. }
  destruct Hrows as [[[?|Hpk] _]|(_ & Hfresh & Hrows)]; [done| |].
  { apply list_elem_of_fmap in Hpk as (r & Hr & Hin).
    rewrite Forall_forall in Hlt. specialize (Hlt _ Hin). lia. }
  unfold SelectRoomNID, selectRoomNIDSQL in Hn. rewrite Hrows in Hn.
  rewrite queryRowByRoomID_app_new in Hn by done.
  injection Hn as <-. simpl.
  split; [done|]. split; [done|]. split; [done|].
  destruct t1 as [rows1 seq1]. simpl in *. by rewrite Hrows, Hseq'.
Qed.

(** X16. In a table built from the empty one by the statements of the
    rooms table, a successful InsertRoomNID for a room ID that is not
    stored returns the counter's next value, which is larger than every
    room NID in the table, and appends one row for the room: with that NID,
    the version passed in, no latest events, and 0 for the last event sent
    and for the state snapshot.  The counter's next value need not be the
    next NID after the largest stored one: every insert that found its room
    stored has used a value up. *)
Theorem InsertRoomNID_new_room (ss : list statement) (t : table)
    (roomID roomVersion : string) (nid : Z) (t' : table) :
  execAll ss roomsSchema = Ok t →
  roomID ∉ room_id <$> rooms t →
  InsertRoomNID t roomID roomVersion = Ok (nid, t') →
  nid = room_nid_seq t + 1 ∧
  Forall (λ r, room_nid r < nid) (rooms t) ∧
  t' = {| rooms := rooms t ++
                     [{| room_nid := nid; room_id := roomID;
                         latest_event_nids := Text "[]";
                         last_event_sent_nid := Int64 0;
                         state_snapshot_nid := Int64 0;
                         room_version := roomVersion |}];
          room_nid_seq := nid |}.
Proof.
  intros Hreach Hnew Hins.
  destruct (InsertRoomNID_new _ _ _ _ _ _ Hreach Hnew Hins)
    as (? & _ & ? & ?).
  done.
Qed.


Lemma exec_keeps_room_nid s t t' roomNID r :
  queryRowByRoomNID roomNID (rooms t) = Ok r →
  exec s t = Ok t' →
  ∃ r', queryRowByRoomNID roomNID (rooms t') = Ok r' ∧
        room_id r' = room_id r ∧ room_version r' = room_version r.
Proof.
  intros Hr. destruct s as [roomID' v|roomNID' nids last snapshot]; simpl.
  - intros (_ & _ & [[_ ->]|(_ & _ & ->)])%insertRoomNIDSQL_Ok;
      exists r; [done|]. by rewrite (queryRowByRoomNID_app _ _ _ r).
  - unfold Rooms.UpdateLatestEventNIDs. intros [= <-]. simpl.
    rewrite queryRowByRoomNID_fmap, Hr
      by (intros r0; by destruct (decide _)).
    simpl. eexists. split; [done|]. by destruct (decide _).
Qed.

(** X19. The version of a room never changes: once
    SelectRoomVersionForRoomNID returns a version for a room NID, it
    returns that version after any further statements on the table.  For a
    room NID that is not stored it returns the error "room not found", and
    for no other. *)
Theorem room_version_is_immutable (t : table) (roomNID : Z) :
  (∀ roomVersion ss t',
     SelectRoomVersionForRoomNID t roomNID = RoomVersion roomVersion →
     execAll ss t = Ok t' →
     SelectRoomVersionForRoomNID t' roomNID = RoomVersion roomVersion) ∧
  (SelectRoomVersionForRoomNID t roomNID = ErrRoomNotFound ↔
   roomNID ∉ room_nid <$> rooms t).
Proof.
  split.
  - intros v ss. revert t.
    induction ss as [|s ss IH]; intros t t' Hv Hrun; simpl in Hrun.
    + by injection Hrun as <-.
    + apply bind_Ok in Hrun as (t1 & Hs & Hrun).
      apply (IH t1); [|done].
      unfold SelectRoomVersionForRoomNID, selectRoomVersionForRoomNIDSQL
        in *.
      destruct (queryRowByRoomNID roomNID (rooms t)) as [r|e] eqn:Hq.
      * destruct (exec_keeps_room_nid _ _ _ _ _ Hq Hs) as (r' & -> & _ & Hver).
        simpl in *. congruence.
      * simpl in Hv. by destruct e.
  - unfold SelectRoomVersionForRoomNID, selectRoomVersionForRoomNIDSQL.
    destruct (queryRowByRoomNID roomNID (rooms t)) as [r|e] eqn:Hq; simpl.
    + apply queryRowByRoomNID_Ok in Hq as [Hr <-]. split; [discriminate|].
      intros Hnin. destruct Hnin. apply list_elem_of_fmap. by exists r.
    + apply queryRowByRoomNID_Err in Hq as [Hnin ->]. done.
Qed.

(** X20. A room that InsertRoomNID has just created, in a table built from
    the empty one, reads back under the NID returned: no latest events
    (the decoded "[]"), 0 for the last event sent and for the state
    snapshot, and the version passed in. *)
Theorem InsertRoomNID_read_back (ss : list statement) (t : table)
    (roomID roomVersion : string) (nid : Z) (t' : table) :
  execAll ss roomsSchema = Ok t →
  roomID ∉ room_id <$> rooms t →
  InsertRoomNID t roomID roomVersion = Ok (nid, t') →
  SelectLatestEventsNIDsForUpdate t' nid
  = (nids ← json_Unmarshal "[]"; Ok (nids, 0, 0)) ∧
  SelectLatestEventNIDs t' nid = (nids ← json_Unmarshal "[]"; Ok (nids, 0)) ∧
  SelectRoomVersionForRoomNID t' nid = RoomVersion roomVersion.
Proof.
  intros Hreach Hnew Hins.
  destruct (InsertRoomNID_new _ _ _ _ _ _ Hreach Hnew Hins)
    as (_ & Hfresh & _ & ->).
  unfold Rooms.SelectLatestEventsNIDsForUpdate, Rooms.SelectLatestEventNIDs,
    SelectRoomVersionForRoomNID, selectLatestEventNIDsForUpdateSQL,
    selectLatestEventNIDsSQL, selectRoomVersionForRoomNIDSQL.
  simpl. rewrite queryRowByRoomNID_app_new by done. done.
Qed.

End more_facts.

Lemma room_nids_are_distinct_witness :
  SelectRoomNID exampleRooms "!r:hs" = Ok 2 ∧
  ∀ roomID, SelectRoomNID exampleRooms roomID = Ok 2 →
            roomID = "!r:hs"%string.
Proof.
  assert (SelectRoomNID exampleRooms "!r:hs" = Ok 2) as Hr
    by (vm_compute; reflexivity).
  split; [exact Hr|]. intros roomID HroomID.
  exact (room_nids_are_distinct exampleEncoding _ _ _ _ _
           exampleRooms_built HroomID Hr).
Defined.

(** The rooms of [exampleRooms] have NIDs 1 and 2 and its counter is at 3:
    the new room gets NID 4. *)
Lemma InsertRoomNID_new_room_witness :
  ∃ t', InsertRoomNID exampleRooms "!new:hs" "6" = Ok (4, t') ∧
        room_nid_seq t' = 4 ∧ length (rooms t') = 3%nat.
Proof.
  assert (∃ t', InsertRoomNID exampleRooms "!new:hs" "6" = Ok (4, t'))
    as [t' Hins] by (eexists; vm_compute; reflexivity).
  exists t'. split; [exact Hins|].
  assert ("!new:hs"%string ∉ room_id <$> rooms exampleRooms) as Hnew.
  { vm_compute. intros Hin.
    repeat (apply elem_of_cons in Hin as [Hin|Hin]; [discriminate|]).
    by apply elem_of_nil in Hin. }
  destruct (InsertRoomNID_new_room exampleEncoding _ _ _ _ _ _
              exampleRooms_built Hnew Hins) as (_ & _ & ->).
  split; reflexivity.
Defined.


Lemma room_version_is_immutable_witness :
  SelectRoomVersionForRoomNID exampleRooms 2 = RoomVersion "1" ∧
  SelectRoomVersionForRoomNID exampleRooms 9 = ErrRoomNotFound ∧
  ∃ t', Rooms.execAll exampleEncoding
          [StmtInsertRoomNID "!r:hs" "7"; StmtUpdateLatestEventNIDs 1 [] 0 2]
          exampleRooms = Ok t' ∧
        SelectRoomVersionForRoomNID t' 2 = RoomVersion "1".
Proof.
  destruct (room_version_is_immutable exampleEncoding exampleRooms 2)
    as [Hkeep _].
  destruct (room_version_is_immutable exampleEncoding exampleRooms 9)
    as [_ Hmissing].
  split; [vm_compute; reflexivity|]. split.
  - apply Hmissing. vm_compute. intros Hin.
    repeat (apply elem_of_cons in Hin as [Hin|Hin]; [discriminate|]).
    by apply elem_of_nil in Hin.
  - eexists. split; [vm_compute; reflexivity|].
    apply (Hkeep "1"%string
             [StmtInsertRoomNID "!r:hs" "7";
              StmtUpdateLatestEventNIDs 1 [] 0 2]);
      vm_compute; reflexivity.
Defined.

Lemma InsertRoomNID_read_back_witness :
  ∃ t', InsertRoomNID exampleRooms "!new:hs" "6" = Ok (4, t') ∧
        Rooms.SelectLatestEventsNIDsForUpdate exampleDecoding
          exampleParseInt t' 4 = Ok ([], 0, 0) ∧
        SelectRoomVersionForRoomNID t' 4 = RoomVersion "6".
Proof.
  assert (∃ t', InsertRoomNID exampleRooms "!new:hs" "6" = Ok (4, t'))
    as [t' Hins] by (eexists; vm_compute; reflexivity).
  exists t'. split; [exact Hins|].
  assert ("!new:hs"%string ∉ room_id <$> rooms exampleRooms) as Hnew.
  { vm_compute. intros Hin.
    repeat (apply elem_of_cons in Hin as [Hin|Hin]; [discriminate|]).
    by apply elem_of_nil in Hin. }
  destruct (InsertRoomNID_read_back exampleEncoding exampleDecoding
              exampleParseInt _ _ _ _ _ _
              exampleRooms_built Hnew Hins) as (Hfor & _ & Hver).
  split; [exact Hfor | exact Hver].
Defined.

End RoomsFacts.

(** ** The state snapshot table *)

Module StateSnapshotsFacts.
Import StateSnapshots.

(** *** Facts about the state snapshot table *)

Lemma largest_ge ns n : n ≤ largest ns n ∧ Forall (λ m, m ≤ largest ns n) ns.
Proof.
  induction ns as [|m ns [IHn IHns]]; simpl; [split; [lia | constructor]|].
  split; [lia|]. constructor; [lia|].
  eapply Forall_impl; [exact IHns|]. simpl. lia.
Qed.

Lemma largest_app ns ms n : largest (ns ++ ms) n = largest ns (largest ms n).
Proof. unfold largest. by rewrite foldr_app. Qed.

(** The two outcomes of a call: the counter is exhausted and nothing
    happens, or the row is stored and Scan finds no row to read. *)
Lemma insertState_cases t roomNID stateBlockNIDs :
  insertState t roomNID stateBlockNIDs
  = if decide (max_int64 ≤ last_nid t) then (Err ErrOutOfRange, t)
    else (Err ErrNoRows,
          {| rows := rows t ++ [storedRow (last_nid t) 0
                                  (roomNID, stateBlockNIDs)];
             sequence := last_nid t + 1 |}).
Proof.
  unfold insertState, insertStateSQL, autoincrement, last_nid, storedRow.
  cbv zeta. destruct (decide _); [done|]. simpl.
  by rewrite Z.add_0_r.
Qed.

Lemma last_nid_stored t roomNID stateBlockNIDs :
  last_nid t < max_int64 →
  last_nid (insertState t roomNID stateBlockNIDs).2 = last_nid t + 1.
Proof.
  intros Hlt. rewrite insertState_cases, decide_False by lia.
  unfold last_nid at 1. simpl. rewrite fmap_app, largest_app. simpl.
  rewrite Z.add_0_r. fold (last_nid t).
  destruct (largest_ge (state_snapshot_nid <$> rows t)
              (Z.max (last_nid t + 1) (last_nid t + 1))) as [Hge Hall].
  apply Z.le_antisymm; [|lia].
  assert (∀ ns m, Forall (λ k, k ≤ m) ns → largest ns m ≤ m) as Hmax.
  { intros ns m. induction 1; simpl; lia. }
  etrans; [apply Hmax|lia].
  destruct (largest_ge (state_snapshot_nid <$> rows t) (sequence t))
    as [_ Hrows].
  eapply Forall_impl; [exact Hrows|]. simpl. unfold last_nid. lia.
Qed.

(** C8. insertState never returns a StateSnapshotNID.  Its statement holds
    an INSERT and a SELECT, of which only the INSERT is executed, so
    QueryRow().Scan finds no row: as long as the NID counter is not
    exhausted, every call, whatever its arguments, stores one new row
    holding them, under a NID larger than every NID the table has held, and
    returns sql.ErrNoRows.  With the counter exhausted the call fails and
    stores nothing. *)
Theorem insertState_returns_no_NID (t : table) (roomNID : Z)
    (stateBlockNIDs : list Z) :
  (∀ nid, (insertState t roomNID stateBlockNIDs).1 ≠ Ok nid) ∧
  (last_nid t < max_int64 →
   insertState t roomNID stateBlockNIDs
   = (Err ErrNoRows,
      {| rows := rows t ++
                   [{| state_snapshot_nid := last_nid t + 1;
                       room_nid := roomNID;
                       state_block_nids := stateBlockNIDs |}];
         sequence := last_nid t + 1 |}) ∧
   Forall (λ r, state_snapshot_nid r < last_nid t + 1) (rows t)) ∧
  (max_int64 ≤ last_nid t →
   insertState t roomNID stateBlockNIDs = (Err ErrOutOfRange, t)).
Proof.
  rewrite insertState_cases. split; [|split].
  - intros nid. by destruct (decide _).
  - intros Hlt. rewrite decide_False by lia. split.
    + unfold storedRow. simpl. by rewrite Z.add_0_r.
    + destruct (largest_ge (state_snapshot_nid <$> rows t) (sequence t))
        as [_ Hrows].
      rewrite Forall_fmap in Hrows.
      eapply Forall_impl; [exact Hrows|]. simpl. unfold last_nid. lia.
  - intros Hge. by rewrite decide_True.
Qed.

(** On the empty table, and again with the same arguments: both calls
    return sql.ErrNoRows, and the table holds snapshots 1 and 2. *)
Lemma insertState_returns_no_NID_witness :
  insertState stateSnapshotSchema 1 [4; 5]
  = (Err ErrNoRows,
     {| rows := [{| state_snapshot_nid := 1; room_nid := 1;
                    state_block_nids := [4; 5] |}];
        sequence := 1 |}) ∧
  insertState (insertState stateSnapshotSchema 1 [4; 5]).2 1 [4; 5]
  = (Err ErrNoRows,
     {| rows := [{| state_snapshot_nid := 1; room_nid := 1;
                    state_block_nids := [4; 5] |};
                 {| state_snapshot_nid := 2; room_nid := 1;
                    state_block_nids := [4; 5] |}];
        sequence := 2 |}).
Proof.
  split.
  - destruct (insertState_returns_no_NID stateSnapshotSchema 1 [4; 5])
      as (_ & Hstored & _).
    destruct Hstored as [Hcall _]; [vm_compute; reflexivity|].
    exact Hcall.
  - destruct (insertState_returns_no_NID
                (insertState stateSnapshotSchema 1 [4; 5]).2 1 [4; 5])
      as (_ & Hstored & _).
    destruct Hstored as [Hcall _]; [vm_compute; reflexivity|].
    exact Hcall.
Defined.

(** *** bulkSelectStateBlockNIDs *)

(** An array is bound to $1, so the statement selects no row. *)
Lemma bulkSelectStateBlockNIDsSQL_array (ns : list Z) (t : table) :
  bulkSelectStateBlockNIDsSQL (Int64Array ns) t = [].
Proof.
  unfold bulkSelectStateBlockNIDsSQL.
  replace (filter _ (rows t)) with (@nil Row); [done|].
  symmetry. induction (rows t) as [|r l IH]; [done|].
  by rewrite filter_cons, decide_False.
Qed.

Lemma bulkSelectStateBlockNIDs_cases t stateNIDs :
  bulkSelectStateBlockNIDs t stateNIDs
  = match stateNIDs with
    | [] => Ok []
    | _ :: _ => Err (ErrStateNIDsMissing 0 (length stateNIDs))
    end.
Proof.
  unfold bulkSelectStateBlockNIDs. cbv zeta.
  rewrite bulkSelectStateBlockNIDsSQL_array.
  by destruct stateNIDs.
Qed.

(** C7. bulkSelectStateBlockNIDs finds no snapshot.  The request is bound
    to the one parameter of IN ($1) as one array value, which no
    state_snapshot_nid equals, so the statement returns no row whatever the
    table holds: the empty request returns the empty list, and every other
    request fails with "state NIDs missing" and 0 rows found, also when
    every requested NID is stored. *)
Theorem bulkSelectStateBlockNIDs_finds_nothing (t : table)
    (stateNIDs : list Z) :
  bulkSelectStateBlockNIDsSQL (Int64Array stateNIDs) t = [] ∧
  bulkSelectStateBlockNIDs t [] = Ok [] ∧
  (stateNIDs ≠ [] →
   bulkSelectStateBlockNIDs t stateNIDs
   = Err (ErrStateNIDsMissing 0 (length stateNIDs))).
Proof.
  split; [apply bulkSelectStateBlockNIDsSQL_array|].
  rewrite !bulkSelectStateBlockNIDs_cases. split; [done|].
  by destruct stateNIDs.
Qed.

(** [exampleSnapshots] holds snapshots 1, 2 and 3; the requests [1] and
    [3; 1] name stored snapshots only, and fail: C7 as worded does not hold
    of them. *)
Lemma bulkSelectStateBlockNIDs_finds_nothing_witness :
  state_snapshot_nid <$> rows exampleSnapshots = [1; 2; 3] ∧
  bulkSelectStateBlockNIDs exampleSnapshots [1]
  = Err (ErrStateNIDsMissing 0 1) ∧
  bulkSelectStateBlockNIDs exampleSnapshots [3; 1]
  = Err (ErrStateNIDsMissing 0 2) ∧
  ¬ fails_iff_missing exampleSnapshots [3; 1].
Proof.
  assert (bulkSelectStateBlockNIDs exampleSnapshots [3; 1]
          = Err (ErrStateNIDsMissing 0 2)) as Hfail.
  { apply (bulkSelectStateBlockNIDs_finds_nothing exampleSnapshots [3; 1]).
    discriminate. }
  split; [reflexivity|]. split; [|split; [exact Hfail|]].
  - apply (bulkSelectStateBlockNIDs_finds_nothing exampleSnapshots [1]).
    discriminate.
  - unfold fails_iff_missing. rewrite Hfail. intros [Hmissing _].
    destruct Hmissing as (n & Hn & Hnin); [by eexists|].
    apply Hnin. vm_compute.
    apply elem_of_cons in Hn as [->|Hn]; [do 2 right; left|].
    apply list_elem_of_singleton in Hn as ->. left.
Defined.

(** X22. The order of the request does not matter: two requests that list
    the same snapshot NIDs, each as often as the other, get the same answer
    from bulkSelectStateBlockNIDs, result or error. *)
Theorem bulkSelectStateBlockNIDs_request_order (t : table)
    (stateNIDs1 stateNIDs2 : list Z) :
  stateNIDs1 ≡ₚ stateNIDs2 →
  bulkSelectStateBlockNIDs t stateNIDs1 = bulkSelectStateBlockNIDs t stateNIDs2.
Proof.
  intros Hperm. rewrite !bulkSelectStateBlockNIDs_cases.
  pose proof (Permutation_length Hperm) as Hlen.
  destruct stateNIDs1, stateNIDs2; try done.
  by rewrite Hlen.
Qed.

Lemma bulkSelectStateBlockNIDs_request_order_witness :
  bulkSelectStateBlockNIDs exampleSnapshots [3; 1; 2]
  = bulkSelectStateBlockNIDs exampleSnapshots [1; 2; 3].
Proof.
  apply bulkSelectStateBlockNIDs_request_order.
  apply Permutation_cons_append.
Defined.

(** X23. On a table whose state_snapshot_nid is a key,
    bulkSelectStateBlockNIDs never runs past the end of its result slice:
    its only error is the one for missing state NIDs, and the number of
    rows it reports as found is smaller than the number requested. *)
Theorem bulkSelectStateBlockNIDs_error (t : table) (stateNIDs : list Z)
    (e : error) :
  NoDup (state_snapshot_nid <$> rows t) →
  bulkSelectStateBlockNIDs t stateNIDs = Err e →
  ∃ found, e = ErrStateNIDsMissing found (length stateNIDs) ∧
           (found < length stateNIDs)%nat.
Proof.
  intros _. rewrite bulkSelectStateBlockNIDs_cases.
  destruct stateNIDs as [|n stateNIDs]; [discriminate|].
  intros [= <-]. exists 0%nat. split; [done|]. simpl. lia.
Qed.

Lemma bulkSelectStateBlockNIDs_error_witness :
  ∃ found, bulkSelectStateBlockNIDs exampleSnapshots [3; 7; 8]
           = Err (ErrStateNIDsMissing found 3) ∧ (found < 3)%nat.
Proof.
  assert (NoDup (state_snapshot_nid <$> rows exampleSnapshots)) as Hpk.
  { vm_compute. apply NoDup_ListNoDup.
    repeat constructor; simpl; intuition lia. }
  assert (bulkSelectStateBlockNIDs exampleSnapshots [3; 7; 8]
          = Err (ErrStateNIDsMissing 0 3)) as Hsel
    by (vm_compute; reflexivity).
  destruct (bulkSelectStateBlockNIDs_error exampleSnapshots [3; 7; 8] _
              Hpk Hsel) as (found & Hfound & Hlt).
  exists found. split; [|exact Hlt].
  rewrite Hsel. f_equal. exact Hfound.
Defined.

(** *** Runs of insertState *)

Lemma imap_storedRow_shift last (calls : list (Z * list Z)) :
  imap (λ i, storedRow last (S i)) calls
  = imap (storedRow (last + 1)) calls.
Proof.
  apply imap_ext. intros i c _. unfold storedRow. f_equal. lia.
Qed.

(** X24. A run of insertState calls stores every call although every call
    reports an error: as long as the NID counter is not exhausted, each
    call of the run returns sql.ErrNoRows, and the table the run leaves
    holds, after the rows it held, one row per call in the order of the
    calls, with the arguments of the call and consecutive NIDs starting one
    above the largest NID the table had held; calls with the same
    arguments are stored once each. *)
Theorem insertState_run_stores_every_call (calls : list (Z * list Z))
    (t : table) :
  last_nid t + Z.of_nat (length calls) ≤ max_int64 →
  (insertState_run calls t).1 = replicate (length calls) (Err ErrNoRows) ∧
  rows (insertState_run calls t).2
  = rows t ++ imap (storedRow (last_nid t)) calls ∧
  NoDup (state_snapshot_nid <$> imap (storedRow (last_nid t)) calls).
Proof.
  revert t. induction calls as [|[roomNID blocks] calls IH]; intros t Hle.
  - simpl. rewrite app_nil_r. repeat split. constructor.
  - simpl in Hle.
    assert (last_nid t < max_int64) as Hlt by lia.
    pose proof (last_nid_stored t roomNID blocks Hlt) as Hlast.
    destruct (IH (insertState t roomNID blocks).2) as (Hres & Hrows & Hnodup).
    { rewrite Hlast. lia. }
    cbn [insertState_run fst snd]. cbv zeta.
    rewrite Hlast in Hrows, Hnodup.
    split; [|split].
    + rewrite Hres, insertState_cases, decide_False by lia. done.
    + rewrite Hrows, insertState_cases, decide_False by lia. simpl.
      rewrite <- (assoc_L (++)). simpl. f_equal. f_equal.
      symmetry. apply imap_storedRow_shift.
    + cbn [imap fmap list_fmap].
      change (imap (storedRow (last_nid t) ∘ S) calls)
        with (imap (λ i, storedRow (last_nid t) (S i)) calls).
      rewrite imap_storedRow_shift. apply NoDup_cons. split; [|done].
      intros (r & Hr & Hin)%list_elem_of_fmap.
      apply elem_of_lookup_imap in Hin as (i & c & -> & _).
      simpl in Hr. lia.
Qed.

(** Three calls on the empty table, the first two with the same room:
    three errors, and the snapshots 1, 2 and 3 of [exampleSnapshots]. *)
Lemma insertState_run_stores_every_call_witness :
  insertState_run [(1, [4; 5]); (1, [4; 5; 6]); (2, [9])] stateSnapshotSchema
  = ([Err ErrNoRows; Err ErrNoRows; Err ErrNoRows], exampleSnapshots) ∧
  rows exampleSnapshots
  = [{| state_snapshot_nid := 1; room_nid := 1; state_block_nids := [4; 5] |};
     {| state_snapshot_nid := 2; room_nid := 1;
        state_block_nids := [4; 5; 6] |};
     {| state_snapshot_nid := 3; room_nid := 2; state_block_nids := [9] |}].
Proof.
  destruct (insertState_run_stores_every_call
              [(1, [4; 5]); (1, [4; 5; 6]); (2, [9])] stateSnapshotSchema)
    as (Hres & Hrows & _); [vm_compute; discriminate|].
  split.
  - destruct (insertState_run _ _) as [res t'] eqn:Hrun. simpl in Hres.
    rewrite Hres. f_equal. unfold exampleSnapshots. by rewrite Hrun.
  - exact Hrows.
Defined.

End StateSnapshotsFacts.

(** * The event endpoint of the client API *)

Module GetEventHandlerFacts.
Import GetEventHandler.

Lemma passedOver_continues userID requestedEvent stateEvent rest :
  passedOver userID stateEvent →
  membershipLoop userID requestedEvent (stateEvent :: rest) =
  membershipLoop userID requestedEvent rest.
Proof.
  intros Hpass. simpl. unfold passedOver in Hpass.
  destruct (StateKeyEquals stateEvent userID); [|done].
  destruct Hpass as (membership & -> & Hne); [done|].
  by rewrite decide_False.
Qed.

Lemma membershipLoop_ok userID requestedEvent stateEvents e :
  membershipLoop userID requestedEvent stateEvents =
    Response StatusOK (ToClientEvent e) ↔
  e = requestedEvent ∧ joinedIn userID stateEvents.
Proof.
  induction stateEvents as [|stateEvent rest IH].
  - split; [done|]. intros (_ & before & s & after & Heq & _).
    by destruct before.
  - split.
    + simpl. destruct (StateKeyEquals stateEvent userID) eqn:Hkey.
      * destruct (Membership stateEvent) as [membership|err] eqn:Hm; [|done].
        destruct (decide (membership = Join)) as [->|Hne].
        -- intros [= ->]. split; [done|].
           by exists [], stateEvent, rest.
        -- intros (-> & before & s & after & -> & Hb & Hsk & Hsm)%IH.
           split; [done|].
           exists (stateEvent :: before), s, after.
           split_and!; [done| |done..].
           constructor; [|done]. intros _. by exists membership.
      * intros (-> & before & s & after & -> & Hb & Hsk & Hsm)%IH.
        split; [done|].
        exists (stateEvent :: before), s, after.
        split_and!; [done| |done..].
        constructor; [|done]. intros Hk. congruence.
    + intros (-> & before & s & after & Heq & Hb & Hkey & Hm).
      destruct before as [|b before].
      * simpl in Heq. injection Heq as <- <-. simpl.
        by rewrite Hkey, Hm, decide_True.
      * simpl in Heq. injection Heq as <- ->.
        apply Forall_cons in Hb as [Hb Hbs].
        rewrite passedOver_continues by done.
        apply IH. split; [done|]. by exists before, s, after.
Qed.

Lemma membershipLoop_error userID requestedEvent stateEvents :
  membershipLoop userID requestedEvent stateEvents = InternalServerError ↔
  unreadableIn userID stateEvents.
Proof.
  induction stateEvents as [|stateEvent rest IH].
  - split; [done|]. intros (before & s & after & e & Heq & _).
    by destruct before.
  - split.
    + simpl. destruct (StateKeyEquals stateEvent userID) eqn:Hkey.
      * destruct (Membership stateEvent) as [membership|err] eqn:Hm.
        -- destruct (decide (membership = Join)) as [->|Hne]; [done|].
           intros (before & s & after & e & -> & Hb & Hsk & Hsm)%IH.
           exists (stateEvent :: before), s, after, e.
           split_and!; [done| |done..].
           constructor; [|done]. intros _. by exists membership.
        -- intros _. by exists [], stateEvent, rest, err.
      * intros (before & s & after & e & -> & Hb & Hsk & Hsm)%IH.
        exists (stateEvent :: before), s, after, e.
        split_and!; [done| |done..].
        constructor; [|done]. intros Hk. congruence.
    + intros (before & s & after & e & Heq & Hb & Hkey & Hm).
      destruct before as [|b before].
      * simpl in Heq. injection Heq as <- <-. simpl.
        by rewrite Hkey, Hm.
      * simpl in Heq. injection Heq as <- ->.
        apply Forall_cons in Hb as [Hb Hbs].
        rewrite passedOver_continues by done.
        apply IH. by exists before, s, after, e.
Qed.

(** X25 (clientapi/routing/getevent.go, GetEvent): the handler answers
    200 with an event exactly when that event is the first one the room
    server returns for the requested ID, the state query for that event's
    room and previous events succeeds with the room and the previous events
    known, and, among the state events returned, the first one of the
    requesting user that is not passed over (a membership other than
    "join") has membership "join".  So an event is only ever disclosed to
    a user the room server reports as joined. *)
Theorem GetEvent_ok_iff (device : Device) (roomID eventID : string)
    (rsAPI : RoomserverInternalAPI) (e : Event) :
  GetEvent device roomID eventID rsAPI = Response StatusOK (ToClientEvent e) ↔
  ∃ others stateResp,
    QueryEventsByID rsAPI {| EventIDs := [eventID] |} =
      Ok {| Events := e :: others |} ∧
    QueryStateAfterEvents rsAPI (stateRequestFor device e) = Ok stateResp ∧
    RoomExists stateResp = true ∧
    PrevEventsExist stateResp = true ∧
    joinedIn (UserID device) (StateEvents stateResp).
Proof.
  unfold GetEvent, stateRequestFor. cbv zeta.
  destruct (QueryEventsByID rsAPI _) as [[events]|err]; simpl.
  - destruct events as [|requestedEvent others].
    + split; [done|]. by intros (? & ? & [=] & _).
    + destruct (QueryStateAfterEvents rsAPI _) as [stateResp|err] eqn:Hq.
      * destruct (RoomExists stateResp) eqn:Hroom; simpl.
        -- destruct (PrevEventsExist stateResp) eqn:Hprev; simpl.
           ++ rewrite membershipLoop_ok. split.
              ** intros [-> Hj]. exists others, stateResp.
                 by rewrite Hq.
              ** intros (o & sr & [= -> ->] & Hq' & _ & _ & Hj).
                 rewrite Hq in Hq'. by injection Hq' as ->.
           ++ split; [done|].
              intros (o & sr & [= -> ->] & Hq' & _ & Hp & _).
              rewrite Hq in Hq'. injection Hq' as ->. congruence.
        -- split; [done|].
           intros (o & sr & [= -> ->] & Hq' & Hr & _).
           rewrite Hq in Hq'. injection Hq' as ->. congruence.
      * split; [done|].
        intros (o & sr & [= -> ->] & Hq' & _). congruence.
  - split; [done|]. by intros (? & ? & [=] & _).
Qed.

(** X26 (clientapi/routing/getevent.go, GetEvent): the handler answers
    with an internal server error exactly when the event query fails, or
    an event is returned and the state query for it fails or reports that
    the room does not exist, or the previous events are known and the
    first state event of the requesting user that is not passed over has a
    membership that cannot be read.  An unknown event, unknown previous
    events or a user who is not joined never give this answer. *)
Theorem GetEvent_internal_error_iff (device : Device)
    (roomID eventID : string) (rsAPI : RoomserverInternalAPI) :
  GetEvent device roomID eventID rsAPI = InternalServerError ↔
  (∃ err, QueryEventsByID rsAPI {| EventIDs := [eventID] |} = Err err) ∨
  ∃ e others,
    QueryEventsByID rsAPI {| EventIDs := [eventID] |} =
      Ok {| Events := e :: others |} ∧
    ((∃ err,
        QueryStateAfterEvents rsAPI (stateRequestFor device e) = Err err) ∨
     ∃ stateResp,
       QueryStateAfterEvents rsAPI (stateRequestFor device e) =
         Ok stateResp ∧
       (RoomExists stateResp = false ∨
        (PrevEventsExist stateResp = true ∧
         unreadableIn (UserID device) (StateEvents stateResp)))).
Proof.
  unfold GetEvent, stateRequestFor. cbv zeta.
  destruct (QueryEventsByID rsAPI _) as [[events]|err]; simpl.
  - destruct events as [|requestedEvent others].
    + split; [done|]. intros [[? [=]]|(? & ? & [=] & _)].
    + destruct (QueryStateAfterEvents rsAPI _) as [stateResp|err] eqn:Hq.
      * destruct (RoomExists stateResp) eqn:Hroom; simpl.
        -- destruct (PrevEventsExist stateResp) eqn:Hprev; simpl.
           ++ rewrite membershipLoop_error. split.
              ** intros Hu. right. exists requestedEvent, others.
                 split; [done|]. right. exists stateResp.
                 rewrite Hq. split; [done|]. by right.
              ** intros [[? [=]]|(e & o & [= -> ->] & Hcase)].
                 destruct Hcase as [[? Hq']|(sr & Hq' & Hcase)];
                   rewrite Hq in Hq'; [done|].
                 injection Hq' as ->.
                 destruct Hcase as [?|[_ ?]]; [congruence|done].
           ++ split; [done|].
              intros [[? [=]]|(e & o & [= -> ->] & Hcase)].
              destruct Hcase as [[? Hq']|(sr & Hq' & Hcase)];
                rewrite Hq in Hq'; [done|].
              injection Hq' as ->.
              destruct Hcase as [?|[? _]]; congruence.
        -- split; [|done]. intros _. right.
           exists requestedEvent, others. split; [done|]. right.
           exists stateResp. rewrite Hq. split; [done|]. by left.
      * split; [|done]. intros _. right.
        exists requestedEvent, others. split; [done|]. left.
        exists err. by rewrite Hq.
  - split; [|done]. intros _. left. by exists err.
Qed.

Lemma GetEvent_ok_iff_witness :
  GetEvent {| UserID := "@alice:hs" |} "!r:hs" "$m"
    (exampleAPI exampleMessage
       [memberEvent "@bob:hs" "join"; memberEvent "@alice:hs" "join"]) =
  Response StatusOK (ToClientEvent exampleMessage).
Proof.
  apply GetEvent_ok_iff.
  exists [], {| RoomExists := true; PrevEventsExist := true;
                StateEvents := [memberEvent "@bob:hs" "join";
                                memberEvent "@alice:hs" "join"] |}.
  split_and!; [reflexivity..|].
  exists [memberEvent "@bob:hs" "join"], (memberEvent "@alice:hs" "join"), [].
  split_and!; [reflexivity| |reflexivity..].
  constructor; [|constructor]. intros Hkey. vm_compute in Hkey. discriminate.
Defined.

Lemma GetEvent_internal_error_iff_witness :
  GetEvent {| UserID := "@alice:hs" |} "!r:hs" "$m"
    (exampleAPI exampleMessage
       [memberEvent "@alice:hs" "leave";
        {| EventID := "$s"; RoomID := "!r:hs"; PrevEventIDs := [];
           StateKey := Some "@alice:hs"%string;
           Membership := Err ErrScanNull |}]) =
  InternalServerError.
Proof.
  apply GetEvent_internal_error_iff. right.
  exists exampleMessage, []. split; [reflexivity|]. right.
  eexists. split; [reflexivity|]. right. split; [reflexivity|].
  exists [memberEvent "@alice:hs" "leave"],
    {| EventID := "$s"; RoomID := "!r:hs"; PrevEventIDs := [];
       StateKey := Some "@alice:hs"%string; Membership := Err ErrScanNull |},
    [], ErrScanNull.
  split_and!; [reflexivity| |reflexivity..].
  constructor; [|constructor]. intros _. exists "leave"%string.
  split; [reflexivity|]. intros Heq. vm_compute in Heq. discriminate.
Defined.

End GetEventHandlerFacts.
